(** * PINN_ZPG: the physics-informed solver of the zero-pressure-gradient
    boundary layer (ZPG-boundary-layer/PINN_ZPG.py)

    A shallow embedding of class [PINNs] and a verification of its
    normaliser, residual evaluator, loss assembly and two-phase [fit].

    Modelling conventions.
    - Scalars.  Tensor entries are exact rationals ([Qc], canonical
      fractions with Leibniz equality): the theorems are about the
      arithmetic that float32 approximates.  A division by zero, which
      TensorFlow answers by inf or NaN, reads 0 here, and so does the
      maximum, the minimum and the mean of an empty batch: a statement
      about the value of a quotient carries the hypothesis that its
      divisor is not zero, or says of two quotients that they are the
      same one.  The scaling operations are also instantiated at binary32
      ([float32]), where rounding, inf and NaN are what IEEE 754 makes
      them.
    - Tensors.  An N-by-2 tensor is a list of pairs, an N-by-3 tensor a
      list of triples, a boundary batch a list of (pair, triple) rows.
    - Automatic differentiation.  What a gradient tape records is a term
      of type [expr]; [tape.gradient] is differentiation of that term by
      the chain rule ([D]), summed over the entries of the target as
      TensorFlow does.
    - The object.  The attributes of a [PINNs] instance are the fields of
      a record threaded through every method; an attribute that was never
      assigned is [None] and reading it raises [AttributeError].
    - [tf.function].  A method decorated by [tf.function] is traced once
      for every shape of its arguments, and the graph is kept with the
      object.  The trace reads the attributes; the graph holds what they
      were then (tensors, the Python float [nu], the approximator, the
      graphs of the decorated methods it calls) and is run on every
      later call with that shape, whatever has been assigned to the
      attributes since.  The parameters of the approximator are
      variables: a graph reads their current values.  [fit_scale],
      [fit_scalex], [fit] and [predict] are plain Python and read the
      attributes whenever they run.
    - External services.  The approximator (a Keras model) is a term
      [net] over its two inputs and its parameters with an uninterpreted
      activation; the two optimisers are the fields of the class
      [Services].  Calls to them and the lines printed by [tf.print] are
      recorded in a trace, which is how the order of events is stated. *)

From Stdlib Require Import String QArith Qcanon Qcabs Qround List Lia Bool Arith.
From Stdlib Require Import SpecFloat.
Import ListNotations.

Local Open Scope Qc_scope.

(** ** Scalars and tensor entries *)

Definition vec2 (T : Type) : Type := (T * T)%type.
Definition vec3 (T : Type) : Type := (T * T * T)%type.

(** The arithmetic that TensorFlow offers on eager values and on taped
    values alike. *)
Class Elt (T : Type) : Type := {
  lit : Qc -> T;
  add : T -> T -> T;
  sub : T -> T -> T;
  mul : T -> T -> T;
  div : T -> T -> T
}.

#[export] Instance Elt_Qc : Elt Qc := {
  lit := fun q => q;
  add := Qcplus;
  sub := Qcminus;
  mul := Qcmult;
  div := Qcdiv
}.

(** The same arithmetic in binary32, the type of the tensors that [fit]
    and [predict] build ([tf.float32]): IEEE 754 single precision with
    rounding to nearest even.  A constant is the binary32 number nearest
    to it (exactly so when its numerator and denominator are below
    2^24). *)
Definition float32 : Type := spec_float.

Definition prec32 : Z := 24.
Definition emax32 : Z := 128.

Definition of_Z32 (z : Z) : float32 := binary_normalize prec32 emax32 z 0 false.

Definition of_Qc32 (q : Qc) : float32 :=
  SFdiv prec32 emax32 (of_Z32 (Qnum q)) (of_Z32 (Zpos (Qden q))).

#[export] Instance Elt_float32 : Elt float32 := {
  lit := of_Qc32;
  add := SFadd prec32 emax32;
  sub := SFsub prec32 emax32;
  mul := SFmul prec32 emax32;
  div := SFdiv prec32 emax32
}.

Definition Qcmax (a b : Qc) : Qc :=
  match a ?= b with Lt => b | _ => a end.

Definition Qcmin (a b : Qc) : Qc :=
  match a ?= b with Gt => b | _ => a end.

(** [tf.reduce_max] and [tf.reduce_min] of one column. *)
Definition reduce_max (l : list Qc) : Qc :=
  match l with
  | [] => 0
  | a :: r => fold_left Qcmax r a
  end.

Definition reduce_min (l : list Qc) : Qc :=
  match l with
  | [] => 0
  | a :: r => fold_left Qcmin r a
  end.

(** Reductions along axis 0 of an N-by-2 and of an N-by-3 tensor. *)
Definition reduce_max2 (x : list (vec2 Qc)) : vec2 Qc :=
  (reduce_max (map fst x), reduce_max (map snd x)).

Definition reduce_min2 (x : list (vec2 Qc)) : vec2 Qc :=
  (reduce_min (map fst x), reduce_min (map snd x)).

Definition reduce_max3 (y : list (vec3 Qc)) : vec3 Qc :=
  (reduce_max (map (fun r => fst (fst r)) y),
   reduce_max (map (fun r => snd (fst r)) y),
   reduce_max (map snd y)).

Definition abs2 (x : list (vec2 Qc)) : list (vec2 Qc) :=
  map (fun r => (Qcabs (fst r), Qcabs (snd r))) x.

Definition abs3 (y : list (vec3 Qc)) : list (vec3 Qc) :=
  map (fun r => (Qcabs (fst (fst r)), Qcabs (snd (fst r)), Qcabs (snd r))) y.

(** Broadcasting of a row of constants against every row of a batch:
    [op r c] for a row [r] of the batch and the constants [c]. *)
Definition row2 {T : Type} `{Elt T} (op : T -> T -> T)
    (r : vec2 T) (c : vec2 Qc) : vec2 T :=
  (op (fst r) (lit (fst c)), op (snd r) (lit (snd c))).

Definition row3 {T : Type} `{Elt T} (op : T -> T -> T)
    (r : vec3 T) (c : vec3 Qc) : vec3 T :=
  (op (fst (fst r)) (lit (fst (fst c))),
   op (snd (fst r)) (lit (snd (fst c))),
   op (snd r) (lit (snd c))).

(** [(x - lo) / (hi - lo)] on one row. *)
Definition minmax_row {T : Type} `{Elt T} (lo hi : vec2 Qc) (r : vec2 T) : vec2 T :=
  row2 div (row2 sub r lo) (row2 (T:=Qc) sub hi lo).

(** [xs * (hi - lo) + lo] on one row. *)
Definition unminmax_row {T : Type} `{Elt T} (lo hi : vec2 Qc) (r : vec2 T) : vec2 T :=
  row2 add (row2 mul r (row2 (T:=Qc) sub hi lo)) lo.

Definition of_nat (n : nat) : Qc := Q2Qc (inject_Z (Z.of_nat n)).

Definition map2 {A B C : Type} (f : A -> B -> C) (l : list A) (l' : list B) : list C :=
  map (fun p => f (fst p) (snd p)) (combine l l').

(** ** The gradient tape *)

(** The entries of the two watched vectors [x] and [y] of [net_f]. *)
Inductive leaf : Type :=
| LX (i : nat)
| LY (i : nat).

(** What a gradient can be taken with respect to: a trainable scalar or a
    watched entry. *)
Inductive dvar : Type :=
| DPar (k : nat)
| DInp (l : leaf).

(** A recorded value.  [Inp l v] is the watched entry [l], whose value is
    [v]; [Par k] is the k-th trainable scalar; [Act n a] is the n-th
    derivative of the activation function, taken at [a]. *)
Inductive expr : Type :=
| Const (q : Qc)
| Par (k : nat)
| Inp (l : leaf) (v : Qc)
| Add (a b : expr)
| Sub (a b : expr)
| Mul (a b : expr)
| Div (a b : expr)
| Act (n : nat) (a : expr).

#[export] Instance Elt_expr : Elt expr := {
  lit := Const;
  add := Add;
  sub := Sub;
  mul := Mul;
  div := Div
}.

Definition leaf_eqb (l l' : leaf) : bool :=
  match l, l' with
  | LX i, LX j => Nat.eqb i j
  | LY i, LY j => Nat.eqb i j
  | _, _ => false
  end.

Definition dvar_eqb (d d' : dvar) : bool :=
  match d, d' with
  | DPar k, DPar k' => Nat.eqb k k'
  | DInp l, DInp l' => leaf_eqb l l'
  | _, _ => false
  end.

Definition indicator (b : bool) : expr := Const (if b then 1 else 0).

(** The derivative of a recorded value with respect to [d], by the chain
    rule, operation by operation. *)
Fixpoint D (d : dvar) (e : expr) : expr :=
  match e with
  | Const _ => Const 0
  | Par k => indicator (dvar_eqb d (DPar k))
  | Inp l _ => indicator (dvar_eqb d (DInp l))
  | Add a b => Add (D d a) (D d b)
  | Sub a b => Sub (D d a) (D d b)
  | Mul a b => Add (Mul (D d a) b) (Mul a (D d b))
  | Div a b => Sub (Div (D d a) b) (Mul (D d b) (Div (Div a b) b))
  | Act n a => Mul (Act (S n) a) (D d a)
  end.

Definition sum_expr (l : list expr) : expr := fold_right Add (Const 0) l.

(** [tape.gradient(target, sources)]: one entry per source, the derivative
    of the sum of the entries of the target. *)
Definition gradient (target : list expr) (sources : list dvar) : list expr :=
  map (fun s => sum_expr (map (D s) target)) sources.

(** [tape.watch] of a vector: its entries become leaves of the tape. *)
Definition watch (mk : nat -> leaf) (vals : list Qc) : list expr :=
  map2 (fun i v => Inp (mk i) v) (seq 0 (length vals)) vals.

Definition sources (mk : nat -> leaf) (n : nat) : list dvar :=
  map (fun i => DInp (mk i)) (seq 0 n).

(** ** The approximator *)

(** The body of the Keras model, one output component: a term over its
    two inputs, its trainable scalars and an activation function. *)
Inductive net : Type :=
| NIn0
| NIn1
| NConst (q : Qc)
| NPar (k : nat)
| NAdd (a b : net)
| NSub (a b : net)
| NMul (a b : net)
| NDiv (a b : net)
| NAct (a : net).

Fixpoint apply_net (n : net) (i0 i1 : expr) : expr :=
  match n with
  | NIn0 => i0
  | NIn1 => i1
  | NConst q => Const q
  | NPar k => Par k
  | NAdd a b => Add (apply_net a i0 i1) (apply_net b i0 i1)
  | NSub a b => Sub (apply_net a i0 i1) (apply_net b i0 i1)
  | NMul a b => Mul (apply_net a i0 i1) (apply_net b i0 i1)
  | NDiv a b => Div (apply_net a i0 i1) (apply_net b i0 i1)
  | NAct a => Act 0 (apply_net a i0 i1)
  end.

(** [model(X)] on a batch: the same three terms on every row. *)
Definition call_model (m : vec3 net) (X : list (vec2 expr)) : list (vec3 expr) :=
  map (fun r => (apply_net (fst (fst m)) (fst r) (snd r),
                 apply_net (snd (fst m)) (fst r) (snd r),
                 apply_net (snd m) (fst r) (snd r))) X.

(** ** The external services *)

(** What [minimize] of the quasi-Newton optimiser does with the closure it
    is given: it stops, or it invokes the closure on a flat parameter
    vector and goes on from the loss and the flat gradient it gets back. *)
Inductive lbfgs_run (S : Type) : Type :=
| LDone (s : S)
| LInvoke (params_1d : list Qc) (k : Qc -> list Qc -> lbfgs_run S).

Arguments LDone {S} s.
Arguments LInvoke {S} params_1d k.

(** Modelled from the spec: the activation of the approximator, the
    phase-one optimiser ([apply_gradients], with the state it keeps) and
    the quasi-Newton optimiser of module [lbfgs] ([lbfgs_op], [minimize]),
    which are not part of PINN_ZPG.py.  [act n] is the n-th derivative of
    the activation function. *)
Class Services : Type := {
  act : nat -> Qc -> Qc;
  OptState : Type;
  apply_gradients : OptState -> list (Qc * Qc) -> OptState * list Qc;
  SoptState : Type;
  lbfgs_op : list Qc -> SoptState;
  minimize : SoptState -> list Qc -> lbfgs_run SoptState
}.

(** The value of a recorded term, the trainable scalars being [theta]. *)
Fixpoint eval `{Services} (theta : list Qc) (e : expr) : Qc :=
  match e with
  | Const q => q
  | Par k => nth k theta 0
  | Inp _ v => v
  | Add a b => eval theta a + eval theta b
  | Sub a b => eval theta a - eval theta b
  | Mul a b => eval theta a * eval theta b
  | Div a b => eval theta a / eval theta b
  | Act n a => act n (eval theta a)
  end.

Definition eval3 `{Services} (theta : list Qc) (r : vec3 expr) : vec3 Qc :=
  (eval theta (fst (fst r)), eval theta (snd (fst r)), eval theta (snd r)).

Definition const2 (r : vec2 Qc) : vec2 expr := (Const (fst r), Const (snd r)).

(** ** The object *)

(** What the object prints and which services it calls, in order;
    [InvokeClosure] is the quasi-Newton optimiser calling the closure it
    was given. *)
Inductive event : Type :=
| PrintEpoch (n : nat)
| PrintLoss (l : vec3 Qc)
| ApplyGradients (grads : list Qc)
| MinimizeCall
| InvokeClosure (params_1d : list Qc)
| AssignParams (params_1d : list Qc)
| MinimizeReturn.

(** *** Graphs traced by [tf.function] *)

(** What a graph of [scalex] or of [scalex_r] holds: the tensors that
    [xmin] and [xmax] named when it was traced. *)
Definition range : Type := (vec2 Qc * vec2 Qc)%type.

(** What a graph of [net_f] holds: the graphs of the three scaling
    methods it calls, the approximator, and the Python float [nu]. *)
Record net_f_captures : Type := mk_net_f_captures {
  g_scalex_r : range;
  g_scalex : range;
  g_model : vec3 net;
  g_scale_r : vec3 Qc;
  g_nu : Qc
}.

(** What a graph of [train_step] holds: the approximator and the graph
    of [net_f]. *)
Record train_step_captures : Type := mk_train_step_captures {
  g_boundary_model : vec3 net;
  g_net_f : net_f_captures
}.

(** The graphs traced so far, method by method, each under the shape it
    was traced for: the number of rows of the batch (for [train_step],
    of the boundary batch and of the collocation batch). *)
Record function_caches : Type := mk_function_caches {
  scalex_cache : list (nat * range);
  scalex_r_cache : list (nat * range);
  scale_cache : list (nat * vec3 Qc);
  scale_r_cache : list (nat * vec3 Qc);
  net_f_cache : list (nat * net_f_captures);
  train_step_cache : list (nat * nat * train_step_captures)
}.

Definition no_graphs : function_caches := mk_function_caches [] [] [] [] [] [].

Fixpoint lookup {K G : Type} (eqb : K -> K -> bool) (k : K) (c : list (K * G)) : option G :=
  match c with
  | [] => None
  | (k', g) :: c' => if eqb k' k then Some g else lookup eqb k c'
  end.

Definition shape_eqb (a b : nat * nat) : bool :=
  Nat.eqb (fst a) (fst b) && Nat.eqb (snd a) (snd b).

(** *** Attributes *)

(** The attributes of a [PINNs] instance.  [trainable_variables] are the
    parameters of [model], flattened; [ymax], [xmax] and [xmin] do not
    exist until a method assigns them; [trace] is the record of events
    and [caches] holds the graphs of the decorated methods. *)
Record PINNs `{Services} : Type := mkPINNs {
  model : vec3 net;
  trainable_variables : list Qc;
  optimizer : OptState;
  epochs : nat;
  hist : list (vec3 Qc);
  epoch : nat;
  sopt : SoptState;
  nu : Qc;
  ymax : option (vec3 Qc);
  xmax : option (vec2 Qc);
  xmin : option (vec2 Qc);
  trace : list event;
  caches : function_caches
}.

Inductive error : Type :=
| AttributeError (name : string).

Inductive result (A : Type) : Type :=
| Ok (a : A)
| Raise (e : error).

Arguments Ok {A} a.
Arguments Raise {A} e.

(** A method: it returns or raises, and leaves the object as it made it. *)
Definition M `{Services} (A : Type) : Type := PINNs -> result A * PINNs.

Definition ret `{Services} {A : Type} (a : A) : M A := fun s => (Ok a, s).

Definition bind `{Services} {A B : Type} (m : M A) (f : A -> M B) : M B :=
  fun s => match m s with
           | (Ok a, s') => f a s'
           | (Raise e, s') => (Raise e, s')
           end.

Notation "x <- m ;; k" := (bind m (fun x => k))
  (at level 61, m at next level, right associativity).
Notation "m ;;; k" := (bind m (fun _ => k))
  (at level 61, right associativity).

(** Reading an attribute that may not exist yet. *)
Definition getattr `{Services} {A : Type} (name : string)
    (field : PINNs -> option A) : M A :=
  fun s => match field s with
           | Some a => (Ok a, s)
           | None => (Raise (AttributeError name), s)
           end.

Definition read `{Services} {A : Type} (field : PINNs -> A) : M A :=
  fun s => (Ok (field s), s).

Definition emit `{Services} (e : event) : M unit :=
  fun s => (Ok tt,
            mkPINNs _ (model s) (trainable_variables s) (optimizer s) (epochs s)
              (hist s) (epoch s) (sopt s) (nu s) (ymax s) (xmax s) (xmin s)
              (trace s ++ [e]) (caches s)).

Definition set_ymax `{Services} (v : vec3 Qc) : M unit :=
  fun s => (Ok tt,
            mkPINNs _ (model s) (trainable_variables s) (optimizer s) (epochs s)
              (hist s) (epoch s) (sopt s) (nu s) (Some v) (xmax s) (xmin s)
              (trace s) (caches s)).

Definition set_xmax `{Services} (v : vec2 Qc) : M unit :=
  fun s => (Ok tt,
            mkPINNs _ (model s) (trainable_variables s) (optimizer s) (epochs s)
              (hist s) (epoch s) (sopt s) (nu s) (ymax s) (Some v) (xmin s)
              (trace s) (caches s)).

Definition set_xmin `{Services} (v : vec2 Qc) : M unit :=
  fun s => (Ok tt,
            mkPINNs _ (model s) (trainable_variables s) (optimizer s) (epochs s)
              (hist s) (epoch s) (sopt s) (nu s) (ymax s) (xmax s) (Some v)
              (trace s) (caches s)).

Definition set_variables `{Services} (v : list Qc) : M unit :=
  fun s => (Ok tt,
            mkPINNs _ (model s) v (optimizer s) (epochs s)
              (hist s) (epoch s) (sopt s) (nu s) (ymax s) (xmax s) (xmin s)
              (trace s) (caches s)).

Definition set_optimizer `{Services} (o : OptState) : M unit :=
  fun s => (Ok tt,
            mkPINNs _ (model s) (trainable_variables s) o (epochs s)
              (hist s) (epoch s) (sopt s) (nu s) (ymax s) (xmax s) (xmin s)
              (trace s) (caches s)).

Definition set_sopt `{Services} (o : SoptState) : M unit :=
  fun s => (Ok tt,
            mkPINNs _ (model s) (trainable_variables s) (optimizer s) (epochs s)
              (hist s) (epoch s) o (nu s) (ymax s) (xmax s) (xmin s)
              (trace s) (caches s)).

(** [self.epoch += 1] *)
Definition incr_epoch `{Services} : M unit :=
  fun s => (Ok tt,
            mkPINNs _ (model s) (trainable_variables s) (optimizer s) (epochs s)
              (hist s) (epoch s + 1) (sopt s) (nu s) (ymax s) (xmax s) (xmin s)
              (trace s) (caches s)).

(** [self.hist.append(h)] *)
Definition hist_append `{Services} (h : vec3 Qc) : M unit :=
  fun s => (Ok tt,
            mkPINNs _ (model s) (trainable_variables s) (optimizer s) (epochs s)
              (hist s ++ [h]) (epoch s) (sopt s) (nu s) (ymax s) (xmax s) (xmin s)
              (trace s) (caches s)).

(** A graph is added to the cache of its method. *)
Definition set_caches `{Services} (c : function_caches) : M unit :=
  fun s => (Ok tt,
            mkPINNs _ (model s) (trainable_variables s) (optimizer s) (epochs s)
              (hist s) (epoch s) (sopt s) (nu s) (ymax s) (xmax s) (xmin s)
              (trace s) c).

Definition store_scalex `{Services} (n : nat) (g : range) : M unit :=
  c <- read caches ;;
  set_caches (mk_function_caches ((n, g) :: scalex_cache c) (scalex_r_cache c)
                (scale_cache c) (scale_r_cache c) (net_f_cache c) (train_step_cache c)).

Definition store_scalex_r `{Services} (n : nat) (g : range) : M unit :=
  c <- read caches ;;
  set_caches (mk_function_caches (scalex_cache c) ((n, g) :: scalex_r_cache c)
                (scale_cache c) (scale_r_cache c) (net_f_cache c) (train_step_cache c)).

Definition store_scale `{Services} (n : nat) (g : vec3 Qc) : M unit :=
  c <- read caches ;;
  set_caches (mk_function_caches (scalex_cache c) (scalex_r_cache c)
                ((n, g) :: scale_cache c) (scale_r_cache c) (net_f_cache c)
                (train_step_cache c)).

Definition store_scale_r `{Services} (n : nat) (g : vec3 Qc) : M unit :=
  c <- read caches ;;
  set_caches (mk_function_caches (scalex_cache c) (scalex_r_cache c)
                (scale_cache c) ((n, g) :: scale_r_cache c) (net_f_cache c)
                (train_step_cache c)).

Definition store_net_f `{Services} (n : nat) (g : net_f_captures) : M unit :=
  c <- read caches ;;
  set_caches (mk_function_caches (scalex_cache c) (scalex_r_cache c)
                (scale_cache c) (scale_r_cache c) ((n, g) :: net_f_cache c)
                (train_step_cache c)).

Definition store_train_step `{Services} (k : nat * nat) (g : train_step_captures) : M unit :=
  c <- read caches ;;
  set_caches (mk_function_caches (scalex_cache c) (scalex_r_cache c)
                (scale_cache c) (scale_r_cache c) (net_f_cache c)
                ((k, g) :: train_step_cache c)).

(** A call of a method decorated by [tf.function], as far as its graph
    goes: the graph traced for the shape of the arguments is the one in
    the cache; when there is none the method is traced, which reads the
    attributes, and the graph is kept.  A trace that raises keeps
    nothing. *)
Definition tf_function `{Services} {K G : Type} (eqb : K -> K -> bool)
    (cache : function_caches -> list (K * G)) (store : K -> G -> M unit)
    (shape : K) (trace : M G) : M G :=
  c <- read caches ;;
  match lookup eqb shape (cache c) with
  | Some g => ret g
  | None => g <- trace ;; store shape g ;;; ret g
  end.

(** [PINNs.__init__]: [variables] are the values of the parameters of
    [model] when the object is built.  No method has been traced. *)
Definition init `{Services} (model : vec3 net) (variables : list Qc)
    (optimizer : OptState) (epochs : nat) : PINNs :=
  mkPINNs _ model variables optimizer epochs [] 0%nat (lbfgs_op variables)
    (1 / of_nat 450) None None None [] no_graphs.

(** ** Scaling utilities *)

Definition fit_scale `{Services} (y : list (vec3 Qc)) : M (list (vec3 Qc)) :=
  let ymax := reduce_max3 (abs3 y) in
  set_ymax ymax ;;;
  ret (map (fun r => row3 div r ymax) y).

(** [scale], decorated: the graph for [n] rows, and what it computes. *)
Definition scale_concrete `{Services} (n : nat) : M (vec3 Qc) :=
  tf_function Nat.eqb scale_cache store_scale n
    (ymax <- getattr "ymax" ymax ;;
     ret ymax).

Definition scale_ops {T : Type} `{Elt T} (ymax : vec3 Qc) (y : list (vec3 T)) : list (vec3 T) :=
  map (fun r => row3 div r ymax) y.

Definition scale `{Services} {T : Type} `{Elt T} (y : list (vec3 T)) : M (list (vec3 T)) :=
  g <- scale_concrete (List.length y) ;;
  ret (scale_ops g y).

(** [scale_r], decorated. *)
Definition scale_r_concrete `{Services} (n : nat) : M (vec3 Qc) :=
  tf_function Nat.eqb scale_r_cache store_scale_r n
    (ymax <- getattr "ymax" ymax ;;
     ret ymax).

Definition scale_r_ops {T : Type} `{Elt T} (ymax : vec3 Qc) (ys : list (vec3 T)) : list (vec3 T) :=
  map (fun r => row3 mul r ymax) ys.

Definition scale_r `{Services} {T : Type} `{Elt T} (ys : list (vec3 T)) : M (list (vec3 T)) :=
  g <- scale_r_concrete (List.length ys) ;;
  ret (scale_r_ops g ys).

Definition fit_scalex `{Services} (x : list (vec2 Qc)) : M (list (vec2 Qc)) :=
  let xmax := reduce_max2 (abs2 x) in
  let xmin := reduce_min2 x in
  set_xmax xmax ;;;
  set_xmin xmin ;;;
  ret (map (minmax_row xmin xmax) x).

(** [scalex], decorated: the trace reads [xmin], then [xmax]. *)
Definition scalex_concrete `{Services} (n : nat) : M range :=
  tf_function Nat.eqb scalex_cache store_scalex n
    (xmin <- getattr "xmin" xmin ;;
     xmax <- getattr "xmax" xmax ;;
     ret (xmin, xmax)).

Definition scalex_ops {T : Type} `{Elt T} (g : range) (x : list (vec2 T)) : list (vec2 T) :=
  map (minmax_row (fst g) (snd g)) x.

Definition scalex `{Services} {T : Type} `{Elt T} (x : list (vec2 T)) : M (list (vec2 T)) :=
  g <- scalex_concrete (List.length x) ;;
  ret (scalex_ops g x).

(** [scalex_r], decorated: the trace reads [xmax], then [xmin]. *)
Definition scalex_r_concrete `{Services} (n : nat) : M range :=
  tf_function Nat.eqb scalex_r_cache store_scalex_r n
    (xmax <- getattr "xmax" xmax ;;
     xmin <- getattr "xmin" xmin ;;
     ret (xmin, xmax)).

Definition scalex_r_ops {T : Type} `{Elt T} (g : range) (xs : list (vec2 T)) : list (vec2 T) :=
  map (unminmax_row (fst g) (snd g)) xs.


(** ** Residual function *)

Definition col0 {T : Type} (p : list (vec3 T)) : list T := map (fun r => fst (fst r)) p.
Definition col1 {T : Type} (p : list (vec3 T)) : list T := map (fun r => snd (fst r)) p.
Definition col2 {T : Type} (p : list (vec3 T)) : list T := map snd p.

(** [tf.stack([a, b, c], axis=-1)] *)
Definition stack3 {T : Type} (a b c : list T) : list (vec3 T) :=
  combine (combine a b) c.

(** [net_f], decorated.  The trace meets, in this order, [scalex_r],
    [scalex], [self.model], [scale_r] and [self.nu]; the three scaling
    methods are decorated themselves, so that what the trace gets from
    each is its graph for the shape of [cp]. *)
Definition net_f_concrete `{Services} (n : nat) : M net_f_captures :=
  tf_function Nat.eqb net_f_cache store_net_f n
    (gr <- scalex_r_concrete n ;;
     gx <- scalex_concrete n ;;
     m <- read model ;;
     gy <- scale_r_concrete n ;;
     nu <- read nu ;;
     ret (mk_net_f_captures gr gx m gy nu)).

(** What a graph of [net_f] computes. *)
Definition net_f_ops (g : net_f_captures) (cp : list (vec2 Qc)) : list (vec3 expr) :=
  let cp := scalex_r_ops (g_scalex_r g) cp in
  let x := map fst cp in
  let y := map snd cp in
  let n := List.length cp in
  let wx := watch LX x in
  let wy := watch LY y in
  let X := combine wx wy in
  let X := scalex_ops (g_scalex g) X in
  let pred := call_model (g_model g) X in
  let pred := scale_r_ops (g_scale_r g) pred in
  let U := col0 pred in
  let V := col1 pred in
  let uv := col2 pred in
  let U_x := gradient U (sources LX n) in
  let U_y := gradient U (sources LY n) in
  let V_x := gradient V (sources LX n) in
  let V_y := gradient V (sources LY n) in
  let U_xx := gradient U_x (sources LX n) in
  let U_yy := gradient U_y (sources LY n) in
  let V_xx := gradient V_x (sources LX n) in
  let V_yy := gradient V_y (sources LY n) in
  let uv_x := gradient uv (sources LX n) in
  let uv_y := gradient uv (sources LY n) in
  let nu := g_nu g in
  let f1 := map2 Add
              (map2 Sub (map2 Add (map2 Mul U U_x) (map2 Mul V U_y))
                        (map (Mul (Const nu)) (map2 Add U_xx U_yy)))
              uv_y in
  let f2 := map2 Add
              (map2 Sub (map2 Add (map2 Mul U V_x) (map2 Mul V V_y))
                        (map (Mul (Const nu)) (map2 Add V_xx V_yy)))
              uv_x in
  let f3 := map2 Add U_x V_y in
  stack3 f1 f2 f3.

Definition net_f `{Services} (cp : list (vec2 Qc)) : M (list (vec3 expr)) :=
  g <- net_f_concrete (List.length cp) ;;
  ret (net_f_ops g cp).

(** ** Training step *)

Definition flatten3 {T : Type} (t : list (vec3 T)) : list T :=
  flat_map (fun r => [fst (fst r); snd (fst r); snd r]) t.

(** [tf.reduce_mean] of the entries [l] of a tensor. *)
Definition reduce_mean (l : list expr) : expr :=
  Div (sum_expr l) (Const (of_nat (List.length l))).

Definition square (e : expr) : expr := Mul e e.

(** [train_step], decorated.  The trace meets [self.model] and [net_f];
    [self.trainable_variables] are variables, read when the graph runs. *)
Definition train_step_concrete `{Services} (b n : nat) : M train_step_captures :=
  tf_function shape_eqb train_step_cache store_train_step (b, n)
    (m <- read model ;;
     gf <- net_f_concrete n ;;
     ret (mk_train_step_captures m gf)).

(** What a graph of [train_step] does when it runs; [tf.print] is one of
    its operations. *)
Definition train_step_ops `{Services} (g : train_step_captures)
    (bc : list (vec2 Qc * vec3 Qc)) (cp : list (vec2 Qc))
    : M (Qc * list Qc * vec3 Qc) :=
  let X := map fst bc in
  let y := map snd bc in
  let u_p_bc := call_model (g_boundary_model g) (map const2 X) in
  let f := net_f_ops (g_net_f g) cp in
  let loss_bc :=
    reduce_mean (map square (map2 Sub (map Const (flatten3 y)) (flatten3 u_p_bc))) in
  let loss_f := reduce_mean (map square (flatten3 f)) in
  let loss_u := loss_bc in
  let loss := Add loss_u loss_f in
  theta <- read trainable_variables ;;
  let grads := gradient [loss] (map DPar (seq 0 (List.length theta))) in
  let l1 := eval theta (reduce_mean [loss]) in
  let l2 := eval theta (reduce_mean [loss_u]) in
  let l3 := eval theta (reduce_mean [loss_f]) in
  emit (PrintLoss (l1, l2, l3)) ;;;
  ret (eval theta loss, map (eval theta) grads, (l1, l2, l3)).

Definition train_step `{Services} (bc : list (vec2 Qc * vec3 Qc)) (cp : list (vec2 Qc))
    : M (Qc * list Qc * vec3 Qc) :=
  g <- train_step_concrete (List.length bc) (List.length cp) ;;
  train_step_ops g bc cp.

(** ** Fit method *)

(** [tf.dynamic_stitch(self.sopt.idx, grads)]: the gradients as one flat
    vector; they are flat in this model already. *)
Definition dynamic_stitch (grads : list Qc) : list Qc := grads.

(** The closure [func] that [fit] hands to the quasi-Newton optimiser. *)
Definition func `{Services} (bc : list (vec2 Qc * vec3 Qc)) (cp : list (vec2 Qc))
    (params_1d : list Qc) : M (Qc * list Qc) :=
  emit (AssignParams params_1d) ;;;
  set_variables params_1d ;;;
  e <- read epoch ;;
  emit (PrintEpoch e) ;;;
  r <- train_step bc cp ;;
  let grads := dynamic_stitch (snd (fst r)) in
  incr_epoch ;;;
  hist_append (snd r) ;;;
  ret (fst (fst r), grads).

(** One pass of the loop over [range(self.epochs)]. *)
Definition epoch_body `{Services} (bc : list (vec2 Qc * vec3 Qc)) (cp : list (vec2 Qc))
    : M unit :=
  e <- read epoch ;;
  emit (PrintEpoch e) ;;;
  r <- train_step bc cp ;;
  theta <- read trainable_variables ;;
  o <- read optimizer ;;
  emit (ApplyGradients (snd (fst r))) ;;;
  let upd := apply_gradients o (combine (snd (fst r)) theta) in
  set_optimizer (fst upd) ;;;
  set_variables (snd upd) ;;;
  incr_epoch ;;;
  hist_append (snd r).

Fixpoint for_range `{Services} (n : nat) (body : M unit) : M unit :=
  match n with
  | O => ret tt
  | S n' => body ;;; for_range n' body
  end.

(** The optimiser at work on a closure: every invocation is recorded
    before the closure runs. *)
Fixpoint run_lbfgs `{Services} (r : lbfgs_run SoptState)
    (closure : list Qc -> M (Qc * list Qc)) : M SoptState :=
  match r with
  | LDone s => ret s
  | LInvoke p k =>
      emit (InvokeClosure p) ;;;
      lg <- closure p ;;
      run_lbfgs (k (fst lg) (snd lg)) closure
  end.

(** [self.sopt.minimize(func)] *)
Definition sopt_minimize `{Services} (closure : list Qc -> M (Qc * list Qc)) : M unit :=
  emit MinimizeCall ;;;
  o <- read sopt ;;
  theta <- read trainable_variables ;;
  o' <- run_lbfgs (minimize o theta) closure ;;
  set_sopt o' ;;;
  emit MinimizeReturn.

Definition fit `{Services} (bc : list (vec2 Qc * vec3 Qc)) (cp : list (vec2 Qc))
    : M (list (vec3 Qc)) :=
  let x_bc := map fst bc in
  let y_bc := map snd bc in
  y_bc <- fit_scale y_bc ;;
  x_bc <- fit_scalex x_bc ;;
  cp <- scalex cp ;;
  let bc := combine x_bc y_bc in
  n <- read epochs ;;
  for_range n (epoch_body bc cp) ;;;
  sopt_minimize (func bc cp) ;;;
  read hist.

(** ** Prediction *)

Definition predict `{Services} (cp : list (vec2 Qc)) : M (list (vec3 Qc)) :=
  cp <- scalex cp ;;
  m <- read model ;;
  theta <- read trainable_variables ;;
  let u_p := map (eval3 theta) (call_model m (map const2 cp)) in
  scale_r u_p.

(** ** The specification's wording

    The quantities of the specification, written point by point and
    value by value; the theorems below compare them with what the methods
    compute. *)

(** The prediction in physical units, as a recorded function of the
    physical coordinates [x] and [y]: scale the point, evaluate the
    approximator, scale the outputs back. *)
Definition prediction (lo hi : vec2 Qc) (ym : vec3 Qc) (m : vec3 net)
    (x y : expr) : vec3 expr :=
  let X := minmax_row lo hi (x, y) in
  row3 mul (apply_net (fst (fst m)) (fst X) (snd X),
            apply_net (snd (fst m)) (fst X) (snd X),
            apply_net (snd m) (fst X) (snd X)) ym.

(** The same for row [i] of a batch, on the watched entries of that row. *)
Definition row_prediction (lo hi : vec2 Qc) (ym : vec3 Qc) (m : vec3 net)
    (i : nat) (p : vec2 Qc) : vec3 expr :=
  prediction lo hi ym m (Inp (LX i) (fst p)) (Inp (LY i) (snd p)).

Definition d_dx (e : expr) : expr := D (DInp (LX 0)) e.
Definition d_dy (e : expr) : expr := D (DInp (LY 0)) e.

(** The three residuals at one physical point [p], with nu = 1/450. *)
Definition spec_residual `{Services} (lo hi : vec2 Qc) (ym : vec3 Qc) (m : vec3 net)
    (theta : list Qc) (p : vec2 Qc) : vec3 Qc :=
  let P := prediction lo hi ym m (Inp (LX 0) (fst p)) (Inp (LY 0) (snd p)) in
  let U := fst (fst P) in
  let V := snd (fst P) in
  let uv := snd P in
  let v := eval theta in
  let nu := 1 / of_nat 450 in
  (v U * v (d_dx U) + v V * v (d_dy U)
     - nu * (v (d_dx (d_dx U)) + v (d_dy (d_dy U))) + v (d_dy uv),
   v U * v (d_dx V) + v V * v (d_dy V)
     - nu * (v (d_dx (d_dx V)) + v (d_dy (d_dy V))) + v (d_dx uv),
   v (d_dx U) + v (d_dy V)).

Definition total (l : list Qc) : Qc := fold_right Qcplus 0 l.

Definition mean (l : list Qc) : Qc := total l / of_nat (List.length l).

Definition sq (q : Qc) : Qc := q * q.

Definition sub3 (a b : vec3 Qc) : vec3 Qc :=
  (fst (fst a) - fst (fst b), snd (fst a) - snd (fst b), snd a - snd b).

(** Mean of the squared elementwise differences between the targets of
    the boundary rows and what the approximator predicts at them. *)
Definition spec_boundary_loss `{Services} (m : vec3 net) (theta : list Qc)
    (bc : list (vec2 Qc * vec3 Qc)) : Qc :=
  let predictions := map (eval3 theta) (call_model m (map const2 (map fst bc))) in
  mean (map sq (flatten3 (map2 sub3 (map snd bc) predictions))).

(** Mean of the squared elementwise residuals. *)
Definition spec_pde_loss (residuals : list (vec3 Qc)) : Qc :=
  mean (map sq (flatten3 residuals)).

(** The triple that a training step reports, for the parameters [theta]
    and the residual terms [f] of the collocation points: total, boundary
    and PDE loss. *)
Definition spec_losses `{Services} (m : vec3 net) (theta : list Qc)
    (bc : list (vec2 Qc * vec3 Qc)) (f : list (vec3 expr)) : vec3 Qc :=
  let bl := spec_boundary_loss m theta bc in
  let pl := spec_pde_loss (map (eval3 theta) f) in
  (bl + pl, bl, pl).

(** The total loss that the tape of a training step holds, a term in the
    parameters: boundary term plus PDE term. *)
Definition taped_loss (m : vec3 net) (bc : list (vec2 Qc * vec3 Qc))
    (f : list (vec3 expr)) : expr :=
  Add (reduce_mean (map square
         (map2 Sub (map Const (flatten3 (map snd bc)))
                   (flatten3 (call_model m (map const2 (map fst bc)))))))
      (reduce_mean (map square (flatten3 f))).

(** *** Reading the trace *)

Definition is_minimize_call (e : event) : bool :=
  match e with MinimizeCall => true | _ => false end.

Definition is_invoke (e : event) : bool :=
  match e with InvokeClosure _ => true | _ => false end.

Definition is_apply (e : event) : bool :=
  match e with ApplyGradients _ => true | _ => false end.

(** The loss triples printed, in the order they were printed. *)
Fixpoint logged_losses (tr : list event) : list (vec3 Qc) :=
  match tr with
  | [] => []
  | PrintLoss l :: tr' => l :: logged_losses tr'
  | _ :: tr' => logged_losses tr'
  end.

(** How often the quasi-Newton optimiser invoked the closure, whatever
    the closure did. *)
Definition closure_calls (tr : list event) : nat := List.length (filter is_invoke tr).

(** How often the phase-one optimiser applied gradients. *)
Definition gradient_steps (tr : list event) : nat := List.length (filter is_apply tr).

Definition minimize_calls (tr : list event) : nat :=
  List.length (filter is_minimize_call tr).

(** The events before the first call of [minimize], and those after it. *)
Fixpoint before_minimize (tr : list event) : list event :=
  match tr with
  | [] => []
  | MinimizeCall :: _ => []
  | e :: tr' => e :: before_minimize tr'
  end.

Fixpoint after_minimize (tr : list event) : list event :=
  match tr with
  | [] => []
  | MinimizeCall :: tr' => tr'
  | _ :: tr' => after_minimize tr'
  end.

(** *** The graph in effect

    The graph that a call of a decorated method runs, for a shape: the
    one in the cache or, when there is none, the one a trace would make
    of the attributes as they are; [None] when that trace would raise. *)

Definition or_else {G : Type} (a b : option G) : option G :=
  match a with
  | Some g => Some g
  | None => b
  end.

Definition range_attrs `{Services} (s : PINNs) : option range :=
  match xmin s, xmax s with
  | Some lo, Some hi => Some (lo, hi)
  | _, _ => None
  end.

Definition scalex_graph `{Services} (s : PINNs) (n : nat) : option range :=
  or_else (lookup Nat.eqb n (scalex_cache (caches s))) (range_attrs s).

Definition scalex_r_graph `{Services} (s : PINNs) (n : nat) : option range :=
  or_else (lookup Nat.eqb n (scalex_r_cache (caches s))) (range_attrs s).

Definition scale_graph `{Services} (s : PINNs) (n : nat) : option (vec3 Qc) :=
  or_else (lookup Nat.eqb n (scale_cache (caches s))) (ymax s).

Definition scale_r_graph `{Services} (s : PINNs) (n : nat) : option (vec3 Qc) :=
  or_else (lookup Nat.eqb n (scale_r_cache (caches s))) (ymax s).

Definition net_f_graph `{Services} (s : PINNs) (n : nat) : option net_f_captures :=
  or_else (lookup Nat.eqb n (net_f_cache (caches s)))
    match scalex_r_graph s n, scalex_graph s n, scale_r_graph s n with
    | Some gr, Some gx, Some gy => Some (mk_net_f_captures gr gx (model s) gy (nu s))
    | _, _, _ => None
    end.

Definition train_step_graph `{Services} (s : PINNs) (b n : nat)
    : option train_step_captures :=
  or_else (lookup shape_eqb (b, n) (train_step_cache (caches s)))
    match net_f_graph s n with
    | Some gf => Some (mk_train_step_captures (model s) gf)
    | None => None
    end.

(** *** Caches *)

(** Every graph of the cache [c] is in the cache [c'], under its shape. *)
Definition kept {K G : Type} (eqb : K -> K -> bool) (c c' : list (K * G)) : Prop :=
  forall k g, lookup eqb k c = Some g -> lookup eqb k c' = Some g.

Definition grown (c c' : function_caches) : Prop :=
  kept Nat.eqb (scalex_cache c) (scalex_cache c') /\
  kept Nat.eqb (scalex_r_cache c) (scalex_r_cache c') /\
  kept Nat.eqb (scale_cache c) (scale_cache c') /\
  kept Nat.eqb (scale_r_cache c) (scale_r_cache c') /\
  kept Nat.eqb (net_f_cache c) (net_f_cache c') /\
  kept shape_eqb (train_step_cache c) (train_step_cache c').

(** The graph of [net_f] that a graph of [train_step] holds is the one
    in the cache of [net_f]. *)
Definition nested (c : function_caches) : Prop :=
  forall b n g,
    lookup shape_eqb (b, n) (train_step_cache c) = Some g ->
    lookup Nat.eqb n (net_f_cache c) = Some (g_net_f g).

(** *** Relations between two states of the object *)

(** The same graphs are in effect, for every method and every shape;
    every graph that was in a cache still is, and the graphs of
    [train_step] and of [net_f] are nested if they were. *)
Definition same_graphs `{Services} (s s' : PINNs) : Prop :=
  (forall n, scalex_graph s' n = scalex_graph s n) /\
  (forall n, scalex_r_graph s' n = scalex_r_graph s n) /\
  (forall n, scale_graph s' n = scale_graph s n) /\
  (forall n, scale_r_graph s' n = scale_r_graph s n) /\
  (forall n, net_f_graph s' n = net_f_graph s n) /\
  (forall b n, train_step_graph s' b n = train_step_graph s b n) /\
  grown (caches s) (caches s') /\
  (nested (caches s) -> nested (caches s')).

(** Nothing but the parameters, the optimisers' states, the history, the
    epoch counter, the trace and the caches differs, and the same graphs
    are in effect. *)
Definition same_setup `{Services} (s s' : PINNs) : Prop :=
  model s' = model s /\ epochs s' = epochs s /\ nu s' = nu s /\
  xmin s' = xmin s /\ xmax s' = xmax s /\ ymax s' = ymax s /\
  same_graphs s s'.

(** From [s] to [s'] the events [tr] happened, the triples [new] were
    appended to the history and counted by the epoch counter. *)
Definition advance `{Services} (s s' : PINNs) (tr : list event) (new : list (vec3 Qc)) : Prop :=
  same_setup s s' /\
  hist s' = hist s ++ new /\
  epoch s' = (epoch s + List.length new)%nat /\
  trace s' = trace s ++ tr.

(** Every attribute has the value it had. *)
Definition same_attributes `{Services} (s s' : PINNs) : Prop :=
  model s' = model s /\ trainable_variables s' = trainable_variables s /\
  optimizer s' = optimizer s /\ epochs s' = epochs s /\ hist s' = hist s /\
  epoch s' = epoch s /\ sopt s' = sopt s /\ nu s' = nu s /\
  ymax s' = ymax s /\ xmax s' = xmax s /\ xmin s' = xmin s /\
  trace s' = trace s.

(** Two states that no call can tell apart: at most, a graph that was
    in effect has been traced and is now in a cache. *)
Definition alike `{Services} (s s' : PINNs) : Prop :=
  same_attributes s s' /\ same_graphs s s'.

(** *** A training step that runs a given graph *)

(** The triple (total, boundary, PDE) and the gradient of the total loss
    that the graph [g] of [train_step] computes on the batches [bc] and
    [cp] when the parameters are [theta]. *)
Definition step_losses `{Services} (g : train_step_captures) (theta : list Qc)
    (bc : list (vec2 Qc * vec3 Qc)) (cp : list (vec2 Qc)) : vec3 Qc :=
  spec_losses (g_boundary_model g) theta bc (net_f_ops (g_net_f g) cp).

Definition step_gradient `{Services} (g : train_step_captures) (theta : list Qc)
    (bc : list (vec2 Qc * vec3 Qc)) (cp : list (vec2 Qc)) : list Qc :=
  map (fun d => eval theta
                  (D d (taped_loss (g_boundary_model g) bc (net_f_ops (g_net_f g) cp))))
      (map DPar (seq 0 (List.length theta))).

(** *** Reading a recorded term *)

Definition leaf_index (l : leaf) : nat :=
  match l with LX i => i | LY i => i end.

(** Whether the watched entry [l] occurs in a term. *)
Fixpoint mentions (l : leaf) (e : expr) : bool :=
  match e with
  | Const _ | Par _ => false
  | Inp l' _ => leaf_eqb l l'
  | Add a b | Sub a b | Mul a b | Div a b => mentions l a || mentions l b
  | Act _ a => mentions l a
  end.

(** A term that is zero by its shape, whatever its leaves are worth. *)
Fixpoint vanishes (e : expr) : bool :=
  match e with
  | Const q => Qc_eq_bool q 0
  | Add a b | Sub a b => vanishes a && vanishes b
  | Mul a b => vanishes a || vanishes b
  | Div a _ => vanishes a
  | _ => false
  end.

(** A term whose watched entries all belong to row [i]. *)
Definition local_to (i : nat) (e : expr) : Prop :=
  forall l, leaf_index l <> i -> mentions l e = false.

Fixpoint rename (f : leaf -> leaf) (e : expr) : expr :=
  match e with
  | Const q => Const q
  | Par k => Par k
  | Inp l v => Inp (f l) v
  | Add a b => Add (rename f a) (rename f b)
  | Sub a b => Sub (rename f a) (rename f b)
  | Mul a b => Mul (rename f a) (rename f b)
  | Div a b => Div (rename f a) (rename f b)
  | Act n a => Act n (rename f a)
  end.

(** Row 0 renamed to row [i]. *)
Definition to_row (i : nat) (l : leaf) : leaf :=
  match l with LX j => LX (j + i) | LY j => LY (j + i) end.

(** ** A concrete instance

    Services and data on which the definitions run: the activation is
    the square, phase one is gradient descent of rate 1/10, and the
    quasi-Newton optimiser invokes its closure twice, the second time one
    step of rate 1/2 further. *)

Definition qz (z : Z) : Qc := Q2Qc (inject_Z z).

Definition sample_act (n : nat) (t : Qc) : Qc :=
  match n with
  | 0%nat => t * t
  | 1%nat => qz 2 * t
  | 2%nat => qz 2
  | _ => 0
  end.

(** Parameters are kept whole numbers: a step is rounded down. *)
Definition whole (q : Qc) : Qc := Q2Qc (inject_Z (Qfloor q)).

Definition sample_apply_gradients (o : unit) (gv : list (Qc * Qc)) : unit * list Qc :=
  (o, map (fun p => whole (snd p - fst p / qz 10)) gv).

Definition sample_minimize (o : unit) (theta : list Qc) : lbfgs_run unit :=
  LInvoke theta (fun _ g =>
    LInvoke (map2 (fun t d => whole (t - d / qz 2)) theta g) (fun _ _ => LDone o)).

Definition sample_services : Services := {|
  act := sample_act;
  OptState := unit;
  apply_gradients := sample_apply_gradients;
  SoptState := unit;
  lbfgs_op := fun _ => tt;
  minimize := sample_minimize
|}.

(** U = p0 * x + y * y, V = act (p1 * x) - y, uv = p2 * x * y. *)
Definition sample_model : vec3 net :=
  (NAdd (NMul (NPar 0) NIn0) (NMul NIn1 NIn1),
   NSub (NAct (NMul (NPar 1) NIn0)) NIn1,
   NMul (NMul (NPar 2) NIn0) NIn1).

Definition sample_theta : list Qc := [qz 1; qz 2; qz 3].

Definition sample_bc : list (vec2 Qc * vec3 Qc) :=
  [((qz 0, qz 1), (qz 2, qz 0, qz 1));
   ((qz 2, qz 3), (qz (-4), qz 1, qz 2));
   ((qz 1, qz 5), (qz 1, qz (-2), qz 0))].

Definition sample_cp : list (vec2 Qc) :=
  [(qz 1, qz 2); (qz 2, qz 4)].

(** Boundary coordinates with a negative entry. *)
Definition signed_x : list (vec2 Qc) :=
  [(qz (-3), qz 0); (qz 1, qz 2)].

Definition sample_init (n : nat) : @PINNs sample_services :=
  @init sample_services sample_model sample_theta tt n.

(** The object of the instance after [fit_scale] and [fit_scalex] on the
    boundary rows. *)
Definition sample_fitted : @PINNs sample_services :=
  snd (@fit_scalex sample_services (map fst sample_bc)
         (snd (@fit_scale sample_services (map snd sample_bc) (sample_init 0)))).

Definition sample_lo : vec2 Qc := (qz 0, qz 1).
Definition sample_hi : vec2 Qc := (qz 2, qz 5).
Definition sample_ym : vec3 Qc := (qz 4, qz 2, qz 2).

(** Boundary coordinates that are one single point. *)
Definition single_x : list (vec2 Qc) := [(qz 2, qz 3)].


(** Boundary coordinates of a second data set, with a wider range. *)
Definition wide_x : list (vec2 Qc) :=
  [(qz 0, qz 0); (qz 4, qz 10)].

(** The fitted object of the instance after one call of [scalex] on a
    single point, which traces [scalex] for that shape. *)
Definition sample_traced : @PINNs sample_services :=
  snd (@scalex sample_services Qc _ [(qz 1, qz 2)] sample_fitted).

(** The same object after [fit_scalex] on the second data set. *)
Definition sample_refitted : @PINNs sample_services :=
  snd (@fit_scalex sample_services wide_x sample_traced).



(** What a trace of [net_f], and of [train_step], makes of the fitted
    object of the instance. *)
Definition sample_net_f_graph : net_f_captures :=
  mk_net_f_captures (sample_lo, sample_hi) (sample_lo, sample_hi) sample_model
    sample_ym (1 / of_nat 450).

Definition sample_train_step_graph : train_step_captures :=
  mk_train_step_captures sample_model sample_net_f_graph.

(** ** Further vocabulary *)

Definition fitted `{Services} (s : PINNs) : Prop :=
  exists lo hi ym, xmin s = Some lo /\ xmax s = Some hi /\ ymax s = Some ym.

(** A value between 0 and 1, and a value of magnitude at most 1. *)
Definition in_unit (q : Qc) : Prop := 0 <= q /\ q <= 1.

Definition within_one (q : Qc) : Prop := Qcabs q <= 1.

(** The epoch numbers printed, in the order they were printed. *)
Fixpoint printed_epochs (tr : list event) : list nat :=
  match tr with
  | [] => []
  | PrintEpoch n :: tr' => n :: printed_epochs tr'
  | _ :: tr' => printed_epochs tr'
  end.

(** From [a] to [b] triples were appended, each counted by the epoch
    counter and each printed under the number the counter had. *)
Definition numbered `{Services} (a b : PINNs) : Prop :=
  exists tr new,
    trace b = trace a ++ tr /\ hist b = hist a ++ new /\
    epoch b = (epoch a + List.length new)%nat /\
    printed_epochs tr = seq (epoch a) (List.length new).

(** The three residuals at one physical point [p] for a viscosity [nu0]:
    [spec_residual] is the case nu0 = 1/450. *)
Definition residual_with `{Services} (nu0 : Qc) (lo hi : vec2 Qc) (ym : vec3 Qc)
    (m : vec3 net) (theta : list Qc) (p : vec2 Qc) : vec3 Qc :=
  let P := prediction lo hi ym m (Inp (LX 0) (fst p)) (Inp (LY 0) (snd p)) in
  let U := fst (fst P) in
  let V := snd (fst P) in
  let uv := snd P in
  let v := eval theta in
  (v U * v (d_dx U) + v V * v (d_dy U)
     - nu0 * (v (d_dx (d_dx U)) + v (d_dy (d_dy U))) + v (d_dy uv),
   v U * v (d_dx V) + v V * v (d_dy V)
     - nu0 * (v (d_dx (d_dx V)) + v (d_dy (d_dy V))) + v (d_dx uv),
   v (d_dx U) + v (d_dy V)).

(** A parallel shear flow: U = a + k * (second input), V = 0, uv = c. *)
Definition shear_flow (a k c : Qc) : vec3 net :=
  (NAdd (NConst a) (NMul (NConst k) NIn1), NConst 0, NConst c).

(** An object whose approximator is a shear flow, after [fit_scale] and
    [fit_scalex] on the boundary rows of the instance. *)
Definition shear_fitted : @PINNs sample_services :=
  snd (@fit_scalex sample_services (map fst sample_bc)
         (snd (@fit_scale sample_services (map snd sample_bc)
                 (@init sample_services (shear_flow (qz 1) (qz 2) (qz 3)) [] tt 0)))).

(** Services whose quasi-Newton optimiser stops without invoking the
    closure. *)
Definition idle_services : Services := {|
  act := sample_act;
  OptState := unit;
  apply_gradients := sample_apply_gradients;
  SoptState := unit;
  lbfgs_op := fun _ => tt;
  minimize := fun o _ => LDone o
|}.

(** The object of the instance after [fit_scalex] alone. *)
Definition sample_half_fitted : @PINNs sample_services :=
  snd (@fit_scalex sample_services (map fst sample_bc) (sample_init 0)).

(** The viscosity is [c], on the object and in every graph in effect. *)
Definition nu_held `{Services} (c : Qc) (s : PINNs) : Prop :=
  nu s = c /\
  (forall n g, net_f_graph s n = Some g -> g_nu g = c) /\
  (forall b n g, train_step_graph s b n = Some g -> g_nu (g_net_f g) = c).

(** * Verification *)

(** Closed equalities between rationals, and between pairs, options and
    lists of them, by evaluation. *)
Ltac qc_close :=
  vm_compute;
  repeat match goal with
         | |- @eq Qc _ _ => apply Qc_is_canon; vm_compute; reflexivity
         | |- Some _ = Some _ => apply f_equal
         | |- Ok _ = Ok _ => apply f_equal
         | |- (_, _) = (_, _) => apply f_equal2
         | |- _ :: _ = _ :: _ => apply f_equal2
         | |- mk_net_f_captures _ _ _ _ _ = _ => apply f_equal5
         | |- mk_train_step_captures _ _ = _ => apply f_equal2
         | |- _ => reflexivity
         end.

Ltac qc_ne := let E := fresh "E" in intro E; vm_compute in E; discriminate E.

(** ** Graphs in effect *)

Lemma shape_eqb_eq (a b : nat * nat) : shape_eqb a b = true <-> a = b.
Proof.
  destruct a as [a1 a2], b as [b1 b2]. unfold shape_eqb. cbn [fst snd].
  rewrite andb_true_iff, !Nat.eqb_eq. split.
  - intros [-> ->]. reflexivity.
  - intros E. inversion E. auto.
Qed.

(** Putting into a cache the graph that is in effect leaves in effect
    what was. *)
Lemma or_else_lookup_cons {K G : Type} (eqb : K -> K -> bool) (k k' : K) (g : G)
    (c : list (K * G)) (fresh : option G) :
  (forall a b, eqb a b = true <-> a = b) ->
  (k = k' -> or_else (lookup eqb k' c) fresh = Some g) ->
  or_else (lookup eqb k' ((k, g) :: c)) fresh = or_else (lookup eqb k' c) fresh.
Proof.
  intros Heq Hg. cbn [lookup]. destruct (eqb k k') eqn:E; [|reflexivity].
  apply Heq in E. now rewrite Hg.
Qed.

Section Graphs.
Context `{Services}.

Lemma bind_ok {A B : Type} (c : M A) (k : A -> M B) (s s' : PINNs) (a : A) :
  c s = (Ok a, s') -> bind c k s = k a s'.
Proof.
  intros E. unfold bind. now rewrite E.
Qed.

Lemma bind_raise {A B : Type} (c : M A) (k : A -> M B) (s s' : PINNs) (e : error) :
  c s = (Raise e, s') -> bind c k s = (Raise e, s').
Proof.
  intros E. unfold bind. now rewrite E.
Qed.

Lemma read_run {A B : Type} (field : PINNs -> A) (k : A -> M B) (s : PINNs) :
  bind (read field) k s = k (field s) s.
Proof. reflexivity. Qed.

Lemma grown_refl (c : function_caches) : grown c c.
Proof. unfold grown, kept. auto 10. Qed.

Lemma grown_trans (c1 c2 c3 : function_caches) :
  grown c1 c2 -> grown c2 c3 -> grown c1 c3.
Proof.
  unfold grown, kept.
  intros (A1 & A2 & A3 & A4 & A5 & A6) (B1 & B2 & B3 & B4 & B5 & B6).
  repeat split; auto.
Qed.

Lemma same_graphs_refl (s : PINNs) : same_graphs s s.
Proof. unfold same_graphs. auto 10 using grown_refl. Qed.

Lemma same_graphs_trans (s1 s2 s3 : PINNs) :
  same_graphs s1 s2 -> same_graphs s2 s3 -> same_graphs s1 s3.
Proof.
  intros (A1 & A2 & A3 & A4 & A5 & A6 & A7 & A8) (B1 & B2 & B3 & B4 & B5 & B6 & B7 & B8).
  unfold same_graphs.
  repeat (split; [intros; congruence|]).
  split; [eapply grown_trans; eassumption | auto].
Qed.

(** Putting into a cache the graph that is in effect keeps the graphs
    that were there. *)
Lemma kept_cons {K G : Type} (eqb : K -> K -> bool) (k : K) (g : G)
    (c : list (K * G)) (fresh : option G) :
  (forall a b, eqb a b = true <-> a = b) ->
  or_else (lookup eqb k c) fresh = Some g ->
  kept eqb c ((k, g) :: c).
Proof.
  intros Heq Hg k' g' L. cbn [lookup]. destruct (eqb k k') eqn:E; [|exact L].
  apply Heq in E. subst k'. rewrite L in Hg. symmetry. exact Hg.
Qed.

Lemma kept_refl {K G : Type} (eqb : K -> K -> bool) (c : list (K * G)) : kept eqb c c.
Proof. intros k g L. exact L. Qed.

(** The nesting outlives a cache of [net_f] that keeps its graphs. *)
Lemma nested_kept (c c' : function_caches) :
  train_step_cache c' = train_step_cache c ->
  kept Nat.eqb (net_f_cache c) (net_f_cache c') ->
  nested c -> nested c'.
Proof.
  intros C K N b n g L. rewrite C in L. apply K. exact (N b n g L).
Qed.

Lemma same_attributes_refl (s : PINNs) : same_attributes s s.
Proof. unfold same_attributes. auto 20. Qed.

Lemma same_attributes_trans (s1 s2 s3 : PINNs) :
  same_attributes s1 s2 -> same_attributes s2 s3 -> same_attributes s1 s3.
Proof.
  unfold same_attributes. intros A B.
  destruct A as (? & ? & ? & ? & ? & ? & ? & ? & ? & ? & ? & ?).
  destruct B as (? & ? & ? & ? & ? & ? & ? & ? & ? & ? & ? & ?).
  repeat split; congruence.
Qed.

Lemma alike_refl (s : PINNs) : alike s s.
Proof. split; [apply same_attributes_refl | apply same_graphs_refl]. Qed.

Lemma alike_trans (s1 s2 s3 : PINNs) : alike s1 s2 -> alike s2 s3 -> alike s1 s3.
Proof.
  intros [A1 G1] [A2 G2]. split.
  - eapply same_attributes_trans; eassumption.
  - eapply same_graphs_trans; eassumption.
Qed.

Lemma same_setup_refl (s : PINNs) : same_setup s s.
Proof. unfold same_setup. auto 10 using same_graphs_refl. Qed.

Lemma alike_same_setup (s s' : PINNs) : alike s s' -> same_setup s s'.
Proof.
  intros [(? & ? & ? & ? & ? & ? & ? & ? & ? & ? & ? & ?) G].
  unfold same_setup. auto 10.
Qed.

Lemma alike_advance (s s' : PINNs) : alike s s' -> advance s s' [] [].
Proof.
  intros A. pose proof (alike_same_setup s s' A) as S.
  destruct A as [(? & ? & ? & ? & ? & ? & ? & ? & ? & ? & ? & ?) G].
  unfold advance. rewrite !app_nil_r. cbn [List.length]. rewrite Nat.add_0_r. auto.
Qed.

(** The graphs of [net_f] and of [train_step] in effect are made of the
    graphs of the methods they call. *)
Lemma net_f_graph_ext (s s' : PINNs) :
  net_f_cache (caches s') = net_f_cache (caches s) ->
  model s' = model s -> nu s' = nu s ->
  (forall n, scalex_r_graph s' n = scalex_r_graph s n) ->
  (forall n, scalex_graph s' n = scalex_graph s n) ->
  (forall n, scale_r_graph s' n = scale_r_graph s n) ->
  forall n, net_f_graph s' n = net_f_graph s n.
Proof.
  intros C Mo Nu G1 G2 G3 n. unfold net_f_graph. now rewrite C, Mo, Nu, G1, G2, G3.
Qed.

Lemma train_step_graph_ext (s s' : PINNs) :
  train_step_cache (caches s') = train_step_cache (caches s) ->
  model s' = model s ->
  (forall n, net_f_graph s' n = net_f_graph s n) ->
  forall b n, train_step_graph s' b n = train_step_graph s b n.
Proof.
  intros C Mo G b n. unfold train_step_graph. now rewrite C, Mo, G.
Qed.

(** A state that differs in the caches of the scaling methods only, the
    graphs of which are in effect as before. *)
Lemma same_graphs_scaling (s s' : PINNs) :
  net_f_cache (caches s') = net_f_cache (caches s) ->
  train_step_cache (caches s') = train_step_cache (caches s) ->
  model s' = model s -> nu s' = nu s ->
  (forall n, scalex_graph s' n = scalex_graph s n) ->
  (forall n, scalex_r_graph s' n = scalex_r_graph s n) ->
  (forall n, scale_graph s' n = scale_graph s n) ->
  (forall n, scale_r_graph s' n = scale_r_graph s n) ->
  grown (caches s) (caches s') ->
  same_graphs s s'.
Proof.
  intros C1 C2 Mo Nu G1 G2 G3 G4 Gr.
  assert (G5 : forall n, net_f_graph s' n = net_f_graph s n)
    by (apply net_f_graph_ext; assumption).
  unfold same_graphs. repeat (split; [assumption|]).
  split; [now apply train_step_graph_ext|]. split; [exact Gr|].
  apply nested_kept; [exact C2 | rewrite C1; apply kept_refl].
Qed.

(** Every setter but those of the normaliser leaves the graphs in effect
    alone; so does the tracing of a graph that was in effect. *)
Lemma store_scalex_alike (s : PINNs) (n : nat) (g : range) :
  scalex_graph s n = Some g -> alike s (snd (store_scalex n g s)).
Proof.
  intros Hg. split; [repeat split|].
  apply same_graphs_scaling; try reflexivity.
  - intros n'. unfold scalex_graph.
    cbn [store_scalex bind read set_caches snd caches scalex_cache].
    apply or_else_lookup_cons; [apply Nat.eqb_eq | intros <-; exact Hg].
  - unfold grown. cbn [store_scalex bind read set_caches snd caches scalex_cache
      scalex_r_cache scale_cache scale_r_cache net_f_cache train_step_cache].
    repeat split; try apply kept_refl.
    eapply kept_cons; [apply Nat.eqb_eq | exact Hg].
Qed.

Lemma store_scalex_r_alike (s : PINNs) (n : nat) (g : range) :
  scalex_r_graph s n = Some g -> alike s (snd (store_scalex_r n g s)).
Proof.
  intros Hg. split; [repeat split|].
  apply same_graphs_scaling; try reflexivity.
  - intros n'. unfold scalex_r_graph.
    cbn [store_scalex_r bind read set_caches snd caches scalex_r_cache].
    apply or_else_lookup_cons; [apply Nat.eqb_eq | intros <-; exact Hg].
  - unfold grown. cbn [store_scalex_r bind read set_caches snd caches scalex_cache
      scalex_r_cache scale_cache scale_r_cache net_f_cache train_step_cache].
    repeat split; try apply kept_refl.
    eapply kept_cons; [apply Nat.eqb_eq | exact Hg].
Qed.

Lemma store_scale_alike (s : PINNs) (n : nat) (g : vec3 Qc) :
  scale_graph s n = Some g -> alike s (snd (store_scale n g s)).
Proof.
  intros Hg. split; [repeat split|].
  apply same_graphs_scaling; try reflexivity.
  - intros n'. unfold scale_graph.
    cbn [store_scale bind read set_caches snd caches scale_cache].
    apply or_else_lookup_cons; [apply Nat.eqb_eq | intros <-; exact Hg].
  - unfold grown. cbn [store_scale bind read set_caches snd caches scalex_cache
      scalex_r_cache scale_cache scale_r_cache net_f_cache train_step_cache].
    repeat split; try apply kept_refl.
    eapply kept_cons; [apply Nat.eqb_eq | exact Hg].
Qed.

Lemma store_scale_r_alike (s : PINNs) (n : nat) (g : vec3 Qc) :
  scale_r_graph s n = Some g -> alike s (snd (store_scale_r n g s)).
Proof.
  intros Hg. split; [repeat split|].
  apply same_graphs_scaling; try reflexivity.
  - intros n'. unfold scale_r_graph.
    cbn [store_scale_r bind read set_caches snd caches scale_r_cache].
    apply or_else_lookup_cons; [apply Nat.eqb_eq | intros <-; exact Hg].
  - unfold grown. cbn [store_scale_r bind read set_caches snd caches scalex_cache
      scalex_r_cache scale_cache scale_r_cache net_f_cache train_step_cache].
    repeat split; try apply kept_refl.
    eapply kept_cons; [apply Nat.eqb_eq | exact Hg].
Qed.

Lemma store_net_f_alike (s : PINNs) (n : nat) (g : net_f_captures) :
  net_f_graph s n = Some g -> alike s (snd (store_net_f n g s)).
Proof.
  intros Hg. split; [repeat split|].
  assert (G5 : forall n', net_f_graph (snd (store_net_f n g s)) n' = net_f_graph s n').
  { intros n'. unfold net_f_graph at 1.
    cbn [store_net_f bind read set_caches snd caches net_f_cache].
    apply (or_else_lookup_cons Nat.eqb n n' g (net_f_cache (caches s)));
      [apply Nat.eqb_eq | intros <-; exact Hg]. }
  assert (K : kept Nat.eqb (net_f_cache (caches s))
                (net_f_cache (caches (snd (store_net_f n g s))))).
  { cbn [store_net_f bind read set_caches snd caches net_f_cache].
    eapply kept_cons; [apply Nat.eqb_eq | exact Hg]. }
  unfold same_graphs. repeat (split; [intros; reflexivity|]).
  split; [exact G5|].
  split; [apply train_step_graph_ext; [reflexivity | reflexivity | exact G5]|].
  split; [|apply nested_kept; [reflexivity | exact K]].
  unfold grown. repeat split; try apply kept_refl. exact K.
Qed.

Lemma store_train_step_alike (s : PINNs) (b n : nat) (g : train_step_captures) :
  train_step_graph s b n = Some g ->
  lookup Nat.eqb n (net_f_cache (caches s)) = Some (g_net_f g) ->
  alike s (snd (store_train_step (b, n) g s)).
Proof.
  intros Hg Hn. split; [repeat split|].
  unfold same_graphs. repeat (split; [intros; reflexivity|]).
  split; [|split].
  - intros b' n'. unfold train_step_graph at 1.
    cbn [store_train_step bind read set_caches snd caches train_step_cache].
    apply (or_else_lookup_cons shape_eqb (b, n) (b', n') g (train_step_cache (caches s)));
      [apply shape_eqb_eq | intros E; inversion E; subst; exact Hg].
  - unfold grown. cbn [store_train_step bind read set_caches snd caches scalex_cache
      scalex_r_cache scale_cache scale_r_cache net_f_cache train_step_cache].
    repeat split; try apply kept_refl.
    eapply kept_cons; [apply shape_eqb_eq | exact Hg].
  - intros N b' n' g'.
    cbn [store_train_step bind read set_caches snd caches net_f_cache train_step_cache
         lookup].
    destruct (shape_eqb (b, n) (b', n')) eqn:E.
    + apply shape_eqb_eq in E. inversion E; subst. intros L. injection L as <-.
      exact Hn.
    + apply N.
Qed.

(** The three ways a call of a decorated method can go. *)
Lemma tf_function_hit {K G : Type} (eqb : K -> K -> bool)
    (cache : function_caches -> list (K * G)) (store : K -> G -> M unit)
    (k : K) (trace : M G) (s : PINNs) (g : G) :
  lookup eqb k (cache (caches s)) = Some g ->
  tf_function eqb cache store k trace s = (Ok g, s).
Proof.
  intros L. unfold tf_function. rewrite read_run, L. reflexivity.
Qed.

Lemma tf_function_miss {K G : Type} (eqb : K -> K -> bool)
    (cache : function_caches -> list (K * G)) (store : K -> G -> M unit)
    (k : K) (trace : M G) (s s1 : PINNs) (g : G) :
  lookup eqb k (cache (caches s)) = None ->
  trace s = (Ok g, s1) ->
  fst (store k g s1) = Ok tt ->
  tf_function eqb cache store k trace s = (Ok g, snd (store k g s1)).
Proof.
  intros L E St. unfold tf_function. rewrite read_run, L, (bind_ok _ _ _ _ _ E).
  unfold bind, ret. destruct (store k g s1) as [[[]|e] s2]; [reflexivity | discriminate].
Qed.

Lemma tf_function_raise {K G : Type} (eqb : K -> K -> bool)
    (cache : function_caches -> list (K * G)) (store : K -> G -> M unit)
    (k : K) (trace : M G) (s s1 : PINNs) (e : error) :
  lookup eqb k (cache (caches s)) = None ->
  trace s = (Raise e, s1) ->
  tf_function eqb cache store k trace s = (Raise e, s1).
Proof.
  intros L E. unfold tf_function. rewrite read_run, L. now apply bind_raise.
Qed.

(** After a call that returned, the graph is in the cache. *)
Lemma tf_function_traced {K G : Type} (eqb : K -> K -> bool)
    (cache : function_caches -> list (K * G)) (store : K -> G -> M unit)
    (k : K) (trace : M G) (s s' : PINNs) (g : G) :
  (forall g0 s0, lookup eqb k (cache (caches (snd (store k g0 s0)))) = Some g0) ->
  tf_function eqb cache store k trace s = (Ok g, s') ->
  lookup eqb k (cache (caches s')) = Some g.
Proof.
  intros St. unfold tf_function. rewrite read_run.
  destruct (lookup eqb k (cache (caches s))) as [g0|] eqn:L.
  - unfold ret. intros E. injection E as <- <-. exact L.
  - unfold bind, ret. destruct (trace s) as [[g1|e] s1]; [|discriminate].
    pose proof (St g1 s1) as S1.
    destruct (store k g1 s1) as [[u|e] s2]; [|discriminate].
    intros E. injection E as <- <-. exact S1.
Qed.

Lemma scalex_concrete_traced (s s' : PINNs) (n : nat) (g : range) :
  scalex_concrete n s = (Ok g, s') ->
  lookup Nat.eqb n (scalex_cache (caches s')) = Some g.
Proof.
  apply tf_function_traced. intros g0 s0.
  cbn [store_scalex bind read set_caches snd caches scalex_cache lookup].
  now rewrite Nat.eqb_refl.
Qed.

Lemma net_f_concrete_traced (s s' : PINNs) (n : nat) (g : net_f_captures) :
  net_f_concrete n s = (Ok g, s') ->
  lookup Nat.eqb n (net_f_cache (caches s')) = Some g.
Proof.
  apply tf_function_traced. intros g0 s0.
  cbn [store_net_f bind read set_caches snd caches net_f_cache lookup].
  now rewrite Nat.eqb_refl.
Qed.

(** A call of a decorated method gets the graph in effect, and leaves
    in effect what was. *)
Lemma scalex_concrete_run (s : PINNs) (n : nat) (g : range) :
  scalex_graph s n = Some g ->
  exists s', scalex_concrete n s = (Ok g, s') /\ alike s s'.
Proof.
  intros Hg. pose proof Hg as Hg'. unfold scalex_graph in Hg'.
  destruct (lookup Nat.eqb n (scalex_cache (caches s))) as [g0|] eqn:L;
    cbn [or_else] in Hg'.
  - injection Hg' as ->. exists s. split; [|apply alike_refl].
    now apply tf_function_hit.
  - unfold range_attrs in Hg'.
    destruct (xmin s) as [lo|] eqn:Lo; [|discriminate].
    destruct (xmax s) as [hi|] eqn:Hi; [|discriminate].
    injection Hg' as <-.
    exists (snd (store_scalex n (lo, hi) s)). split; [|now apply store_scalex_alike].
    apply tf_function_miss; [exact L | | reflexivity].
    cbv beta delta [bind getattr ret]. rewrite Lo. cbv beta iota. now rewrite Hi.
Qed.

Lemma scalex_r_concrete_run (s : PINNs) (n : nat) (g : range) :
  scalex_r_graph s n = Some g ->
  exists s', scalex_r_concrete n s = (Ok g, s') /\ alike s s'.
Proof.
  intros Hg. pose proof Hg as Hg'. unfold scalex_r_graph in Hg'.
  destruct (lookup Nat.eqb n (scalex_r_cache (caches s))) as [g0|] eqn:L;
    cbn [or_else] in Hg'.
  - injection Hg' as ->. exists s. split; [|apply alike_refl].
    now apply tf_function_hit.
  - unfold range_attrs in Hg'.
    destruct (xmin s) as [lo|] eqn:Lo; [|discriminate].
    destruct (xmax s) as [hi|] eqn:Hi; [|discriminate].
    injection Hg' as <-.
    exists (snd (store_scalex_r n (lo, hi) s)). split; [|now apply store_scalex_r_alike].
    apply tf_function_miss; [exact L | | reflexivity].
    cbv beta delta [bind getattr ret]. rewrite Hi. cbv beta iota. now rewrite Lo.
Qed.

Lemma scale_concrete_run (s : PINNs) (n : nat) (g : vec3 Qc) :
  scale_graph s n = Some g ->
  exists s', scale_concrete n s = (Ok g, s') /\ alike s s'.
Proof.
  intros Hg. pose proof Hg as Hg'. unfold scale_graph in Hg'.
  destruct (lookup Nat.eqb n (scale_cache (caches s))) as [g0|] eqn:L;
    cbn [or_else] in Hg'.
  - injection Hg' as ->. exists s. split; [|apply alike_refl].
    now apply tf_function_hit.
  - exists (snd (store_scale n g s)). split; [|now apply store_scale_alike].
    apply tf_function_miss; [exact L | | reflexivity].
    cbv beta delta [bind getattr ret]. now rewrite Hg'.
Qed.

Lemma scale_r_concrete_run (s : PINNs) (n : nat) (g : vec3 Qc) :
  scale_r_graph s n = Some g ->
  exists s', scale_r_concrete n s = (Ok g, s') /\ alike s s'.
Proof.
  intros Hg. pose proof Hg as Hg'. unfold scale_r_graph in Hg'.
  destruct (lookup Nat.eqb n (scale_r_cache (caches s))) as [g0|] eqn:L;
    cbn [or_else] in Hg'.
  - injection Hg' as ->. exists s. split; [|apply alike_refl].
    now apply tf_function_hit.
  - exists (snd (store_scale_r n g s)). split; [|now apply store_scale_r_alike].
    apply tf_function_miss; [exact L | | reflexivity].
    cbv beta delta [bind getattr ret]. now rewrite Hg'.
Qed.

Lemma net_f_concrete_run (s : PINNs) (n : nat) (g : net_f_captures) :
  net_f_graph s n = Some g ->
  exists s', net_f_concrete n s = (Ok g, s') /\ alike s s'.
Proof.
  intros Hg. pose proof Hg as Hg'. unfold net_f_graph in Hg'.
  destruct (lookup Nat.eqb n (net_f_cache (caches s))) as [g0|] eqn:L;
    cbn [or_else] in Hg'.
  - injection Hg' as ->. exists s. split; [|apply alike_refl].
    now apply tf_function_hit.
  - destruct (scalex_r_graph s n) as [gr|] eqn:Gr; [|discriminate].
    destruct (scalex_graph s n) as [gx|] eqn:Gx; [|discriminate].
    destruct (scale_r_graph s n) as [gy|] eqn:Gy; [|discriminate].
    injection Hg' as <-.
    destruct (scalex_r_concrete_run s n gr Gr) as (s1 & E1 & A1).
    assert (Gx1 : scalex_graph s1 n = Some gx)
      by (rewrite <- Gx; apply (proj2 A1)).
    destruct (scalex_concrete_run s1 n gx Gx1) as (s2 & E2 & A2).
    pose proof (alike_trans _ _ _ A1 A2) as A12.
    assert (Gy2 : scale_r_graph s2 n = Some gy)
      by (rewrite <- Gy; apply (proj2 A12)).
    destruct (scale_r_concrete_run s2 n gy Gy2) as (s3 & E3 & A3).
    pose proof (alike_trans _ _ _ A12 A3) as A13.
    set (g := mk_net_f_captures gr gx (model s) gy (nu s)) in *.
    assert (G3 : net_f_graph s3 n = Some g)
      by (rewrite <- Hg; apply (proj2 A13)).
    exists (snd (store_net_f n g s3)). split.
    + apply tf_function_miss; [exact L | | reflexivity].
      rewrite (bind_ok _ _ _ _ _ E1), (bind_ok _ _ _ _ _ E2), read_run.
      rewrite (bind_ok _ _ _ _ _ E3), read_run. unfold ret, g.
      destruct A12 as [(Mo & _) _]. destruct A13 as [(_ & _ & _ & _ & _ & _ & _ & Nu & _) _].
      now rewrite Mo, Nu.
    + eapply alike_trans; [exact A13 | now apply store_net_f_alike].
Qed.

Lemma train_step_concrete_run (s : PINNs) (b n : nat) (g : train_step_captures) :
  train_step_graph s b n = Some g ->
  exists s', train_step_concrete b n s = (Ok g, s') /\ alike s s'.
Proof.
  intros Hg. pose proof Hg as Hg'. unfold train_step_graph in Hg'.
  destruct (lookup shape_eqb (b, n) (train_step_cache (caches s))) as [g0|] eqn:L;
    cbn [or_else] in Hg'.
  - injection Hg' as ->. exists s. split; [|apply alike_refl].
    now apply tf_function_hit.
  - destruct (net_f_graph s n) as [gf|] eqn:Gf; [|discriminate].
    injection Hg' as <-.
    destruct (net_f_concrete_run s n gf Gf) as (s1 & E1 & A1).
    set (g := mk_train_step_captures (model s) gf) in *.
    assert (G1 : train_step_graph s1 b n = Some g)
      by (rewrite <- Hg; apply (proj2 A1)).
    exists (snd (store_train_step (b, n) g s1)). split.
    + apply tf_function_miss; [exact L | | reflexivity].
      rewrite read_run, (bind_ok _ _ _ _ _ E1). reflexivity.
    + eapply alike_trans; [exact A1|].
      apply store_train_step_alike; [exact G1|].
      exact (net_f_concrete_traced _ _ _ _ E1).
Qed.

(** On an object that has its three normaliser attributes every graph
    is in effect. *)
Lemma fitted_graphs (s : PINNs) :
  fitted s ->
  forall b n,
    (exists g, scalex_graph s n = Some g) /\
    (exists g, scale_r_graph s n = Some g) /\
    (exists g, net_f_graph s n = Some g) /\
    (exists g, train_step_graph s b n = Some g).
Proof.
  intros (lo & hi & ym & Lo & Hi & Ym) b n.
  assert (R : range_attrs s = Some (lo, hi)) by (unfold range_attrs; now rewrite Lo, Hi).
  assert (G1 : exists g, scalex_graph s n = Some g).
  { unfold scalex_graph. rewrite R. destruct (lookup _ _ _); cbn; eauto. }
  assert (G2 : exists g, scalex_r_graph s n = Some g).
  { unfold scalex_r_graph. rewrite R. destruct (lookup _ _ _); cbn; eauto. }
  assert (G3 : exists g, scale_r_graph s n = Some g).
  { unfold scale_r_graph. rewrite Ym. destruct (lookup _ _ _); cbn; eauto. }
  assert (G4 : exists g, net_f_graph s n = Some g).
  { unfold net_f_graph. destruct G1 as [g1 ->], G2 as [g2 ->], G3 as [g3 ->].
    destruct (lookup _ _ _); cbn; eauto. }
  repeat split; try assumption.
  unfold train_step_graph. destruct G4 as [g4 ->]. destruct (lookup _ _ _); cbn; eauto.
Qed.
End Graphs.

(** ** The normaliser *)

Section Normalizer.
Context `{Services}.

Lemma scalex_run {T : Type} `{Elt T} (s : PINNs) (g : range) (x : list (vec2 T)) :
  scalex_graph s (List.length x) = Some g ->
  exists s', scalex x s = (Ok (scalex_ops g x), s') /\ alike s s'.
Proof.
  intros Hg. destruct (scalex_concrete_run s _ g Hg) as (s' & E & A).
  exists s'. split; [|exact A]. unfold scalex. now rewrite (bind_ok _ _ _ _ _ E).
Qed.


Lemma scale_run {T : Type} `{Elt T} (s : PINNs) (g : vec3 Qc) (y : list (vec3 T)) :
  scale_graph s (List.length y) = Some g ->
  exists s', scale y s = (Ok (scale_ops g y), s') /\ alike s s'.
Proof.
  intros Hg. destruct (scale_concrete_run s _ g Hg) as (s' & E & A).
  exists s'. split; [|exact A]. unfold scale. now rewrite (bind_ok _ _ _ _ _ E).
Qed.

Lemma scale_r_run {T : Type} `{Elt T} (s : PINNs) (g : vec3 Qc) (ys : list (vec3 T)) :
  scale_r_graph s (List.length ys) = Some g ->
  exists s', scale_r ys s = (Ok (scale_r_ops g ys), s') /\ alike s s'.
Proof.
  intros Hg. destruct (scale_r_concrete_run s _ g Hg) as (s' & E & A).
  exists s'. split; [|exact A]. unfold scale_r. now rewrite (bind_ok _ _ _ _ _ E).
Qed.

(** After a call of [scalex] that returned, the graph it ran is in the
    cache. *)
Lemma scalex_traced {T : Type} `{Elt T} (s s' : PINNs) (x xs : list (vec2 T)) :
  scalex x s = (Ok xs, s') ->
  exists g,
    lookup Nat.eqb (List.length x) (scalex_cache (caches s')) = Some g /\
    xs = scalex_ops g x.
Proof.
  unfold scalex, bind, ret.
  destruct (scalex_concrete (List.length x) s) as [[g|e] s1] eqn:E; [|discriminate].
  intros E'. injection E' as <- <-. exists g. split; [|reflexivity].
  exact (scalex_concrete_traced _ _ _ _ E).
Qed.





(** What [fit_scalex] stores and returns. *)
Lemma fit_scalex_run (s : PINNs) (x : list (vec2 Qc)) :
  exists s',
    fit_scalex x s =
      (Ok (map (minmax_row (reduce_min2 x) (reduce_max2 (abs2 x))) x), s') /\
    xmin s' = Some (reduce_min2 x) /\
    xmax s' = Some (reduce_max2 (abs2 x)) /\
    ymax s' = ymax s /\ hist s' = hist s /\ epoch s' = epoch s /\
    trace s' = trace s /\ nu s' = nu s /\ model s' = model s /\
    trainable_variables s' = trainable_variables s /\ epochs s' = epochs s /\
    optimizer s' = optimizer s /\ sopt s' = sopt s /\ caches s' = caches s.
Proof.
  eexists. split; [reflexivity|]. cbn. repeat split.
Qed.

Lemma fit_scale_run (s : PINNs) (y : list (vec3 Qc)) :
  exists s',
    fit_scale y s = (Ok (map (fun r => row3 div r (reduce_max3 (abs3 y))) y), s') /\
    ymax s' = Some (reduce_max3 (abs3 y)) /\
    xmin s' = xmin s /\ xmax s' = xmax s /\ hist s' = hist s /\
    epoch s' = epoch s /\ trace s' = trace s /\ nu s' = nu s /\
    model s' = model s /\ trainable_variables s' = trainable_variables s /\
    epochs s' = epochs s /\ optimizer s' = optimizer s /\ sopt s' = sopt s /\
    caches s' = caches s.
Proof.
  eexists. split; [reflexivity|]. cbn. repeat split.
Qed.

(** [reduce_max] and [reduce_min] are the greatest and the least entry
    of a column that has one. *)
Lemma Qcmax_cases (a b : Qc) :
  (Qcmax a b = a \/ Qcmax a b = b) /\ a <= Qcmax a b /\ b <= Qcmax a b.
Proof.
  unfold Qcmax. destruct (a ?= b) eqn:E.
  - apply Qceq_alt in E. subst b. repeat split; auto using Qcle_refl.
  - apply Qclt_alt in E. repeat split; auto using Qcle_refl, Qclt_le_weak.
  - assert (b <= a) by (apply Qclt_le_weak, Qcgt_alt, E).
    repeat split; auto using Qcle_refl.
Qed.

Lemma Qcmin_cases (a b : Qc) :
  (Qcmin a b = a \/ Qcmin a b = b) /\ Qcmin a b <= a /\ Qcmin a b <= b.
Proof.
  unfold Qcmin. destruct (a ?= b) eqn:E.
  - apply Qceq_alt in E. subst b. repeat split; auto using Qcle_refl.
  - apply Qclt_alt in E. repeat split; auto using Qcle_refl, Qclt_le_weak.
  - assert (b <= a) by (apply Qclt_le_weak, Qcgt_alt, E).
    repeat split; auto using Qcle_refl.
Qed.

Lemma fold_left_Qcmax (r : list Qc) (a : Qc) :
  In (fold_left Qcmax r a) (a :: r) /\
  forall q, In q (a :: r) -> q <= fold_left Qcmax r a.
Proof.
  revert a. induction r as [|b r IH]; intros a; simpl.
  - split; [now left|]. intros q [->|[]]. apply Qcle_refl.
  - destruct (IH (Qcmax a b)) as [Hin Hub].
    destruct (Qcmax_cases a b) as [Hc [Ha Hb]]. split.
    + destruct Hin as [E|Hin]; [|simpl; auto].
      simpl. destruct Hc as [Hc|Hc]; [left|right; left]; congruence.
    + intros q [->|[->|Hq]].
      * eapply Qcle_trans; [exact Ha|]. apply Hub. now left.
      * eapply Qcle_trans; [exact Hb|]. apply Hub. now left.
      * apply Hub. now right.
Qed.

Lemma fold_left_Qcmin (r : list Qc) (a : Qc) :
  In (fold_left Qcmin r a) (a :: r) /\
  forall q, In q (a :: r) -> fold_left Qcmin r a <= q.
Proof.
  revert a. induction r as [|b r IH]; intros a; simpl.
  - split; [now left|]. intros q [->|[]]. apply Qcle_refl.
  - destruct (IH (Qcmin a b)) as [Hin Hlb].
    destruct (Qcmin_cases a b) as [Hc [Ha Hb]]. split.
    + destruct Hin as [E|Hin]; [|simpl; auto].
      simpl. destruct Hc as [Hc|Hc]; [left|right; left]; congruence.
    + intros q [->|[->|Hq]].
      * eapply Qcle_trans; [|exact Ha]. apply Hlb. now left.
      * eapply Qcle_trans; [|exact Hb]. apply Hlb. now left.
      * apply Hlb. now right.
Qed.

Lemma reduce_max_spec (l : list Qc) :
  l <> [] -> In (reduce_max l) l /\ forall q, In q l -> q <= reduce_max l.
Proof.
  destruct l as [|a r]; [congruence|]. intros _. apply fold_left_Qcmax.
Qed.

Lemma reduce_min_spec (l : list Qc) :
  l <> [] -> In (reduce_min l) l /\ forall q, In q l -> reduce_min l <= q.
Proof.
  destruct l as [|a r]; [congruence|]. intros _. apply fold_left_Qcmin.
Qed.

(** On coordinates that are not negative the absolute value changes
    nothing, and [fit_scalex] stores the maximum itself. *)
Lemma abs2_nonneg (x : list (vec2 Qc)) :
  (forall r, In r x -> 0 <= fst r /\ 0 <= snd r) -> abs2 x = x.
Proof.
  intros Hx. unfold abs2. induction x as [|[a b] x IH]; simpl; [reflexivity|].
  destruct (Hx (a, b)) as [Ha Hb]; [now left|]. simpl in Ha, Hb.
  rewrite (Qcabs_pos a Ha), (Qcabs_pos b Hb), IH; [reflexivity|].
  intros r Hr. apply Hx. now right.
Qed.

Lemma fit_scalex_nonneg (s : PINNs) (x : list (vec2 Qc)) :
  (forall r, In r x -> 0 <= fst r /\ 0 <= snd r) ->
  xmax (snd (fit_scalex x s)) = Some (reduce_max2 x) /\
  xmin (snd (fit_scalex x s)) = Some (reduce_min2 x) /\
  fst (fit_scalex x s) = Ok (map (minmax_row (reduce_min2 x) (reduce_max2 x)) x).
Proof.
  intros Hx. destruct (fit_scalex_run s x) as (s' & E & Hlo & Hhi & _).
  rewrite E. cbn [fst snd]. rewrite Hlo, Hhi, (abs2_nonneg x Hx). auto.
Qed.

(** The stored minimum goes to 0 and the stored maximum to 1. *)
Lemma minmax_row_bounds (lo hi : vec2 Qc) :
  fst hi <> fst lo -> snd hi <> snd lo ->
  minmax_row lo hi lo = (0, 0) /\ minmax_row lo hi hi = (1, 1).
Proof.
  intros H1 H2. destruct lo as [l0 l1], hi as [h0 h1].
  cbn [fst snd] in H1, H2.
  cbv [minmax_row row2 fst snd add sub mul div lit Elt_Qc].
  assert (h0 - l0 <> 0) by (intro E; apply H1; rewrite <- (Qcplus_0_l l0), <- E; ring).
  assert (h1 - l1 <> 0) by (intro E; apply H2; rewrite <- (Qcplus_0_l l1), <- E; ring).
  split; f_equal; field; assumption.
Qed.
End Normalizer.

(** ** The tape: locality and renaming *)

Section Tape.
Context `{Services}.
Variable theta : list Qc.

Lemma vanishes_zero : vanishes (Const 0) = true.
Proof.
  simpl. unfold Qc_eq_bool. destruct (Qc_eq_dec 0 0); congruence.
Qed.

Lemma vanishes_eval (e : expr) : vanishes e = true -> eval theta e = 0.
Proof.
  induction e; simpl; try discriminate.
  - apply Qc_eq_bool_correct.
  - intros E. apply andb_prop in E as [Ea Eb].
    rewrite IHe1, IHe2 by assumption. ring.
  - intros E. apply andb_prop in E as [Ea Eb].
    rewrite IHe1, IHe2 by assumption. ring.
  - intros E. apply orb_prop in E as [E|E];
      [rewrite IHe1 by assumption | rewrite IHe2 by assumption]; ring.
  - intros E. rewrite IHe1 by assumption. unfold Qcdiv. ring.
Qed.

Lemma vanishes_D (d : dvar) (e : expr) :
  vanishes e = true -> vanishes (D d e) = true.
Proof.
  induction e; try discriminate.
  - intros _. apply vanishes_zero.
  - cbn [D vanishes]. intros E. apply andb_prop in E as [Ea Eb].
    now rewrite IHe1, IHe2.
  - cbn [D vanishes]. intros E. apply andb_prop in E as [Ea Eb].
    now rewrite IHe1, IHe2.
  - cbn [D vanishes]. intros E. apply orb_prop in E as [E|E].
    + rewrite E, IHe1 by assumption. reflexivity.
    + rewrite E, IHe2 by assumption. now rewrite !orb_true_r.
  - cbn [D vanishes]. intros E. rewrite E, IHe1 by assumption.
    now rewrite orb_true_r.
Qed.

Lemma indicator_false : vanishes (indicator false) = true.
Proof. apply vanishes_zero. Qed.

Lemma D_unmentioned (l : leaf) (e : expr) :
  mentions l e = false -> vanishes (D (DInp l) e) = true.
Proof.
  induction e; cbn [D vanishes mentions].
  - intros _. apply vanishes_zero.
  - intros _. apply indicator_false.
  - intros E. cbn [dvar_eqb]. rewrite E. apply indicator_false.
  - intros E. apply orb_false_elim in E as [Ea Eb]. now rewrite IHe1, IHe2.
  - intros E. apply orb_false_elim in E as [Ea Eb]. now rewrite IHe1, IHe2.
  - intros E. apply orb_false_elim in E as [Ea Eb].
    rewrite IHe1, IHe2 by assumption. now rewrite orb_true_r.
  - intros E. apply orb_false_elim in E as [Ea Eb].
    rewrite IHe1, IHe2 by assumption. reflexivity.
  - intros E. rewrite IHe by assumption. now rewrite orb_true_r.
Qed.

Lemma mentions_D (l : leaf) (d : dvar) (e : expr) :
  mentions l e = false -> mentions l (D d e) = false.
Proof.
  induction e; cbn [D mentions]; try reflexivity.
  - intros E. apply orb_false_elim in E as [Ea Eb]. now rewrite IHe1, IHe2.
  - intros E. apply orb_false_elim in E as [Ea Eb]. now rewrite IHe1, IHe2.
  - intros E. apply orb_false_elim in E as [Ea Eb].
    now rewrite IHe1, IHe2, Ea, Eb.
  - intros E. apply orb_false_elim in E as [Ea Eb].
    now rewrite IHe1, IHe2, Ea, Eb.
  - intros E. now rewrite IHe, E.
Qed.

Lemma mentions_apply_net (l : leaf) (n : net) (a b : expr) :
  mentions l a = false -> mentions l b = false ->
  mentions l (apply_net n a b) = false.
Proof.
  intros Ea Eb. induction n; cbn [apply_net mentions]; auto;
    now rewrite IHn1, IHn2.
Qed.

Lemma local_D (i : nat) (d : dvar) (e : expr) :
  local_to i e -> local_to i (D d e).
Proof.
  intros He l Hl. apply mentions_D, He, Hl.
Qed.

(** The derivative with respect to an entry of another row is zero, and
    so is every derivative of it. *)
Lemma D_other_row (i : nat) (l : leaf) (e : expr) :
  local_to i e -> leaf_index l <> i -> vanishes (D (DInp l) e) = true.
Proof.
  intros He Hl. apply D_unmentioned, He, Hl.
Qed.

Lemma D_sum_expr (d : dvar) (es : list expr) :
  D d (sum_expr es) = sum_expr (map (D d) es).
Proof.
  induction es as [|e es IH]; simpl; [reflexivity|]. now rewrite IH.
Qed.

Lemma eval_sum_expr (es : list expr) :
  eval theta (sum_expr es) = total (map (eval theta) es).
Proof.
  induction es as [|e es IH]; simpl; [reflexivity|]. now rewrite IH.
Qed.

(** A sum all of whose terms but the i-th are zero. *)
Lemma sum_expr_single (es : list expr) (i : nat) :
  (forall j, j <> i -> eval theta (nth j es (Const 0)) = 0) ->
  eval theta (sum_expr es) = eval theta (nth i es (Const 0)).
Proof.
  revert i. induction es as [|e es IH]; intros i Hz.
  - destruct i; reflexivity.
  - cbn [sum_expr fold_right eval]. fold (sum_expr es). destruct i as [|i].
    + rewrite (IH (List.length es)).
      * rewrite nth_overflow by lia. cbn [nth eval]. ring.
      * intros j Hj. destruct (Nat.eq_dec j (List.length es)); [contradiction|].
        apply (Hz (S j)). discriminate.
    + assert (E0 : eval theta e = 0) by (apply (Hz 0%nat); discriminate).
      rewrite E0, (IH i).
      * cbn [nth]. ring.
      * intros j Hj. apply (Hz (S j)). congruence.
Qed.

(** Renaming the watched entries changes no value, and commutes with
    differentiation when it keeps distinct entries distinct. *)
Lemma eval_rename (f : leaf -> leaf) (e : expr) :
  eval theta (rename f e) = eval theta e.
Proof.
  induction e; simpl; congruence.
Qed.

Lemma D_rename (f : leaf -> leaf) (l : leaf) (e : expr) :
  (forall l1 l2, leaf_eqb (f l1) (f l2) = leaf_eqb l1 l2) ->
  D (DInp (f l)) (rename f e) = rename f (D (DInp l) e).
Proof.
  intros Hf. induction e; cbn [D rename dvar_eqb];
    rewrite ?IHe, ?IHe1, ?IHe2; try reflexivity.
  rewrite Hf. now destruct (leaf_eqb l l0).
Qed.

Lemma rename_apply_net (f : leaf -> leaf) (n : net) (a b : expr) :
  rename f (apply_net n a b) = apply_net n (rename f a) (rename f b).
Proof.
  induction n; cbn [apply_net rename]; congruence.
Qed.

Lemma to_row_injective (i : nat) (l1 l2 : leaf) :
  leaf_eqb (to_row i l1) (to_row i l2) = leaf_eqb l1 l2.
Proof.
  destruct l1 as [a|a], l2 as [b|b]; simpl; try reflexivity;
    destruct (Nat.eqb_spec a b), (Nat.eqb_spec (a + i) (b + i)); auto; lia.
Qed.
End Tape.

(** ** Lists read by position *)

Section Positions.
Context {A B C : Type}.

Lemma nth_map_seq (g : nat -> A) (n i : nat) (d : A) :
  (i < n)%nat -> nth i (map g (seq 0 n)) d = g i.
Proof.
  intros Hi. rewrite (nth_indep _ d (g 0%nat)) by (now rewrite length_map, length_seq).
  rewrite map_nth, seq_nth by assumption. reflexivity.
Qed.

Lemma list_as_map_nth (l : list A) (d : A) :
  l = map (fun i => nth i l d) (seq 0 (List.length l)).
Proof.
  apply (nth_ext _ _ d d).
  - now rewrite length_map, length_seq.
  - intros i Hi. now rewrite nth_map_seq.
Qed.

Lemma combine_map_same (f : C -> A) (g : C -> B) (l : list C) :
  combine (map f l) (map g l) = map (fun x => (f x, g x)) l.
Proof.
  induction l as [|x l IH]; simpl; [reflexivity|]. now rewrite IH.
Qed.
End Positions.

Lemma map2_map_same {A B C E : Type} (f : A -> B -> C) (g : E -> A) (h : E -> B)
    (l : list E) :
  map2 f (map g l) (map h l) = map (fun x => f (g x) (h x)) l.
Proof.
  unfold map2. rewrite combine_map_same, map_map. reflexivity.
Qed.

Lemma map2_seq_from {A B : Type} (f : nat -> A -> B) (l : list A) (d : A) (k : nat) :
  map2 f (seq k (List.length l)) l =
  map (fun i => f i (nth (i - k) l d)) (seq k (List.length l)).
Proof.
  revert k. induction l as [|a l IH]; intros k; [reflexivity|].
  cbn [List.length seq]. unfold map2 in *. cbn [combine map fst snd].
  rewrite Nat.sub_diag. cbn [nth]. f_equal.
  rewrite IH. apply map_ext_in. intros i Hi. apply in_seq in Hi.
  replace (i - k)%nat with (S (i - S k)) by lia. reflexivity.
Qed.

Lemma map2_seq_nth {A B : Type} (f : nat -> A -> B) (l : list A) (d : A) :
  map2 f (seq 0 (List.length l)) l =
  map (fun i => f i (nth i l d)) (seq 0 (List.length l)).
Proof.
  rewrite (map2_seq_from f l d 0). apply map_ext. intros i.
  now rewrite Nat.sub_0_r.
Qed.

(** ** The residual evaluator *)

Section Residuals.
Context `{Services}.
Variables (lo hi : vec2 Qc) (ym : vec3 Qc) (m : vec3 net) (theta : list Qc).

(** What the tape holds after [scale_r]: row [i] is the prediction at
    the watched entries of row [i]. *)
Lemma taped_predictions (pts : list (vec2 Qc)) :
  map (fun r => row3 mul r ym)
      (call_model m (map (minmax_row lo hi)
         (combine (watch LX (map fst pts)) (watch LY (map snd pts))))) =
  map (fun i => row_prediction lo hi ym m i (nth i pts (0, 0)))
      (seq 0 (List.length pts)).
Proof.
  unfold watch.
  rewrite (map2_seq_nth _ (map fst pts) 0), (map2_seq_nth _ (map snd pts) 0).
  rewrite !length_map, combine_map_same. unfold call_model.
  rewrite !map_map. apply map_ext. intros i.
  change (nth i (map fst pts) 0) with (nth i (map fst pts) (fst (0, 0))).
  change (nth i (map snd pts) 0) with (nth i (map snd pts) (snd (0, 0))).
  rewrite !map_nth. reflexivity.
Qed.

Lemma row_prediction_local (i : nat) (p : vec2 Qc) :
  local_to i (fst (fst (row_prediction lo hi ym m i p))) /\
  local_to i (snd (fst (row_prediction lo hi ym m i p))) /\
  local_to i (snd (row_prediction lo hi ym m i p)).
Proof.
  assert (Hin : forall l, leaf_index l <> i ->
            mentions l (fst (minmax_row lo hi (Inp (LX i) (fst p), Inp (LY i) (snd p)))) = false /\
            mentions l (snd (minmax_row lo hi (Inp (LX i) (fst p), Inp (LY i) (snd p)))) = false).
  { intros l Hl. cbn. rewrite !orb_false_r.
    destruct l as [j|j]; cbn in Hl |- *; split; try reflexivity;
      apply Nat.eqb_neq; assumption. }
  repeat split; intros l Hl; destruct (Hin l Hl) as [H0 H1];
    cbn [row_prediction prediction row3 fst snd mul lit Elt_expr mentions];
    rewrite mentions_apply_net by assumption; reflexivity.
Qed.

Lemma row_prediction_rename (i : nat) (p : vec2 Qc) :
  fst (fst (row_prediction lo hi ym m i p)) =
    rename (to_row i) (fst (fst (row_prediction lo hi ym m 0 p))) /\
  snd (fst (row_prediction lo hi ym m i p)) =
    rename (to_row i) (snd (fst (row_prediction lo hi ym m 0 p))) /\
  snd (row_prediction lo hi ym m i p) =
    rename (to_row i) (snd (row_prediction lo hi ym m 0 p)).
Proof.
  repeat split;
    cbn [row_prediction prediction row3 row2 minmax_row fst snd mul sub div lit
         Elt_expr rename];
    rewrite rename_apply_net; reflexivity.
Qed.
(** *** Gradients of a column whose rows are independent *)

Lemma gradient_as_map (es : list expr) (mk : nat -> leaf) (n : nat) :
  gradient es (sources mk n) =
  map (fun i => sum_expr (map (D (DInp (mk i))) es)) (seq 0 n).
Proof.
  unfold gradient, sources. now rewrite map_map.
Qed.

Lemma nth_map_D (d : dvar) (es : list expr) (j : nat) :
  nth j (map (D d) es) (Const 0) = D d (nth j es (Const 0)).
Proof.
  change (Const 0) with (D d (Const 0)) at 1. apply map_nth.
Qed.

Section Column.
Variables (es : list expr) (mk : nat -> leaf).
Hypothesis es_local : forall j, local_to j (nth j es (Const 0)).
Hypothesis mk_index : forall j, leaf_index (mk j) = j.

(** [tape.gradient] of the column with respect to the watched vector:
    entry [i] is the derivative of row [i] by its own coordinate. *)
Lemma gradient_local (i : nat) :
  eval theta (sum_expr (map (D (DInp (mk i))) es)) =
  eval theta (D (DInp (mk i)) (nth i es (Const 0))).
Proof.
  rewrite (sum_expr_single theta _ i).
  - now rewrite nth_map_D.
  - intros j Hj. rewrite nth_map_D. apply vanishes_eval.
    apply (D_other_row j); [apply es_local|]. rewrite mk_index. congruence.
Qed.

Lemma cross_derivative_zero (i j k : nat) (d : dvar) :
  j <> k ->
  eval theta (D d (D (DInp (mk j)) (nth k es (Const 0)))) = 0.
Proof.
  intros Hjk. apply vanishes_eval, vanishes_D.
  apply (D_other_row k); [apply es_local|]. now rewrite mk_index.
Qed.

(** The gradient of that gradient: entry [i] is the second derivative
    of row [i] by its own coordinate. *)
Lemma gradient2_local (n i : nat) :
  (i < n)%nat ->
  eval theta
    (sum_expr (map (D (DInp (mk i)))
       (map (fun j => sum_expr (map (D (DInp (mk j))) es)) (seq 0 n)))) =
  eval theta (D (DInp (mk i)) (D (DInp (mk i)) (nth i es (Const 0)))).
Proof.
  intros Hi. rewrite (sum_expr_single theta _ i).
  - rewrite nth_map_D, nth_map_seq by assumption.
    rewrite D_sum_expr, (sum_expr_single theta _ i).
    + now rewrite !nth_map_D.
    + intros k Hk. rewrite !nth_map_D.
      apply (cross_derivative_zero i). congruence.
  - intros j Hj. rewrite nth_map_D.
    destruct (Nat.lt_ge_cases j n) as [Hlt|Hge].
    + rewrite nth_map_seq by assumption.
      rewrite D_sum_expr, (sum_expr_single theta _ j).
      * rewrite !nth_map_D. apply vanishes_eval, (D_other_row j).
        -- apply local_D, es_local.
        -- rewrite mk_index. congruence.
      * intros k Hk. rewrite !nth_map_D.
        apply (cross_derivative_zero i). congruence.
    + rewrite nth_overflow by (now rewrite length_map, length_seq).
      reflexivity.
Qed.
End Column.

Lemma column_local (g : nat -> expr) (n : nat) :
  (forall j, local_to j (g j)) ->
  forall j, local_to j (nth j (map g (seq 0 n)) (Const 0)).
Proof.
  intros Hg j. destruct (Nat.lt_ge_cases j n) as [Hlt|Hge].
  - rewrite nth_map_seq by assumption. apply Hg.
  - rewrite nth_overflow by (now rewrite length_map, length_seq).
    intros l _. reflexivity.
Qed.

(** Differentiating row [i] by its own coordinate is differentiating
    row 0 by its coordinate. *)
Lemma eval_D_row (i : nat) (l : leaf) (e : expr) :
  eval theta (D (DInp (to_row i l)) (rename (to_row i) e)) =
  eval theta (D (DInp l) e).
Proof.
  rewrite D_rename by apply to_row_injective. apply eval_rename.
Qed.

Lemma eval_D2_row (i : nat) (l : leaf) (e : expr) :
  eval theta (D (DInp (to_row i l)) (D (DInp (to_row i l)) (rename (to_row i) e))) =
  eval theta (D (DInp l) (D (DInp l) e)).
Proof.
  rewrite !D_rename by apply to_row_injective. apply eval_rename.
Qed.
End Residuals.

Lemma map_as_map_nth {A B : Type} (g : A -> B) (l : list A) (d : A) :
  map g l = map (fun i => g (nth i l d)) (seq 0 (List.length l)).
Proof.
  rewrite <- (map_map (fun i => nth i l d) g), <- list_as_map_nth. reflexivity.
Qed.

Section ResidualTheorem.
Context `{Services}.

(** What a graph of [net_f] computes, row by row: the residuals of the
    prediction that the graph holds, at the image of the row by the
    [scalex_r] that the graph holds, for the viscosity that it holds. *)
Lemma net_f_ops_values (g : net_f_captures) (cp : list (vec2 Qc)) (theta : list Qc) :
  map (eval3 theta) (net_f_ops g cp) =
  map (fun p => residual_with (g_nu g) (fst (g_scalex g)) (snd (g_scalex g))
                  (g_scale_r g) (g_model g) theta
                  (unminmax_row (fst (g_scalex_r g)) (snd (g_scalex_r g)) p)) cp.
Proof.
  destruct g as [[rlo rhi] [lo hi] m ym nu0].
  cbv beta zeta delta [net_f_ops scalex_r_ops scalex_ops scale_r_ops
    g_scalex_r g_scalex g_model g_scale_r g_nu].
  cbn [fst snd]. rewrite taped_predictions.
  set (pts := map (unminmax_row rlo rhi) cp).
  set (n := List.length pts).
  assert (Hn : n = List.length cp) by (subst n pts; apply length_map).
  unfold col0, col1, col2, stack3.
  rewrite !gradient_as_map, !map_map, !map2_map_same, !map_map.
  rewrite !map2_map_same, !combine_map_same, !map_map.
  rewrite (map_as_map_nth _ cp (0, 0)), <- Hn.
  apply map_ext_in. intros i Hi. apply in_seq in Hi.
  assert (Hp : nth i pts (0, 0) = unminmax_row rlo rhi (nth i cp (0, 0))).
  { subst pts.
    rewrite (nth_indep _ _ (unminmax_row rlo rhi (0, 0))) by (rewrite length_map; lia).
    apply map_nth. }
  unfold eval3. cbn [eval fst snd].
  rewrite !(gradient2_local theta _ LX), !(gradient2_local theta _ LY),
          !(gradient_local theta _ LX), !(gradient_local theta _ LY);
    try (intros; reflexivity); try lia;
    try (apply column_local; intros j; apply row_prediction_local).
  rewrite !nth_map_seq by lia. rewrite Hp.
  destruct (row_prediction_rename lo hi ym m i
              (unminmax_row rlo rhi (nth i cp (0, 0)))) as (E0 & E1 & E2).
  rewrite E0, E1, E2.
  change (LX i) with (to_row i (LX 0)). change (LY i) with (to_row i (LY 0)).
  rewrite !eval_D2_row, !eval_D_row, !eval_rename.
  reflexivity.
Qed.

Lemma net_f_ops_length (g : net_f_captures) (cp : list (vec2 Qc)) :
  List.length (net_f_ops g cp) = List.length cp.
Proof.
  rewrite <- (length_map (eval3 []) (net_f_ops g cp)), net_f_ops_values.
  apply length_map.
Qed.

(** A call of [net_f] runs the graph in effect for the shape of [cp]. *)
Lemma net_f_run (s : PINNs) (g : net_f_captures) (cp : list (vec2 Qc)) :
  net_f_graph s (List.length cp) = Some g ->
  exists s', net_f cp s = (Ok (net_f_ops g cp), s') /\ alike s s'.
Proof.
  intros Hg. destruct (net_f_concrete_run s _ g Hg) as (s' & E & A).
  exists s'. split; [|exact A]. unfold net_f. now rewrite (bind_ok _ _ _ _ _ E).
Qed.

(** C1. [net_f] returns one row of three residuals per collocation
    point: row i is f1 = U*U_x + V*U_y - nu*(U_xx + U_yy) + uv_y,
    f2 = U*V_x + V*V_y - nu*(V_xx + V_yy) + uv_x, f3 = U_x + V_y with
    nu = 1/450, where U, V, uv are the predictions in physical units and
    the derivatives are taken with respect to the physical coordinates of
    point i, the image of row i of [cp] by [scalex_r].  The scalings, the
    approximator and nu are those of the graph of [net_f] in effect for
    the shape of [cp]; the call leaves every attribute and every graph in
    effect as it was. *)
Theorem net_f_residuals (s : PINNs) (g : net_f_captures) (cp : list (vec2 Qc))
    (theta : list Qc) :
  net_f_graph s (List.length cp) = Some g ->
  g_nu g = 1 / of_nat 450 ->
  exists f s',
    net_f cp s = (Ok f, s') /\ alike s s' /\
    List.length f = List.length cp /\
    map (eval3 theta) f =
    map (fun p => spec_residual (fst (g_scalex g)) (snd (g_scalex g)) (g_scale_r g)
                    (g_model g) theta
                    (unminmax_row (fst (g_scalex_r g)) (snd (g_scalex_r g)) p)) cp.
Proof.
  intros Hg Hnu. destruct (net_f_run s g cp Hg) as (s' & E & A).
  exists (net_f_ops g cp), s'. split; [exact E|]. split; [exact A|].
  split; [apply net_f_ops_length|].
  rewrite net_f_ops_values, Hnu. reflexivity.
Qed.
End ResidualTheorem.

(** ** The loss and the training step *)

Lemma of_nat_1 : of_nat 1 = 1.
Proof. apply Qc_is_canon. reflexivity. Qed.

Lemma flatten3_map2_sub3 (y p : list (vec3 Qc)) :
  flatten3 (map2 sub3 y p) = map2 Qcminus (flatten3 y) (flatten3 p).
Proof.
  unfold map2. revert p. induction y as [|a y IH]; intros [|b p]; try reflexivity.
  cbn [combine map flatten3 flat_map app fst snd]. unfold flatten3 in IH.
  rewrite IH. reflexivity.
Qed.

Section Losses.
Context `{Services}.
Variable theta : list Qc.

Lemma eval_reduce_mean (es : list expr) :
  eval theta (reduce_mean es) = mean (map (eval theta) es).
Proof.
  unfold reduce_mean, mean. cbn [eval]. now rewrite eval_sum_expr, length_map.
Qed.

Lemma eval_reduce_mean_scalar (e : expr) :
  eval theta (reduce_mean [e]) = eval theta e.
Proof.
  unfold reduce_mean. cbn [eval sum_expr fold_right List.length].
  rewrite of_nat_1. field. apply Q_apart_0_1.
Qed.

Lemma eval_flatten3 (t : list (vec3 expr)) :
  map (eval theta) (flatten3 t) = flatten3 (map (eval3 theta) t).
Proof.
  induction t as [|r t IH]; [reflexivity|].
  cbn [flatten3 flat_map map app]. unfold flatten3 in IH. now rewrite IH.
Qed.

Lemma eval_squares (es : list expr) :
  map (eval theta) (map square es) = map sq (map (eval theta) es).
Proof.
  rewrite !map_map. reflexivity.
Qed.

Lemma eval_differences (y : list Qc) (es : list expr) :
  map (eval theta) (map2 Sub (map Const y) es) = map2 Qcminus y (map (eval theta) es).
Proof.
  unfold map2. revert es. induction y as [|a y IH]; intros [|e es]; try reflexivity.
  cbn [map combine fst snd eval]. now rewrite IH.
Qed.

(** The taped boundary loss and the taped PDE loss have the values the
    specification words. *)
Lemma eval_boundary_loss (m : vec3 net) (bc : list (vec2 Qc * vec3 Qc)) :
  eval theta
    (reduce_mean (map square
       (map2 Sub (map Const (flatten3 (map snd bc)))
                 (flatten3 (call_model m (map const2 (map fst bc))))))) =
  spec_boundary_loss m theta bc.
Proof.
  rewrite eval_reduce_mean, eval_squares, eval_differences, eval_flatten3.
  unfold spec_boundary_loss. now rewrite flatten3_map2_sub3.
Qed.

Lemma eval_pde_loss (f : list (vec3 expr)) :
  eval theta (reduce_mean (map square (flatten3 f))) =
  spec_pde_loss (map (eval3 theta) f).
Proof.
  rewrite eval_reduce_mean, eval_squares, eval_flatten3. reflexivity.
Qed.

Lemma eval_gradient_scalar (L : expr) (ds : list dvar) :
  map (eval theta) (gradient [L] ds) = map (fun d => eval theta (D d L)) ds.
Proof.
  unfold gradient. rewrite map_map. apply map_ext. intros d.
  cbn [map sum_expr fold_right eval]. ring.
Qed.
End Losses.

Section Training.
Context `{Services}.
Variables (g : train_step_captures).
Variables (bc : list (vec2 Qc * vec3 Qc)) (cp : list (vec2 Qc)).

(** What a graph of [train_step] returns and prints, the parameters
    being what they are when it runs. *)
Lemma train_step_ops_run (s : PINNs) :
  train_step_ops g bc cp s =
    (Ok (fst (fst (step_losses g (trainable_variables s) bc cp)),
         step_gradient g (trainable_variables s) bc cp,
         step_losses g (trainable_variables s) bc cp),
     snd (emit (PrintLoss (step_losses g (trainable_variables s) bc cp)) s)).
Proof.
  set (theta := trainable_variables s).
  set (m := g_boundary_model g). set (f := net_f_ops (g_net_f g) cp).
  set (t := step_losses g theta bc cp).
  cbv beta iota zeta delta [train_step_ops bind read].
  cbv beta iota zeta delta [ret].
  rewrite !eval_reduce_mean_scalar, eval_gradient_scalar.
  fold m f. fold (taped_loss m bc f). fold theta.
  assert (Et : (eval theta (taped_loss m bc f),
                eval theta (reduce_mean (map square
                   (map2 Sub (map Const (flatten3 (map snd bc)))
                      (flatten3 (call_model m (map const2 (map fst bc))))))),
                eval theta (reduce_mean (map square (flatten3 f)))) = t).
  { unfold taped_loss. cbn [eval]. rewrite eval_boundary_loss, eval_pde_loss. reflexivity. }
  assert (E1 : eval theta (taped_loss m bc f) = fst (fst t)) by (now rewrite <- Et).
  rewrite Et, E1. reflexivity.
Qed.

(** A call of [train_step] runs the graph in effect for the shapes of
    its arguments. *)
Lemma train_step_run (s : PINNs) :
  train_step_graph s (List.length bc) (List.length cp) = Some g ->
  exists s1,
    alike s s1 /\
    train_step bc cp s =
      (Ok (fst (fst (step_losses g (trainable_variables s) bc cp)),
           step_gradient g (trainable_variables s) bc cp,
           step_losses g (trainable_variables s) bc cp),
       snd (emit (PrintLoss (step_losses g (trainable_variables s) bc cp)) s1)).
Proof.
  intros Hg. destruct (train_step_concrete_run s _ _ g Hg) as (s1 & E & A).
  exists s1. split; [exact A|].
  unfold train_step. rewrite (bind_ok _ _ _ _ _ E), train_step_ops_run.
  destruct A as [(_ & Tv & _) _]. now rewrite Tv.
Qed.

(** The taped loss is, as a function of the parameters, the sum of the
    two losses of the specification. *)
Lemma taped_loss_value (m : vec3 net) (f : list (vec3 expr)) (theta : list Qc) :
  eval theta (taped_loss m bc f) =
  spec_boundary_loss m theta bc + spec_pde_loss (map (eval3 theta) f).
Proof.
  unfold taped_loss. cbn [eval]. now rewrite eval_boundary_loss, eval_pde_loss.
Qed.
End Training.

(** ** The two phases of [fit] *)

Lemma logged_losses_app (a b : list event) :
  logged_losses (a ++ b) = logged_losses a ++ logged_losses b.
Proof.
  induction a as [|e a IH]; [reflexivity|]. destruct e; simpl; now rewrite IH.
Qed.

Lemma closure_calls_app (a b : list event) :
  closure_calls (a ++ b) = (closure_calls a + closure_calls b)%nat.
Proof.
  unfold closure_calls. now rewrite filter_app, length_app.
Qed.

Lemma gradient_steps_app (a b : list event) :
  gradient_steps (a ++ b) = (gradient_steps a + gradient_steps b)%nat.
Proof.
  unfold gradient_steps. now rewrite filter_app, length_app.
Qed.

Lemma minimize_calls_app (a b : list event) :
  minimize_calls (a ++ b) = (minimize_calls a + minimize_calls b)%nat.
Proof.
  unfold minimize_calls. now rewrite filter_app, length_app.
Qed.

Section Phases.
Context `{Services}.

(** The graphs in effect depend on the normaliser attributes, the
    approximator, nu and the caches only. *)
Lemma same_graphs_fields (s s' : PINNs) :
  model s' = model s -> nu s' = nu s ->
  xmin s' = xmin s -> xmax s' = xmax s -> ymax s' = ymax s ->
  caches s' = caches s ->
  same_graphs s s'.
Proof.
  intros Mo Nu Xi Xa Ym C.
  assert (R : range_attrs s' = range_attrs s) by (unfold range_attrs; now rewrite Xi, Xa).
  apply same_graphs_scaling; try assumption;
    try (rewrite C; first [reflexivity | apply grown_refl]); intros n.
  - unfold scalex_graph. now rewrite C, R.
  - unfold scalex_r_graph. now rewrite C, R.
  - unfold scale_graph. now rewrite C, Ym.
  - unfold scale_r_graph. now rewrite C, Ym.
Qed.

Lemma same_setup_fields (s s' : PINNs) :
  model s' = model s -> epochs s' = epochs s -> nu s' = nu s ->
  xmin s' = xmin s -> xmax s' = xmax s -> ymax s' = ymax s ->
  caches s' = caches s ->
  same_setup s s'.
Proof.
  intros Mo Es Nu Xi Xa Ym C. unfold same_setup.
  repeat (split; [assumption|]). now apply same_graphs_fields.
Qed.

Lemma same_setup_trans (s1 s2 s3 : PINNs) :
  same_setup s1 s2 -> same_setup s2 s3 -> same_setup s1 s3.
Proof.
  intros (A1 & A2 & A3 & A4 & A5 & A6 & A7) (B1 & B2 & B3 & B4 & B5 & B6 & B7).
  unfold same_setup. repeat (split; [congruence|]).
  eapply same_graphs_trans; eassumption.
Qed.

Lemma advance_refl (s : PINNs) : advance s s [] [].
Proof.
  unfold advance. rewrite !app_nil_r. cbn [List.length].
  rewrite Nat.add_0_r. auto using same_setup_refl.
Qed.

Lemma advance_trans (s1 s2 s3 : PINNs) (tr1 tr2 : list event)
    (new1 new2 : list (vec3 Qc)) :
  advance s1 s2 tr1 new1 -> advance s2 s3 tr2 new2 ->
  advance s1 s3 (tr1 ++ tr2) (new1 ++ new2).
Proof.
  intros (S1 & H1 & E1 & T1) (S2 & H2 & E2 & T2). split; [|split; [|split]].
  - eapply same_setup_trans; eassumption.
  - now rewrite H2, H1, app_assoc.
  - rewrite E2, E1, length_app. lia.
  - now rewrite T2, T1, app_assoc.
Qed.

Lemma advance_graph (s s' : PINNs) (tr : list event) (new : list (vec3 Qc)) (b n : nat) :
  advance s s' tr new -> train_step_graph s' b n = train_step_graph s b n.
Proof.
  intros ((_ & _ & _ & _ & _ & _ & G) & _). apply G.
Qed.

Lemma emit_run (e : event) (s : PINNs) :
  exists s', emit e s = (Ok tt, s') /\ advance s s' [e] [].
Proof.
  eexists. split; [reflexivity|]. split; [now apply same_setup_fields|].
  cbn. rewrite app_nil_r, Nat.add_0_r. repeat split.
Qed.

Lemma set_sopt_run (o : SoptState) (s : PINNs) :
  exists s', set_sopt o s = (Ok tt, s') /\ advance s s' [] [].
Proof.
  eexists. split; [reflexivity|]. split; [now apply same_setup_fields|].
  cbn. rewrite !app_nil_r, Nat.add_0_r. repeat split.
Qed.

Variables (g : train_step_captures).
Variables (bc : list (vec2 Qc * vec3 Qc)) (cp : list (vec2 Qc)).

(** One pass of the loop of phase one. *)
Lemma epoch_body_run (s : PINNs) :
  train_step_graph s (List.length bc) (List.length cp) = Some g ->
  exists s',
    epoch_body bc cp s = (Ok tt, s') /\
    advance s s'
      [PrintEpoch (epoch s);
       PrintLoss (step_losses g (trainable_variables s) bc cp);
       ApplyGradients (step_gradient g (trainable_variables s) bc cp)]
      [step_losses g (trainable_variables s) bc cp] /\
    trainable_variables s' =
      snd (apply_gradients (optimizer s)
             (combine (step_gradient g (trainable_variables s) bc cp)
                      (trainable_variables s))) /\
    optimizer s' =
      fst (apply_gradients (optimizer s)
             (combine (step_gradient g (trainable_variables s) bc cp)
                      (trainable_variables s))).
Proof.
  intros Hg.
  destruct (train_step_run g bc cp (snd (emit (PrintEpoch (epoch s)) s)) Hg)
    as (s1 & A1 & E1).
  cbn [emit snd trainable_variables] in E1.
  pose proof A1 as [(Mo & Tv & Op & Es & Hh & Ep & So & Nu & Ym & Xa & Xi & Tr) G1].
  cbn [emit snd model trainable_variables optimizer epochs hist epoch sopt nu ymax
       xmax xmin trace] in Mo, Tv, Op, Es, Hh, Ep, So, Nu, Ym, Xa, Xi, Tr.
  assert (S1 : same_setup s s1).
  { unfold same_setup. repeat (split; [assumption|]). exact G1. }
  set (t := step_losses g (trainable_variables s) bc cp) in *.
  set (gr := step_gradient g (trainable_variables s) bc cp) in *.
  set (upd := apply_gradients (optimizer s) (combine gr (trainable_variables s))).
  exists (mkPINNs _ (model s1) (snd upd) (fst upd) (epochs s1) (hist s1 ++ [t])
            (epoch s1 + 1) (sopt s1) (nu s1) (ymax s1) (xmax s1) (xmin s1)
            ((trace s1 ++ [PrintLoss t]) ++ [ApplyGradients gr]) (caches s1)).
  split; [|split; [|split; reflexivity]].
  - unfold epoch_body. rewrite read_run.
    rewrite (bind_ok (emit (PrintEpoch (epoch s))) _ s _ tt eq_refl).
    rewrite (bind_ok _ _ _ _ _ E1), !read_run.
    cbn [emit snd fst trainable_variables optimizer]. rewrite Tv, Op.
    reflexivity.
  - split; [eapply same_setup_trans; [exact S1 | apply same_setup_fields; reflexivity]|].
    cbn [hist epoch trace List.length]. rewrite Hh, Ep, Tr, <- !app_assoc.
    repeat split.
Qed.

(** One invocation of the closure. *)
Lemma func_run (p : list Qc) (s : PINNs) :
  train_step_graph s (List.length bc) (List.length cp) = Some g ->
  exists s',
    func bc cp p s =
      (Ok (fst (fst (step_losses g p bc cp)), step_gradient g p bc cp), s') /\
    advance s s'
      [AssignParams p; PrintEpoch (epoch s); PrintLoss (step_losses g p bc cp)]
      [step_losses g p bc cp] /\
    trainable_variables s' = p /\ optimizer s' = optimizer s /\ sopt s' = sopt s.
Proof.
  intros Hg.
  set (s0 := mkPINNs _ (model s) p (optimizer s) (epochs s) (hist s) (epoch s)
               (sopt s) (nu s) (ymax s) (xmax s) (xmin s)
               ((trace s ++ [AssignParams p]) ++ [PrintEpoch (epoch s)]) (caches s)).
  destruct (train_step_run g bc cp s0 Hg) as (s1 & A1 & E1).
  pose proof A1 as [(Mo & Tv & Op & Es & Hh & Ep & So & Nu & Ym & Xa & Xi & Tr) G1].
  cbn [s0 model trainable_variables optimizer epochs hist epoch sopt nu ymax
       xmax xmin trace] in Mo, Tv, Op, Es, Hh, Ep, So, Nu, Ym, Xa, Xi, Tr, E1.
  assert (S1 : same_setup s s1).
  { unfold same_setup. repeat (split; [assumption|]). exact G1. }
  set (t := step_losses g p bc cp) in *.
  set (gr := step_gradient g p bc cp) in *.
  exists (mkPINNs _ (model s1) (trainable_variables s1) (optimizer s1) (epochs s1)
            (hist s1 ++ [t]) (epoch s1 + 1) (sopt s1) (nu s1) (ymax s1) (xmax s1)
            (xmin s1) (trace s1 ++ [PrintLoss t]) (caches s1)).
  split; [|split; [|split; [|split]]]; try assumption.
  - transitivity
      (bind (train_step bc cp)
         (fun r => incr_epoch ;;; hist_append (snd r) ;;;
                   ret (fst (fst r), dynamic_stitch (snd (fst r)))) s0);
      [reflexivity|].
    rewrite (bind_ok _ _ _ _ _ E1). reflexivity.
  - split; [eapply same_setup_trans; [exact S1 | apply same_setup_fields; reflexivity]|].
    cbn [hist epoch trace List.length]. rewrite Hh, Ep, Tr, <- !app_assoc.
    repeat split.
Qed.

(** Phase one: [n] passes, each of which applies gradients once, prints
    its triple and appends it, and none of which invokes the closure or
    calls [minimize]. *)
Lemma phase1_run (n : nat) (s : PINNs) :
  train_step_graph s (List.length bc) (List.length cp) = Some g ->
  exists s' tr new,
    for_range n (epoch_body bc cp) s = (Ok tt, s') /\
    advance s s' tr new /\
    logged_losses tr = new /\ List.length new = n /\
    closure_calls tr = 0%nat /\ gradient_steps tr = n /\
    minimize_calls tr = 0%nat.
Proof.
  revert s. induction n as [|n IH]; intros s Hs.
  - exists s, [], []. split; [reflexivity|]. split; [apply advance_refl|].
    repeat split.
  - destruct (epoch_body_run s Hs) as (s1 & E1 & A1 & _).
    assert (Hs1 : train_step_graph s1 (List.length bc) (List.length cp) = Some g)
      by (rewrite (advance_graph _ _ _ _ _ _ A1); exact Hs).
    destruct (IH s1 Hs1) as (s2 & tr & new & E2 & A2 & L & N & C & G & Mi).
    eexists s2, _, _. split; [|split; [exact (advance_trans _ _ _ _ _ _ _ A1 A2)|]].
    + cbn [for_range]. rewrite (bind_ok _ _ _ _ _ E1). exact E2.
    + rewrite logged_losses_app, closure_calls_app, gradient_steps_app,
        minimize_calls_app, length_app, L, N, C, G, Mi.
      repeat split.
Qed.

(** Phase two: every invocation of the closure prints its triple and
    appends it; no gradients are applied by the phase-one optimiser. *)
Lemma run_lbfgs_run (r : lbfgs_run SoptState) (s : PINNs) :
  train_step_graph s (List.length bc) (List.length cp) = Some g ->
  exists o s' tr new,
    run_lbfgs r (func bc cp) s = (Ok o, s') /\
    advance s s' tr new /\
    logged_losses tr = new /\ closure_calls tr = List.length new /\
    gradient_steps tr = 0%nat /\ minimize_calls tr = 0%nat.
Proof.
  revert s. induction r as [o|p k IH]; intros s Hs.
  - exists o, s, [], []. split; [reflexivity|]. split; [apply advance_refl|].
    repeat split.
  - destruct (emit_run (InvokeClosure p) s) as (s0 & E0 & A0).
    assert (Hs0 : train_step_graph s0 (List.length bc) (List.length cp) = Some g)
      by (rewrite (advance_graph _ _ _ _ _ _ A0); exact Hs).
    destruct (func_run p s0 Hs0) as (s1 & E1 & A1 & _).
    assert (Hs1 : train_step_graph s1 (List.length bc) (List.length cp) = Some g)
      by (rewrite (advance_graph _ _ _ _ _ _ A1); exact Hs0).
    destruct (IH (fst (fst (step_losses g p bc cp))) (step_gradient g p bc cp) s1 Hs1)
      as (o & s2 & tr & new & E2 & A2 & L & C & G & Mi).
    eexists o, s2, _, _.
    split; [|split; [exact (advance_trans _ _ _ _ _ _ _ A0
                              (advance_trans _ _ _ _ _ _ _ A1 A2))|]].
    + cbn [run_lbfgs]. rewrite (bind_ok _ _ _ _ _ E0), (bind_ok _ _ _ _ _ E1).
      cbn [fst snd]. exact E2.
    + rewrite !logged_losses_app, !closure_calls_app, !gradient_steps_app,
        !minimize_calls_app, !length_app, L, C, G, Mi.
      repeat split.
Qed.

(** [minimize]: the call, the invocations of the closure, the return. *)
Lemma sopt_minimize_run (s : PINNs) :
  train_step_graph s (List.length bc) (List.length cp) = Some g ->
  exists s' tr new,
    sopt_minimize (func bc cp) s = (Ok tt, s') /\
    advance s s' (MinimizeCall :: tr ++ [MinimizeReturn]) new /\
    logged_losses tr = new /\ closure_calls tr = List.length new /\
    gradient_steps tr = 0%nat /\ minimize_calls tr = 0%nat.
Proof.
  intros Hs.
  destruct (emit_run MinimizeCall s) as (s0 & E0 & A0).
  assert (Hs0 : train_step_graph s0 (List.length bc) (List.length cp) = Some g)
    by (rewrite (advance_graph _ _ _ _ _ _ A0); exact Hs).
  destruct (run_lbfgs_run (minimize (sopt s0) (trainable_variables s0)) s0 Hs0)
    as (o & s1 & tr & new & E1 & A1 & L & C & G & Mi).
  destruct (set_sopt_run o s1) as (s2 & E2 & A2).
  destruct (emit_run MinimizeReturn s2) as (s3 & E3 & A3).
  exists s3, tr, new. split; [|split].
  - unfold sopt_minimize. rewrite (bind_ok _ _ _ _ _ E0), !read_run.
    rewrite (bind_ok _ _ _ _ _ E1), (bind_ok _ _ _ _ _ E2). exact E3.
  - pose proof (advance_trans _ _ _ _ _ _ _ A0
                  (advance_trans _ _ _ _ _ _ _ A1
                     (advance_trans _ _ _ _ _ _ _ A2 A3))) as A.
    cbn [app] in A. rewrite app_nil_r in A. exact A.
  - auto.
Qed.
End Phases.

(** ** [fit] as a whole *)

Section Fit.
Context `{Services}.

(** What a call of [fit] does to an object in any state: it refits the
    normaliser on the boundary data, runs phase one, calls [minimize],
    and returns the history, to which both phases have appended. *)
Lemma fit_run (bc : list (vec2 Qc * vec3 Qc)) (cp : list (vec2 Qc)) (s : PINNs) :
  exists s' tr1 tr2 new1 new2,
    fit bc cp s = (Ok (hist s ++ new1 ++ new2), s') /\
    hist s' = hist s ++ new1 ++ new2 /\
    epoch s' = (epoch s + List.length new1 + List.length new2)%nat /\
    trace s' = trace s ++ tr1 ++ MinimizeCall :: tr2 ++ [MinimizeReturn] /\
    (logged_losses tr1 = new1 /\ List.length new1 = epochs s /\
     closure_calls tr1 = 0%nat /\ gradient_steps tr1 = epochs s /\
     minimize_calls tr1 = 0%nat) /\
    (logged_losses tr2 = new2 /\ closure_calls tr2 = List.length new2 /\
     gradient_steps tr2 = 0%nat /\ minimize_calls tr2 = 0%nat) /\
    (xmin s' = Some (reduce_min2 (map fst bc)) /\
     xmax s' = Some (reduce_max2 (abs2 (map fst bc))) /\
     ymax s' = Some (reduce_max3 (abs3 (map snd bc)))) /\
    model s' = model s /\ epochs s' = epochs s /\ nu s' = nu s /\
    same_graphs (snd (fit_scalex (map fst bc) (snd (fit_scale (map snd bc) s)))) s' /\
    lookup Nat.eqb (List.length cp) (scalex_cache (caches s')) =
      scalex_graph (snd (fit_scalex (map fst bc) (snd (fit_scale (map snd bc) s))))
        (List.length cp).
Proof.
  destruct (fit_scale_run s (map snd bc))
    as (s1 & E1 & Y1 & Lo1 & Hi1 & Hh1 & Ep1 & Tr1 & Nu1 & Mo1 & _ & Es1 & _).
  destruct (fit_scalex_run s1 (map fst bc))
    as (s2 & E2 & Lo2 & Hi2 & Y2 & Hh2 & Ep2 & Tr2 & Nu2 & Mo2 & _ & Es2 & _).
  set (lo := reduce_min2 (map fst bc)) in *.
  set (hi := reduce_max2 (abs2 (map fst bc))) in *.
  set (ym := reduce_max3 (abs3 (map snd bc))) in *.
  assert (F2 : fitted s2) by (exists lo, hi, ym; repeat split; congruence).
  destruct (fitted_graphs s2 F2 0%nat (List.length cp)) as ((gx & Gx) & _).
  destruct (scalex_run s2 gx cp Gx) as (s2' & Ex & Ax).
  pose proof Ax as [(Mo & Tv & Op & Es & Hh & Ep & So & Nu & Ym & Xa & Xi & Tr) Gr].
  assert (F2' : fitted s2') by (exists lo, hi, ym; repeat split; congruence).
  set (bc' := combine (map (minmax_row lo hi) (map fst bc))
                      (map (fun r => row3 div r ym) (map snd bc))).
  set (cp' := scalex_ops gx cp).
  destruct (fitted_graphs s2' F2' (List.length bc') (List.length cp'))
    as (_ & _ & _ & (g & Hg)).
  destruct (phase1_run g bc' cp' (epochs s2') s2' Hg)
    as (s3 & tr1 & new1 & E3 & A3 & L1 & N1 & C1 & G1 & M1).
  assert (Hg3 : train_step_graph s3 (List.length bc') (List.length cp') = Some g)
    by (rewrite (advance_graph _ _ _ _ _ _ A3); exact Hg).
  destruct (sopt_minimize_run g bc' cp' s3 Hg3)
    as (s4 & tr2 & new2 & E4 & A4 & L2 & C2 & G2 & M2).
  exists s4, tr1, tr2, new1, new2.
  destruct A3 as (S3 & H3 & P3 & T3), A4 as (S4 & H4 & P4 & T4).
  destruct S3 as (m3 & e3 & n3 & lo3 & hi3 & y3 & g3).
  destruct S4 as (m4 & e4 & n4 & lo4 & hi4 & y4 & g4).
  assert (Hhist : hist s4 = hist s ++ new1 ++ new2).
  { rewrite H4, H3, Hh, Hh2, Hh1. now rewrite app_assoc. }
  split; [|split; [exact Hhist|]].
  - unfold fit. rewrite (bind_ok _ _ _ _ _ E1), (bind_ok _ _ _ _ _ E2).
    rewrite (bind_ok _ _ _ _ _ Ex), read_run.
    fold bc' cp'. rewrite (bind_ok _ _ _ _ _ E3), (bind_ok _ _ _ _ _ E4).
    unfold read. now rewrite Hhist.
  - assert (Es' : epochs s2' = epochs s) by congruence.
    split; [rewrite P4, P3, Ep, Ep2, Ep1; lia|].
    split; [rewrite T4, T3, Tr, Tr2, Tr1; now rewrite <- app_assoc|].
    split; [rewrite <- Es'; auto|].
    split; [auto|].
    split; [repeat split; congruence|].
    repeat (split; [congruence|]).
    rewrite E1. cbn [snd]. rewrite E2. cbn [snd].
    pose proof (same_graphs_trans _ _ _ g3 g4) as g34.
    split; [exact (same_graphs_trans _ _ _ Gr g34)|].
    rewrite Gx. destruct (scalex_traced _ _ _ _ Ex) as (g' & L & _).
    assert (Eg : g' = gx).
    { destruct Gr as (Gs & _). specialize (Gs (List.length cp)).
      rewrite Gx in Gs. unfold scalex_graph in Gs. rewrite L in Gs.
      cbn [or_else] in Gs. congruence. }
    subst g'. destruct g34 as (_ & _ & _ & _ & _ & _ & (K & _) & _).
    now apply K.
Qed.
End Fit.

(** ** Training, history and prediction *)

Lemma before_minimize_app (tr rest : list event) :
  minimize_calls tr = 0%nat ->
  before_minimize (tr ++ MinimizeCall :: rest) = tr /\
  after_minimize (tr ++ MinimizeCall :: rest) = rest.
Proof.
  induction tr as [|e tr IH]; intros Hz; [split; reflexivity|].
  destruct e; cbn in Hz; try discriminate;
    destruct (IH Hz) as [Eb Ea]; cbn; now rewrite Eb, Ea.
Qed.

(** ** Calls that raise *)

Section Raising.
Context `{Services}.

(** Without a graph in effect a call of a scaling method is a trace that
    raises at the first attribute that does not exist, and the object is
    left as it was. *)
Lemma scalex_concrete_none (s : PINNs) (n : nat) :
  scalex_graph s n = None ->
  scalex_concrete n s =
    (Raise (AttributeError match xmin s with None => "xmin" | Some _ => "xmax" end), s).
Proof.
  unfold scalex_graph. destruct (lookup Nat.eqb n (scalex_cache (caches s))) eqn:L;
    cbn [or_else]; [discriminate|]. intros R.
  apply tf_function_raise; [exact L|].
  unfold range_attrs in R. cbv beta delta [bind getattr ret].
  destruct (xmin s); [|reflexivity]. destruct (xmax s); [discriminate | reflexivity].
Qed.

Lemma scalex_r_concrete_none (s : PINNs) (n : nat) :
  scalex_r_graph s n = None ->
  scalex_r_concrete n s =
    (Raise (AttributeError match xmax s with None => "xmax" | Some _ => "xmin" end), s).
Proof.
  unfold scalex_r_graph. destruct (lookup Nat.eqb n (scalex_r_cache (caches s))) eqn:L;
    cbn [or_else]; [discriminate|]. intros R.
  apply tf_function_raise; [exact L|].
  unfold range_attrs in R. cbv beta delta [bind getattr ret].
  destruct (xmax s); [|reflexivity]. destruct (xmin s); [discriminate | reflexivity].
Qed.

Lemma scale_r_concrete_none (s : PINNs) (n : nat) :
  scale_r_graph s n = None ->
  scale_r_concrete n s = (Raise (AttributeError "ymax"), s).
Proof.
  unfold scale_r_graph. destruct (lookup Nat.eqb n (scale_r_cache (caches s))) eqn:L;
    cbn [or_else]; [discriminate|]. intros R.
  apply tf_function_raise; [exact L|].
  cbv beta delta [bind getattr ret]. now rewrite R.
Qed.

(** Without the attribute [xmin] and without a graph of [scalex] for the
    shape, [scalex] raises at its first read, and so does [predict],
    which starts with [scalex]; the object is left as it was. *)
Lemma scalex_unfitted {T : Type} `{Elt T} (s : PINNs) (x : list (vec2 T)) :
  xmin s = None -> lookup Nat.eqb (List.length x) (scalex_cache (caches s)) = None ->
  scalex x s = (Raise (AttributeError "xmin"), s).
Proof.
  intros Hx L. unfold scalex. apply bind_raise.
  rewrite scalex_concrete_none; [now rewrite Hx|].
  unfold scalex_graph, range_attrs. now rewrite L, Hx.
Qed.

Lemma predict_unfitted (s : PINNs) (cp : list (vec2 Qc)) :
  xmin s = None -> lookup Nat.eqb (List.length cp) (scalex_cache (caches s)) = None ->
  predict cp s = (Raise (AttributeError "xmin"), s).
Proof.
  intros Hx L. unfold predict. apply bind_raise. now apply scalex_unfitted.
Qed.

Lemma call_model_length (m : vec3 net) (theta : list Qc) (ps : list (vec2 Qc)) :
  List.length (map (eval3 theta) (call_model m (map const2 ps))) = List.length ps.
Proof.
  unfold call_model. now rewrite !length_map.
Qed.

(** What [predict] returns, whether it returns or raises, and what it
    leaves: the graphs of [scalex] and of [scale_r] in effect for the
    shape of its argument decide. *)
Lemma predict_run (s : PINNs) (cp : list (vec2 Qc)) :
  fst (predict cp s) =
    match scalex_graph s (List.length cp) with
    | None =>
        Raise (AttributeError match xmin s with None => "xmin" | Some _ => "xmax" end)
    | Some gx =>
        match scale_r_graph s (List.length cp) with
        | None => Raise (AttributeError "ymax")
        | Some gy =>
            Ok (scale_r_ops gy
                  (map (eval3 (trainable_variables s))
                     (call_model (model s) (map const2 (scalex_ops gx cp)))))
        end
    end /\
  alike s (snd (predict cp s)).
Proof.
  unfold predict.
  destruct (scalex_graph s (List.length cp)) as [gx|] eqn:Gx.
  - destruct (scalex_run s gx cp Gx) as (s1 & E1 & A1).
    rewrite (bind_ok _ _ _ _ _ E1), !read_run.
    pose proof A1 as [(Mo & Tv & _) (_ & _ & _ & Gr & _)].
    set (u := map (eval3 (trainable_variables s1)) _).
    assert (Lu : List.length u = List.length cp).
    { subst u. rewrite call_model_length. unfold scalex_ops. apply length_map. }
    specialize (Gr (List.length cp)). rewrite <- Lu in Gr.
    destruct (scale_r_graph s (List.length cp)) as [gy|] eqn:Gy; rewrite <- Lu in Gy.
    + rewrite Gy in Gr. destruct (scale_r_run s1 gy u Gr) as (s2 & E2 & A2).
      rewrite E2. cbn [fst snd]. split; [|exact (alike_trans _ _ _ A1 A2)].
      subst u. now rewrite Tv, Mo.
    + rewrite Gy in Gr. unfold scale_r.
      rewrite (bind_raise _ _ _ _ _ (scale_r_concrete_none s1 _ Gr)).
      cbn [fst snd]. split; [reflexivity | exact A1].
  - assert (E : scalex cp s =
                 (Raise (AttributeError
                           match xmin s with None => "xmin" | Some _ => "xmax" end), s)).
    { unfold scalex. apply bind_raise. now apply scalex_concrete_none. }
    rewrite (bind_raise _ _ _ _ _ E). cbn [fst snd].
    split; [reflexivity | apply alike_refl].
Qed.
End Raising.

Section Orchestrator.
Context `{Services}.

(** C5. In a training step the boundary loss is the mean of the squared
    elementwise differences between the boundary targets and the
    predictions of the approximator at the boundary points (both as
    [fit] passes them, normalised), the PDE loss is the mean of the
    squared elementwise residuals, those that [net_f] returns, the loss
    whose gradient is taken is the term whose value is their plain sum
    for every value of the parameters, and the triple that the step
    returns and prints, and that a pass of phase one and an invocation of
    the closure append to the history, is (total, boundary, PDE) in that
    order.  The step runs the graph [g] of [train_step] in effect for the
    shapes of the two batches, which holds the approximator and the
    graph of [net_f] in effect. *)
Theorem train_step_losses (s : PINNs) (g : train_step_captures)
    (bc : list (vec2 Qc * vec3 Qc)) (cp : list (vec2 Qc)) :
  train_step_graph s (List.length bc) (List.length cp) = Some g ->
  net_f_graph s (List.length cp) = Some (g_net_f g) ->
  exists f s0,
    net_f cp s = (Ok f, s0) /\
    (forall theta',
        eval theta' (taped_loss (g_boundary_model g) bc f) =
        spec_boundary_loss (g_boundary_model g) theta' bc +
        spec_pde_loss (map (eval3 theta') f)) /\
    let theta := trainable_variables s in
    let bl := spec_boundary_loss (g_boundary_model g) theta bc in
    let pl := spec_pde_loss (map (eval3 theta) f) in
    (exists s1,
        alike s s1 /\
        train_step bc cp s =
          (Ok (bl + pl,
               map (fun d => eval theta (D d (taped_loss (g_boundary_model g) bc f)))
                   (map DPar (seq 0 (List.length theta))),
               (bl + pl, bl, pl)),
           snd (emit (PrintLoss (bl + pl, bl, pl)) s1))) /\
    hist (snd (epoch_body bc cp s)) = hist s ++ [(bl + pl, bl, pl)] /\
    forall p,
      hist (snd (func bc cp p s)) =
      hist s ++ [(spec_boundary_loss (g_boundary_model g) p bc +
                    spec_pde_loss (map (eval3 p) f),
                  spec_boundary_loss (g_boundary_model g) p bc,
                  spec_pde_loss (map (eval3 p) f))].
Proof.
  intros Hg Hf.
  destruct (net_f_run s (g_net_f g) cp Hf) as (s0 & E0 & _).
  exists (net_f_ops (g_net_f g) cp), s0. split; [exact E0|].
  split; [apply taped_loss_value|].
  cbv zeta. split; [|split].
  - destruct (train_step_run g bc cp s Hg) as (s1 & A1 & E1).
    exists s1. split; [exact A1 | exact E1].
  - destruct (epoch_body_run g bc cp s Hg) as (s' & E & (_ & Hh & _) & _).
    rewrite E. exact Hh.
  - intros p.
    destruct (func_run g bc cp p s Hg) as (s' & E & (_ & Hh & _) & _).
    rewrite E. exact Hh.
Qed.

(** C6. [fit] on a freshly built object returns a history whose length
    is the number of phase-one epochs plus the number of times the
    quasi-Newton optimiser invoked the closure; its first [epochs]
    entries are the triples printed before [minimize] was called, in
    that order, the rest are those printed after; and on an object in
    any state [fit] returns, and leaves, the old history followed by new
    entries. *)
Theorem fit_history (m : vec3 net) (variables : list Qc) (o : OptState) (n : nat)
    (bc : list (vec2 Qc * vec3 Qc)) (cp : list (vec2 Qc)) :
  (exists h s',
      fit bc cp (init m variables o n) = (Ok h, s') /\
      hist s' = h /\
      List.length h = (n + closure_calls (trace s'))%nat /\
      firstn n h = logged_losses (before_minimize (trace s')) /\
      skipn n h = logged_losses (after_minimize (trace s')) /\
      gradient_steps (before_minimize (trace s')) = n /\
      closure_calls (before_minimize (trace s')) = 0%nat /\
      gradient_steps (after_minimize (trace s')) = 0%nat) /\
  (forall s : PINNs,
      exists new s',
        fit bc cp s = (Ok (hist s ++ new), s') /\ hist s' = hist s ++ new).
Proof.
  split.
  - destruct (fit_run bc cp (init m variables o n))
      as (s' & tr1 & tr2 & new1 & new2 & E & Hh & _ & T &
          (L1 & N1 & C1 & G1 & M1) & (L2 & C2 & G2 & M2) & _).
    cbn [init hist trace epochs app] in E, Hh, T, N1, G1.
    exists (new1 ++ new2), s'. split; [exact E|]. split; [exact Hh|].
    destruct (before_minimize_app tr1 (tr2 ++ [MinimizeReturn]) M1) as [Eb Ea].
    rewrite T, Eb, Ea.
    rewrite closure_calls_app. change (MinimizeCall :: tr2 ++ [MinimizeReturn])
      with ([MinimizeCall] ++ tr2 ++ [MinimizeReturn]).
    rewrite !closure_calls_app, !logged_losses_app, !gradient_steps_app.
    rewrite C1, C2, G2, L1, L2, length_app, N1.
    cbn [closure_calls gradient_steps logged_losses filter is_invoke is_apply
         List.length].
    rewrite app_nil_r, <- N1, firstn_app, skipn_app, Nat.sub_diag.
    rewrite firstn_all, skipn_all, firstn_O, skipn_O, app_nil_r.
    repeat split; auto; lia.
  - intros s.
    destruct (fit_run bc cp s) as (s' & tr1 & tr2 & new1 & new2 & E & Hh & _).
    exists (new1 ++ new2), s'. auto.
Qed.

(** C7. Whatever the state of the object and the number of epochs, zero
    included, [fit] returns, and what happened during the call is: all
    the passes of phase one (as many applications of gradients as there
    are epochs, no call of [minimize], no invocation of the closure),
    then the one call of [minimize], then invocations of the closure
    only, then the return of [minimize]. *)
Theorem minimize_after_phase_one (bc : list (vec2 Qc * vec3 Qc))
    (cp : list (vec2 Qc)) (s : PINNs) :
  exists h s' tr1 tr2,
    fit bc cp s = (Ok h, s') /\
    trace s' = trace s ++ tr1 ++ MinimizeCall :: tr2 ++ [MinimizeReturn] /\
    gradient_steps tr1 = epochs s /\
    minimize_calls tr1 = 0%nat /\
    closure_calls tr1 = 0%nat /\
    gradient_steps tr2 = 0%nat /\
    minimize_calls tr2 = 0%nat /\
    minimize_calls (tr1 ++ MinimizeCall :: tr2 ++ [MinimizeReturn]) = 1%nat.
Proof.
  destruct (fit_run bc cp s)
    as (s' & tr1 & tr2 & new1 & new2 & E & _ & _ & T &
        (L1 & N1 & C1 & G1 & M1) & (L2 & C2 & G2 & M2) & _).
  exists (hist s ++ new1 ++ new2), s', tr1, tr2.
  repeat (split; [assumption|]).
  change (MinimizeCall :: tr2 ++ [MinimizeReturn])
    with ([MinimizeCall] ++ tr2 ++ [MinimizeReturn]).
  rewrite !minimize_calls_app, M1, M2. reflexivity.
Qed.

(** X16. [__init__] sets nu to 1/450, and neither [fit] nor [predict]
    ever changes it. *)
Lemma nu_fixed (m : vec3 net) (variables : list Qc) (o : OptState) (n : nat) :
  nu (init m variables o n) = 1 / of_nat 450 /\
  (forall bc cp s, nu (snd (fit bc cp s)) = nu s) /\
  (forall cp s, nu (snd (predict cp s)) = nu s).
Proof.
  split; [reflexivity|]. split.
  - intros bc cp s.
    destruct (fit_run bc cp s) as (s' & tr1 & tr2 & new1 & new2 & E & R).
    rewrite E. cbn [snd]. apply R.
  - intros cp s. destruct (predict_run s cp) as [_ [A _]]. apply A.
Qed.

(** C8. On an object on which [fit] has not run, [predict] and [scalex]
    raise at once: the attribute [xmin] does not exist.  Nothing is
    computed, nothing is put in its place, and the object is left as it
    was, so that the next call fails in the same way. *)
Theorem predict_before_fit (m : vec3 net) (variables : list Qc) (o : OptState)
    (n : nat) (cp cp' : list (vec2 Qc)) :
  let s := init m variables o n in
  xmin s = None /\ xmax s = None /\ ymax s = None /\
  predict cp s = (Raise (AttributeError "xmin"), s) /\
  scalex cp s = (Raise (AttributeError "xmin"), s) /\
  predict cp' (snd (predict cp s)) = (Raise (AttributeError "xmin"), s).
Proof.
  intros s.
  assert (Hx : xmin s = None) by reflexivity.
  pose proof (predict_unfitted s cp Hx eq_refl) as E.
  split; [exact Hx|]. split; [reflexivity|]. split; [reflexivity|].
  split; [exact E|]. split; [exact (scalex_unfitted s cp Hx eq_refl)|].
  rewrite E. exact (predict_unfitted s cp' Hx eq_refl).
Qed.

(** C9. [predict] leaves every attribute of the object, and every graph
    in effect, as it found them; what it returns, or raises, is the same
    on any two objects that agree on those, so that a second call with
    the same points returns what the first returned. *)
Theorem predict_deterministic (s : PINNs) (cp : list (vec2 Qc)) :
  alike s (snd (predict cp s)) /\
  fst (predict cp (snd (predict cp s))) = fst (predict cp s) /\
  forall s', alike s s' -> fst (predict cp s') = fst (predict cp s).
Proof.
  assert (D : forall s', alike s s' -> fst (predict cp s') = fst (predict cp s)).
  { intros s' [(Mo & Tv & _ & _ & _ & _ & _ & _ & _ & _ & Xi & _) (Gx & _ & _ & Gr & _)].
    rewrite (proj1 (predict_run s' cp)), (proj1 (predict_run s cp)).
    now rewrite Gx, Gr, Mo, Tv, Xi. }
  split; [apply predict_run|]. split; [|exact D].
  apply D, predict_run.
Qed.

(** C10. The history and the epoch counter start empty and at zero and
    outlive a call of [fit]: a second call on the same object returns the
    triples of the first call followed by its own, moves the epoch
    counter on from where the first call left it, by one per new triple,
    and refits the normaliser on its own boundary data. *)
Theorem fit_twice (m : vec3 net) (variables : list Qc) (o : OptState) (n : nat)
    (bc1 bc2 : list (vec2 Qc * vec3 Qc)) (cp1 cp2 : list (vec2 Qc)) :
  let s0 := init m variables o n in
  hist s0 = [] /\ epoch s0 = 0%nat /\
  exists h1 s1 new s2,
    fit bc1 cp1 s0 = (Ok h1, s1) /\
    fit bc2 cp2 s1 = (Ok (h1 ++ new), s2) /\
    hist s1 = h1 /\ epoch s1 = List.length h1 /\
    hist s2 = h1 ++ new /\
    epoch s2 = (epoch s1 + List.length new)%nat /\
    List.length new = (n + closure_calls (after_minimize
                             (skipn (List.length (trace s1)) (trace s2))))%nat /\
    xmin s2 = Some (reduce_min2 (map fst bc2)) /\
    xmax s2 = Some (reduce_max2 (abs2 (map fst bc2))) /\
    ymax s2 = Some (reduce_max3 (abs3 (map snd bc2))).
Proof.
  cbv zeta. split; [reflexivity|]. split; [reflexivity|].
  destruct (fit_run bc1 cp1 (init m variables o n))
    as (s1 & ta1 & ta2 & na1 & na2 & E1 & Hh1 & Ep1 & T1 & _ & _ & _ & _ & Es1 & _).
  destruct (fit_run bc2 cp2 s1)
    as (s2 & tb1 & tb2 & nb1 & nb2 & E2 & Hh2 & Ep2 & T2 &
        (L1 & N1 & C1 & G1 & M1) & (L2 & C2 & G2 & M2) & (Lo & Hi & Ym) & _).
  cbn [init hist epoch epochs app Nat.add] in E1, Hh1, Ep1, Es1.
  exists (na1 ++ na2), s1, (nb1 ++ nb2), s2.
  rewrite Hh1 in E2, Hh2.
  split; [exact E1|]. split; [exact E2|]. split; [exact Hh1|].
  split; [rewrite Ep1, length_app; reflexivity|].
  split; [exact Hh2|].
  split; [rewrite Ep2, length_app; lia|].
  split; [|auto].
  rewrite T2, skipn_app, Nat.sub_diag, skipn_all, skipn_O. cbn [app].
  destruct (before_minimize_app tb1 (tb2 ++ [MinimizeReturn]) M1) as [_ Ea].
  rewrite Ea, closure_calls_app, C2, length_app, N1, Es1.
  cbn. lia.
Qed.
End Orchestrator.

(** ** The normaliser on given data, and the concrete instance *)

Section Bounds.
Context `{Services}.

(** A call of a scaling method leaves every attribute and every graph in
    effect as it was, whether it returns or raises. *)
Lemma scalex_alike {T : Type} `{Elt T} (x : list (vec2 T)) (s : PINNs) :
  alike s (snd (scalex x s)).
Proof.
  destruct (scalex_graph s (List.length x)) as [g|] eqn:G.
  - destruct (scalex_run s g x G) as (s' & E & A). now rewrite E.
  - unfold scalex. rewrite (bind_raise _ _ _ _ _ (scalex_concrete_none s _ G)).
    apply alike_refl.
Qed.

(** After [fit_scalex] a first call of [scalex] for a shape traces the
    graph with the range just stored. *)
Lemma scalex_after_fit_scalex (s : PINNs) (x : list (vec2 Qc)) (n : nat) :
  lookup Nat.eqb n (scalex_cache (caches s)) = None ->
  scalex_graph (snd (fit_scalex x s)) n = Some (reduce_min2 x, reduce_max2 (abs2 x)).
Proof.
  intros L. destruct (fit_scalex_run s x)
    as (s1 & E & Lo & Hi & _ & _ & _ & _ & _ & _ & _ & _ & _ & _ & C).
  rewrite E. cbn [snd]. unfold scalex_graph, range_attrs. now rewrite C, L, Lo, Hi.
Qed.

(** C3, amended. After [fit_scalex] on data whose stored range is not
    degenerate, on an object on which [scalex] has not been traced for
    the shape of its argument, [scalex] maps the componentwise minimum
    of the data to 0 and, when no coordinate of the data is negative,
    the componentwise maximum to 1. *)
Theorem scalex_fitted_bounds (s : PINNs) (x : list (vec2 Qc)) :
  lookup Nat.eqb 1%nat (scalex_cache (caches s)) = None ->
  fst (reduce_max2 (abs2 x)) <> fst (reduce_min2 x) ->
  snd (reduce_max2 (abs2 x)) <> snd (reduce_min2 x) ->
  let s' := snd (fit_scalex x s) in
  (exists s1,
      scalex (T:=Qc) [reduce_min2 x] s' = (Ok [(0, 0)]%list, s1) /\ alike s' s1) /\
  ((forall r, In r x -> 0 <= fst r /\ 0 <= snd r) ->
   exists s2,
     scalex (T:=Qc) [reduce_max2 x] s' = (Ok [(1, 1)]%list, s2) /\ alike s' s2).
Proof.
  intros L H0 H1 s'.
  pose proof (scalex_after_fit_scalex s x 1%nat L) as G. fold s' in G.
  destruct (minmax_row_bounds _ _ H0 H1) as [Bmin Bmax]. split.
  - destruct (scalex_run s' _ [reduce_min2 x] G) as (s1 & E & A).
    exists s1. split; [|exact A]. rewrite E. unfold scalex_ops.
    cbn [map fst snd]. now rewrite Bmin.
  - intros Hx. destruct (scalex_run s' _ [reduce_max2 x] G) as (s2 & E & A).
    exists s2. split; [|exact A]. rewrite E. unfold scalex_ops.
    cbn [map fst snd].
    replace (reduce_max2 x) with (reduce_max2 (abs2 x))
      by (now rewrite (abs2_nonneg x Hx)).
    now rewrite Bmax.
Qed.
End Bounds.

(** ** More on the normaliser *)

Lemma Qcinv_nonneg (d : Qc) : 0 <= d -> 0 <= / d.
Proof.
  unfold Qcle, Qcinv. cbn [this Q2Qc]. rewrite !Qred_correct.
  apply Qinv_le_0_compat.
Qed.

Lemma Qcle_0_minus (a b : Qc) : a <= b -> 0 <= b - a.
Proof.
  intros Hab. unfold Qcminus. exact (proj1 (Qcle_minus_iff a b) Hab).
Qed.

(** A quotient of a part by the whole. *)
Lemma quotient_in_unit (n d : Qc) :
  0 <= n -> n <= d -> d <> 0 -> in_unit (n / d).
Proof.
  intros Hn Hnd Hd.
  assert (Hd0 : 0 <= d) by (eapply Qcle_trans; eassumption).
  pose proof (Qcinv_nonneg d Hd0) as Hi. unfold in_unit, Qcdiv. split.
  - rewrite <- (Qcmult_0_l (/ d)). now apply Qcmult_le_compat_r.
  - rewrite <- (Qcmult_inv_r d Hd). now apply Qcmult_le_compat_r.
Qed.

Lemma quotient_within_one (a m : Qc) :
  Qcabs a <= m -> m <> 0 -> within_one (a / m).
Proof.
  intros Ha Hm.
  assert (Hm0 : 0 <= m) by (eapply Qcle_trans; [apply Qcabs_nonneg | exact Ha]).
  pose proof (Qcinv_nonneg m Hm0) as Hi.
  unfold within_one, Qcdiv. rewrite Qcabs_Qcmult, (Qcabs_pos (/ m) Hi).
  rewrite <- (Qcmult_inv_r m Hm). now apply Qcmult_le_compat_r.
Qed.

(** One column of [fit_scalex]: every scaled entry lies between 0 and 1. *)
Lemma column_in_unit (c : list Qc) (a : Qc) :
  In a c -> reduce_max (map Qcabs c) <> reduce_min c ->
  in_unit ((a - reduce_min c) / (reduce_max (map Qcabs c) - reduce_min c)).
Proof.
  intros Ha Hd.
  assert (Hc : c <> []) by (intro E; subst c; contradiction).
  assert (Hc' : map Qcabs c <> []) by (destruct c; [congruence | discriminate]).
  destruct (reduce_min_spec c Hc) as [_ Hlo].
  destruct (reduce_max_spec (map Qcabs c) Hc') as [_ Hhi].
  assert (Hah : a <= reduce_max (map Qcabs c)).
  { eapply Qcle_trans; [apply Qcle_Qcabs|]. apply Hhi. now apply in_map. }
  apply quotient_in_unit.
  - apply Qcle_0_minus. now apply Hlo.
  - unfold Qcminus. apply Qcplus_le_compat; [exact Hah | apply Qcle_refl].
  - intro E. apply Hd. rewrite <- (Qcplus_0_l (reduce_min c)), <- E. ring.
Qed.

(** One column of [fit_scale]: every scaled entry has magnitude at most 1. *)
Lemma column_within_one (c : list Qc) (a : Qc) :
  In a c -> reduce_max (map Qcabs c) <> 0 ->
  within_one (a / reduce_max (map Qcabs c)).
Proof.
  intros Ha Hd.
  assert (Hc' : map Qcabs c <> []) by (destruct c; [contradiction | discriminate]).
  destruct (reduce_max_spec (map Qcabs c) Hc') as [_ Hhi].
  apply quotient_within_one; [|exact Hd]. apply Hhi. now apply in_map.
Qed.

Lemma abs2_columns (x : list (vec2 Qc)) :
  map fst (abs2 x) = map Qcabs (map fst x) /\
  map snd (abs2 x) = map Qcabs (map snd x).
Proof.
  unfold abs2. rewrite !map_map. split; reflexivity.
Qed.

Lemma abs3_columns (y : list (vec3 Qc)) :
  map (fun r => fst (fst r)) (abs3 y) = map Qcabs (map (fun r => fst (fst r)) y) /\
  map (fun r => snd (fst r)) (abs3 y) = map Qcabs (map (fun r => snd (fst r)) y) /\
  map snd (abs3 y) = map Qcabs (map snd y).
Proof.
  unfold abs3. rewrite !map_map. repeat split; reflexivity.
Qed.

Section NormalizerRanges.
Context `{Services}.

(** X1. Whatever the sign of the data, the coordinates that [fit_scalex]
    returns lie between 0 and 1, provided the stored range is not
    degenerate. *)
Theorem fit_scalex_in_unit (s : PINNs) (x : list (vec2 Qc)) :
  fst (reduce_max2 (abs2 x)) <> fst (reduce_min2 x) ->
  snd (reduce_max2 (abs2 x)) <> snd (reduce_min2 x) ->
  exists xs,
    fst (fit_scalex x s) = Ok xs /\
    List.length xs = List.length x /\
    forall r, In r xs -> in_unit (fst r) /\ in_unit (snd r).
Proof.
  intros H0 H1. destruct (fit_scalex_run s x) as (s' & E & _).
  eexists. split; [rewrite E; reflexivity|]. split; [apply length_map|].
  intros r Hr. apply in_map_iff in Hr as (r0 & <- & Hr0).
  destruct (abs2_columns x) as [A0 A1].
  unfold reduce_max2, reduce_min2 in *. cbn [fst snd] in H0, H1.
  rewrite A0 in H0. rewrite A1 in H1.
  unfold minmax_row, row2. cbn [fst snd sub div lit Elt_Qc]. rewrite A0, A1. split.
  - apply column_in_unit; [|exact H0]. apply (in_map fst _ _ Hr0).
  - apply column_in_unit; [|exact H1]. apply (in_map snd _ _ Hr0).
Qed.

(** X2. The outputs that [fit_scale] returns have magnitude at most 1,
    provided no stored magnitude is zero. *)
Theorem fit_scale_within_one (s : PINNs) (y : list (vec3 Qc)) :
  fst (fst (reduce_max3 (abs3 y))) <> 0 ->
  snd (fst (reduce_max3 (abs3 y))) <> 0 ->
  snd (reduce_max3 (abs3 y)) <> 0 ->
  exists ys,
    fst (fit_scale y s) = Ok ys /\
    List.length ys = List.length y /\
    forall r, In r ys ->
      within_one (fst (fst r)) /\ within_one (snd (fst r)) /\ within_one (snd r).
Proof.
  intros H0 H1 H2. destruct (fit_scale_run s y) as (s' & E & _).
  eexists. split; [rewrite E; reflexivity|]. split; [apply length_map|].
  intros r Hr. apply in_map_iff in Hr as (r0 & <- & Hr0).
  destruct (abs3_columns y) as (A0 & A1 & A2).
  unfold reduce_max3 in *. cbn [fst snd] in H0, H1, H2.
  rewrite A0 in H0. rewrite A1 in H1. rewrite A2 in H2.
  unfold row3. cbn [fst snd div lit Elt_Qc]. rewrite A0, A1, A2. repeat split.
  - apply column_within_one; [|exact H0].
    apply (in_map (fun r => fst (fst r)) _ _ Hr0).
  - apply column_within_one; [|exact H1].
    apply (in_map (fun r => snd (fst r)) _ _ Hr0).
  - apply column_within_one; [|exact H2]. apply (in_map snd _ _ Hr0).
Qed.
End NormalizerRanges.

Section NormalizerMore.
Context `{Services}.

(** X3. On a batch of coordinates none of which is negative, [fit_scalex]
    stores the least and the greatest coordinate of each column: both are
    coordinates of the batch, and every coordinate lies between them. *)
Theorem fit_scalex_extremes (s : PINNs) (x : list (vec2 Qc)) :
  x <> [] ->
  (forall r, In r x -> 0 <= fst r /\ 0 <= snd r) ->
  exists lo hi,
    xmin (snd (fit_scalex x s)) = Some lo /\
    xmax (snd (fit_scalex x s)) = Some hi /\
    In (fst lo) (map fst x) /\ In (snd lo) (map snd x) /\
    In (fst hi) (map fst x) /\ In (snd hi) (map snd x) /\
    forall r, In r x ->
      fst lo <= fst r /\ fst r <= fst hi /\ snd lo <= snd r /\ snd r <= snd hi.
Proof.
  intros Hx Hpos. destruct (fit_scalex_nonneg s x Hpos) as (Ehi & Elo & _).
  exists (reduce_min2 x), (reduce_max2 x).
  split; [exact Elo|]. split; [exact Ehi|].
  assert (H0 : map fst x <> []) by (destruct x; [congruence | discriminate]).
  assert (H1 : map snd x <> []) by (destruct x; [congruence | discriminate]).
  destruct (reduce_min_spec _ H0) as [I0 L0], (reduce_min_spec _ H1) as [I1 L1].
  destruct (reduce_max_spec _ H0) as [J0 U0], (reduce_max_spec _ H1) as [J1 U1].
  unfold reduce_min2, reduce_max2. cbn [fst snd].
  repeat (split; [assumption|]).
  intros r Hr.
  pose proof (in_map fst _ _ Hr) as F. pose proof (in_map snd _ _ Hr) as G.
  auto.
Qed.




(** X5. On a freshly built object, what [fit_scalex] and [fit_scale]
    return for the data they are fitted on is what [scalex] and [scale]
    return for the same data afterwards: fitting and the first calls use
    one and the same scaling. *)
Theorem fit_scaling_agrees (m : vec3 net) (variables : list Qc) (o : OptState)
    (n : nat) (x : list (vec2 Qc)) (y : list (vec3 Qc)) :
  let s := init m variables o n in
  fst (scalex x (snd (fit_scalex x s))) = fst (fit_scalex x s) /\
  alike (snd (fit_scalex x s)) (snd (scalex x (snd (fit_scalex x s)))) /\
  fst (scale y (snd (fit_scale y s))) = fst (fit_scale y s) /\
  alike (snd (fit_scale y s)) (snd (scale y (snd (fit_scale y s)))).
Proof.
  intros s.
  pose proof (scalex_after_fit_scalex s x (List.length x) eq_refl) as Gx.
  destruct (fit_scalex_run s x) as (s1 & E1 & _).
  destruct (fit_scale_run s y)
    as (s2 & E2 & Ym & _ & _ & _ & _ & _ & _ & _ & _ & _ & _ & _ & C2).
  rewrite E1 in *. rewrite E2. cbn [fst snd] in *.
  destruct (scalex_run s1 _ x Gx) as (s1' & Ex & Ax).
  assert (Gy : scale_graph s2 (List.length y) = Some (reduce_max3 (abs3 y))).
  { unfold scale_graph. rewrite C2, Ym. reflexivity. }
  destruct (scale_run s2 _ y Gy) as (s2' & Ey & Ay).
  rewrite Ex, Ey. cbn [fst snd]. auto.
Qed.

(** X6. After [fit], whatever the object was before and whatever the
    data, [predict] returns, with one row per point, and leaves every
    attribute and every graph in effect as [fit] left it. *)
Theorem predict_after_fit (bc : list (vec2 Qc * vec3 Qc)) (cp pts : list (vec2 Qc))
    (s : PINNs) :
  exists u s',
    predict pts (snd (fit bc cp s)) = (Ok u, s') /\
    alike (snd (fit bc cp s)) s' /\
    List.length u = List.length pts.
Proof.
  destruct (fit_run bc cp s)
    as (s1 & tr1 & tr2 & new1 & new2 & E & _ & _ & _ & _ & _ & (Lo & Hi & Ym) & _).
  rewrite E. cbn [snd].
  assert (F : fitted s1) by (eexists _, _, _; eauto).
  destruct (fitted_graphs s1 F 0%nat (List.length pts)) as ((gx & Gx) & (gy & Gy) & _).
  destruct (predict_run s1 pts) as [R A]. rewrite Gx, Gy in R.
  destruct (predict pts s1) as [r s'] eqn:P. cbn [fst snd] in R, A. subst r.
  eexists _, s'. split; [reflexivity|]. split; [exact A|].
  unfold scale_r_ops, scalex_ops. now rewrite length_map, call_model_length, length_map.
Qed.

(** The value of the approximator depends on the values of its inputs
    only. *)
Lemma eval_apply_net (theta : list Qc) (n : net) (a b a' b' : expr) :
  eval theta a = eval theta a' -> eval theta b = eval theta b' ->
  eval theta (apply_net n a b) = eval theta (apply_net n a' b').
Proof.
  intros Ea Eb. induction n; cbn [apply_net eval]; congruence.
Qed.

(** X7. What [predict] returns at a point is the value there of the
    prediction (U, V, uv) as a function of the physical coordinates:
    scale the point, evaluate the approximator at the current
    parameters, scale the outputs back, the two scalings being those of
    the graphs of [scalex] and of [scale_r] in effect for the shape of
    the batch. *)
Theorem predict_is_prediction (s : PINNs) (lo hi : vec2 Qc) (ym : vec3 Qc)
    (pts : list (vec2 Qc)) :
  scalex_graph s (List.length pts) = Some (lo, hi) ->
  scale_r_graph s (List.length pts) = Some ym ->
  exists s',
    predict pts s =
      (Ok (map (fun p => eval3 (trainable_variables s)
                           (prediction lo hi ym (model s)
                              (Inp (LX 0) (fst p)) (Inp (LY 0) (snd p)))) pts),
       s') /\
    alike s s'.
Proof.
  intros Gx Gy. destruct (predict_run s pts) as [R A]. rewrite Gx, Gy in R.
  destruct (predict pts s) as [r s'] eqn:P. cbn [fst snd] in R, A. subst r.
  exists s'. split; [|exact A]. f_equal. f_equal.
  unfold scale_r_ops, scalex_ops, call_model. rewrite !map_map. apply map_ext.
  intros [a b].
  unfold eval3, prediction, row3, const2.
  cbn [fst snd mul lit Elt_Qc Elt_expr eval].
  f_equal; [f_equal|]; f_equal; apply eval_apply_net; reflexivity.
Qed.

(** X8. On an object without the attribute [xmax], for a shape for which
    neither [train_step] nor [net_f] nor [scalex_r] has been traced,
    [net_f] raises for [xmax], the first attribute its trace reads, and
    so does [train_step], which prints nothing; the object is left as it
    was. *)
Theorem net_f_unfitted (s : PINNs) (bc : list (vec2 Qc * vec3 Qc))
    (cp : list (vec2 Qc)) :
  xmax s = None ->
  lookup Nat.eqb (List.length cp) (scalex_r_cache (caches s)) = None ->
  lookup Nat.eqb (List.length cp) (net_f_cache (caches s)) = None ->
  lookup shape_eqb (List.length bc, List.length cp) (train_step_cache (caches s)) = None ->
  net_f cp s = (Raise (AttributeError "xmax"), s) /\
  train_step bc cp s = (Raise (AttributeError "xmax"), s).
Proof.
  intros Hx L1 L2 L3.
  assert (G : scalex_r_graph s (List.length cp) = None).
  { unfold scalex_r_graph, range_attrs. rewrite L1, Hx. now destruct (xmin s). }
  pose proof (scalex_r_concrete_none s _ G) as E. rewrite Hx in E.
  assert (En : net_f_concrete (List.length cp) s = (Raise (AttributeError "xmax"), s)).
  { apply tf_function_raise; [exact L2|]. now apply bind_raise. }
  split.
  - unfold net_f. now apply bind_raise.
  - unfold train_step. apply bind_raise.
    apply tf_function_raise; [exact L3|]. rewrite read_run. now apply bind_raise.
Qed.

(** X9. With a graph of [scalex] in effect for the shape of the points
    and none of [scale_r], [predict] raises for [ymax], after it has
    evaluated the model, and leaves every attribute and every graph in
    effect as it was. *)
Theorem predict_without_ymax (s : PINNs) (g : range) (pts : list (vec2 Qc)) :
  scalex_graph s (List.length pts) = Some g ->
  scale_r_graph s (List.length pts) = None ->
  exists s', predict pts s = (Raise (AttributeError "ymax"), s') /\ alike s s'.
Proof.
  intros Gx Gy. destruct (predict_run s pts) as [R A]. rewrite Gx, Gy in R.
  destruct (predict pts s) as [r s'] eqn:P. cbn [fst snd] in R, A. subst r.
  now exists s'.
Qed.
End NormalizerMore.

(** ** Properties that every step of [fit] keeps *)

Section Steps.
Context `{Services}.

(** A relation between the object before and after, that holds across
    each of the steps [fit] is made of. *)
Variable R : PINNs -> PINNs -> Prop.
Hypothesis R_refl : forall s, R s s.
Hypothesis R_trans : forall s1 s2 s3, R s1 s2 -> R s2 s3 -> R s1 s3.
Hypothesis R_fit_scale : forall y s, R s (snd (fit_scale y s)).
Hypothesis R_fit_scalex : forall x s, R s (snd (fit_scalex x s)).
Hypothesis R_scalex : forall (x : list (vec2 Qc)) s, R s (snd (scalex x s)).
Hypothesis R_call : forall s, R s (snd (emit MinimizeCall s)).
Hypothesis R_return : forall s, R s (snd (emit MinimizeReturn s)).
Hypothesis R_invoke : forall p s, R s (snd (emit (InvokeClosure p) s)).
Hypothesis R_sopt : forall o s, R s (snd (set_sopt o s)).
Hypothesis R_body : forall bc cp s, fitted s -> R s (snd (epoch_body bc cp s)).
Hypothesis R_func : forall bc cp p s, fitted s -> R s (snd (func bc cp p s)).

Lemma advance_fitted (s s' : PINNs) (tr : list event) (new : list (vec3 Qc)) :
  advance s s' tr new -> fitted s -> fitted s'.
Proof.
  intros ((_ & _ & _ & Xi & Xa & Ym & _) & _) (lo & hi & ym & Lo & Hi & Y).
  exists lo, hi, ym. repeat split; congruence.
Qed.

Section Data.
Variables (g : train_step_captures).
Variables (bc : list (vec2 Qc * vec3 Qc)) (cp : list (vec2 Qc)).

Lemma for_range_steps (n : nat) (s : PINNs) :
  fitted s -> train_step_graph s (List.length bc) (List.length cp) = Some g ->
  R s (snd (for_range n (epoch_body bc cp) s)).
Proof.
  revert s. induction n as [|n IH]; intros s F Hs; [apply R_refl|].
  destruct (epoch_body_run g bc cp s Hs) as (s1 & E1 & A1 & _).
  cbn [for_range]. rewrite (bind_ok _ _ _ _ _ E1).
  apply (R_trans s s1).
  - replace s1 with (snd (epoch_body bc cp s)) by (now rewrite E1).
    now apply R_body.
  - apply IH; [eapply advance_fitted; eassumption|].
    rewrite (advance_graph _ _ _ _ _ _ A1). exact Hs.
Qed.

Lemma run_lbfgs_steps (r : lbfgs_run SoptState) (s : PINNs) :
  fitted s -> train_step_graph s (List.length bc) (List.length cp) = Some g ->
  R s (snd (run_lbfgs r (func bc cp) s)).
Proof.
  revert s. induction r as [o|p k IH]; intros s F Hs; [apply R_refl|].
  destruct (emit_run (InvokeClosure p) s) as (s0 & E0 & A0).
  assert (Hs0 : train_step_graph s0 (List.length bc) (List.length cp) = Some g)
    by (rewrite (advance_graph _ _ _ _ _ _ A0); exact Hs).
  pose proof (advance_fitted _ _ _ _ A0 F) as F0.
  destruct (func_run g bc cp p s0 Hs0) as (s1 & E1 & A1 & _).
  cbn [run_lbfgs]. rewrite (bind_ok _ _ _ _ _ E0), (bind_ok _ _ _ _ _ E1).
  apply (R_trans s s0).
  { replace s0 with (snd (emit (InvokeClosure p) s)) by (now rewrite E0).
    apply R_invoke. }
  apply (R_trans s0 s1).
  - replace s1 with (snd (func bc cp p s0)) by (now rewrite E1).
    now apply R_func.
  - apply IH; [eapply advance_fitted; eassumption|].
    rewrite (advance_graph _ _ _ _ _ _ A1). exact Hs0.
Qed.

Lemma sopt_minimize_steps (s : PINNs) :
  fitted s -> train_step_graph s (List.length bc) (List.length cp) = Some g ->
  R s (snd (sopt_minimize (func bc cp) s)).
Proof.
  intros F Hs.
  destruct (emit_run MinimizeCall s) as (s0 & E0 & A0).
  assert (Hs0 : train_step_graph s0 (List.length bc) (List.length cp) = Some g)
    by (rewrite (advance_graph _ _ _ _ _ _ A0); exact Hs).
  pose proof (advance_fitted _ _ _ _ A0 F) as F0.
  destruct (run_lbfgs_run g bc cp (minimize (sopt s0) (trainable_variables s0)) s0 Hs0)
    as (o & s1 & tr & new & E1 & A1 & _).
  destruct (set_sopt_run o s1) as (s2 & E2 & A2).
  unfold sopt_minimize. rewrite (bind_ok _ _ _ _ _ E0), !read_run.
  rewrite (bind_ok _ _ _ _ _ E1), (bind_ok _ _ _ _ _ E2).
  apply (R_trans s s0); [replace s0 with (snd (emit MinimizeCall s)) by (now rewrite E0);
                         apply R_call|].
  apply (R_trans s0 s1).
  { replace s1 with (snd (run_lbfgs (minimize (sopt s0) (trainable_variables s0))
                            (func bc cp) s0)) by (now rewrite E1).
    now apply run_lbfgs_steps. }
  apply (R_trans s1 s2); [replace s2 with (snd (set_sopt o s1)) by (now rewrite E2);
                          apply R_sopt|].
  apply R_return.
Qed.
End Data.

(** The relation holds across a call of [fit]. *)
Lemma fit_steps (bc : list (vec2 Qc * vec3 Qc)) (cp : list (vec2 Qc)) (s : PINNs) :
  R s (snd (fit bc cp s)).
Proof.
  destruct (fit_scale_run s (map snd bc))
    as (s1 & E1 & Y1 & Lo1 & Hi1 & _).
  destruct (fit_scalex_run s1 (map fst bc))
    as (s2 & E2 & Lo2 & Hi2 & Y2 & _).
  set (lo := reduce_min2 (map fst bc)) in *.
  set (hi := reduce_max2 (abs2 (map fst bc))) in *.
  set (ym := reduce_max3 (abs3 (map snd bc))) in *.
  assert (F2 : fitted s2) by (exists lo, hi, ym; repeat split; congruence).
  destruct (fitted_graphs s2 F2 0%nat (List.length cp)) as ((gx & Gx) & _).
  destruct (scalex_run s2 gx cp Gx) as (s2' & Ex & Ax).
  pose proof (advance_fitted _ _ _ _ (alike_advance _ _ Ax) F2) as F2'.
  set (bc' := combine (map (minmax_row lo hi) (map fst bc))
                      (map (fun r => row3 div r ym) (map snd bc))).
  set (cp' := scalex_ops gx cp).
  destruct (fitted_graphs s2' F2' (List.length bc') (List.length cp'))
    as (_ & _ & _ & (g & Hg)).
  destruct (phase1_run g bc' cp' (epochs s2') s2' Hg)
    as (s3 & tr1 & new1 & E3 & A3 & _).
  assert (Hg3 : train_step_graph s3 (List.length bc') (List.length cp') = Some g)
    by (rewrite (advance_graph _ _ _ _ _ _ A3); exact Hg).
  pose proof (advance_fitted _ _ _ _ A3 F2') as F3.
  destruct (sopt_minimize_run g bc' cp' s3 Hg3)
    as (s4 & tr2 & new2 & E4 & _).
  assert (E : snd (fit bc cp s) = s4).
  { unfold fit. rewrite (bind_ok _ _ _ _ _ E1), (bind_ok _ _ _ _ _ E2).
    rewrite (bind_ok _ _ _ _ _ Ex), read_run.
    fold bc' cp'. rewrite (bind_ok _ _ _ _ _ E3), (bind_ok _ _ _ _ _ E4).
    reflexivity. }
  rewrite E.
  apply (R_trans s s1); [replace s1 with (snd (fit_scale (map snd bc) s)) by (now rewrite E1);
                         apply R_fit_scale|].
  apply (R_trans s1 s2); [replace s2 with (snd (fit_scalex (map fst bc) s1))
                            by (now rewrite E2); apply R_fit_scalex|].
  apply (R_trans s2 s2'); [replace s2' with (snd (scalex cp s2)) by (now rewrite Ex);
                           apply R_scalex|].
  apply (R_trans s2' s3).
  { replace s3 with (snd (for_range (epochs s2') (epoch_body bc' cp') s2'))
      by (now rewrite E3).
    now apply (for_range_steps g). }
  replace s4 with (snd (sopt_minimize (func bc' cp') s3)) by (now rewrite E4).
  now apply (sopt_minimize_steps g).
Qed.
End Steps.

(** ** Invariants of the epoch counter and the log *)

Section Invariants.
Context `{Services}.

(** What one pass of phase one, and one invocation of the closure, do to
    a fitted object. *)
Lemma epoch_body_effect (bc : list (vec2 Qc * vec3 Qc)) (cp : list (vec2 Qc))
    (s : PINNs) :
  fitted s ->
  exists g s',
    epoch_body bc cp s = (Ok tt, s') /\
    advance s s'
      [PrintEpoch (epoch s);
       PrintLoss (step_losses g (trainable_variables s) bc cp);
       ApplyGradients (step_gradient g (trainable_variables s) bc cp)]
      [step_losses g (trainable_variables s) bc cp].
Proof.
  intros F.
  destruct (fitted_graphs s F (List.length bc) (List.length cp)) as (_ & _ & _ & (g & Hg)).
  destruct (epoch_body_run g bc cp s Hg) as (s' & E & A & _).
  exists g, s'. split; assumption.
Qed.

Lemma func_effect (bc : list (vec2 Qc * vec3 Qc)) (cp : list (vec2 Qc))
    (p : list Qc) (s : PINNs) :
  fitted s ->
  exists g s',
    func bc cp p s =
      (Ok (fst (fst (step_losses g p bc cp)), step_gradient g p bc cp), s') /\
    advance s s'
      [AssignParams p; PrintEpoch (epoch s); PrintLoss (step_losses g p bc cp)]
      [step_losses g p bc cp].
Proof.
  intros F.
  destruct (fitted_graphs s F (List.length bc) (List.length cp)) as (_ & _ & _ & (g & Hg)).
  destruct (func_run g bc cp p s Hg) as (s' & E & A & _).
  exists g, s'. split; assumption.
Qed.

Lemma printed_epochs_app (a b : list event) :
  printed_epochs (a ++ b) = printed_epochs a ++ printed_epochs b.
Proof.
  induction a as [|e a IH]; [reflexivity|]. destruct e; simpl; now rewrite IH.
Qed.

Lemma numbered_refl (a : PINNs) : numbered a a.
Proof.
  exists [], []. rewrite !app_nil_r. cbn. rewrite Nat.add_0_r. auto.
Qed.

Lemma numbered_trans (a b c : PINNs) : numbered a b -> numbered b c -> numbered a c.
Proof.
  intros (tr1 & n1 & T1 & H1 & E1 & P1) (tr2 & n2 & T2 & H2 & E2 & P2).
  exists (tr1 ++ tr2), (n1 ++ n2). repeat split.
  - now rewrite T2, T1, app_assoc.
  - now rewrite H2, H1, app_assoc.
  - rewrite E2, E1, length_app. lia.
  - rewrite printed_epochs_app, P1, P2, E1, length_app, seq_app. reflexivity.
Qed.

Lemma numbered_silent (a b : PINNs) (tr : list event) :
  advance a b tr [] -> printed_epochs tr = [] -> numbered a b.
Proof.
  intros (_ & Hh & He & Ht) Hp. exists tr, []. auto.
Qed.

(** X11. On an object whose epoch counter equals the length of its
    history, [fit] prints each training step, of either phase, under the
    index that the triple of the step gets in the history, and the
    counter equals the length of the history again when [fit] returns. *)
Theorem fit_epochs_numbered (bc : list (vec2 Qc * vec3 Qc)) (cp : list (vec2 Qc))
    (s : PINNs) :
  epoch s = List.length (hist s) ->
  exists tr new,
    trace (snd (fit bc cp s)) = trace s ++ tr /\
    hist (snd (fit bc cp s)) = hist s ++ new /\
    printed_epochs tr = seq (List.length (hist s)) (List.length new) /\
    epoch (snd (fit bc cp s)) = List.length (hist (snd (fit bc cp s))).
Proof.
  intros Hs.
  assert (N : numbered s (snd (fit bc cp s))).
  { apply (fit_steps numbered numbered_refl numbered_trans).
    - intros y a. destruct (fit_scale_run a y)
        as (a' & E & _ & _ & _ & Hh & Ep & Tr & _).
      rewrite E. cbn [snd]. exists [], []. rewrite !app_nil_r. cbn.
      rewrite Nat.add_0_r. auto.
    - intros x a. destruct (fit_scalex_run a x)
        as (a' & E & _ & _ & _ & Hh & Ep & Tr & _).
      rewrite E. cbn [snd]. exists [], []. rewrite !app_nil_r. cbn.
      rewrite Nat.add_0_r. auto.
    - intros x a. apply (numbered_silent a _ []); [|reflexivity].
      apply alike_advance, scalex_alike.
    - intros a. destruct (emit_run MinimizeCall a) as (a' & E & A).
      rewrite E. cbn [snd]. now apply (numbered_silent a a' [MinimizeCall]).
    - intros a. destruct (emit_run MinimizeReturn a) as (a' & E & A).
      rewrite E. cbn [snd]. now apply (numbered_silent a a' [MinimizeReturn]).
    - intros p a. destruct (emit_run (InvokeClosure p) a) as (a' & E & A).
      rewrite E. cbn [snd]. now apply (numbered_silent a a' [InvokeClosure p]).
    - intros o a. destruct (set_sopt_run o a) as (a' & E & A).
      rewrite E. cbn [snd]. now apply (numbered_silent a a' []).
    - intros bc0 cp0 a Ha.
      destruct (epoch_body_effect bc0 cp0 a Ha) as (g & a' & E & _ & Hh & Ep & Tr).
      rewrite E. cbn [snd]. eexists _, _. split; [exact Tr|]. split; [exact Hh|].
      split; [exact Ep|]. reflexivity.
    - intros bc0 cp0 p a Ha.
      destruct (func_effect bc0 cp0 p a Ha) as (g & a' & E & _ & Hh & Ep & Tr).
      rewrite E. cbn [snd]. eexists _, _. split; [exact Tr|]. split; [exact Hh|].
      split; [exact Ep|]. reflexivity. }
  destruct N as (tr & new & T & Hh & Ep & P).
  exists tr, new. split; [exact T|]. split; [exact Hh|].
  split; [now rewrite <- Hs|].
  rewrite Ep, Hh, length_app, Hs. reflexivity.
Qed.
End Invariants.

(** ** The two kinds of training step, and the edges of [fit] *)

Section StepContracts.
Context `{Services}.

(** X12. The closure that [fit] hands to [minimize] is the objective and
    nothing else: for every vector [p] it installs [p] as the parameters
    and returns the value at [p] of the total loss (boundary loss plus
    PDE loss, on the residuals that [net_f] returns) and the gradient of
    that loss at [p], one entry per entry of [p], whatever the
    parameters were before.  The step runs the graph [g] of [train_step]
    in effect, which holds the approximator and the graph of [net_f] in
    effect. *)
Theorem closure_is_objective (g : train_step_captures)
    (bc : list (vec2 Qc * vec3 Qc)) (cp : list (vec2 Qc)) (s : PINNs) :
  train_step_graph s (List.length bc) (List.length cp) = Some g ->
  net_f_graph s (List.length cp) = Some (g_net_f g) ->
  exists f s0,
    net_f cp s = (Ok f, s0) /\
    forall p, exists s',
      func bc cp p s =
        (Ok (spec_boundary_loss (g_boundary_model g) p bc +
               spec_pde_loss (map (eval3 p) f),
             map (fun d => eval p (D d (taped_loss (g_boundary_model g) bc f)))
                 (map DPar (seq 0 (List.length p)))),
         s') /\
      trainable_variables s' = p /\
      eval p (taped_loss (g_boundary_model g) bc f) =
        spec_boundary_loss (g_boundary_model g) p bc + spec_pde_loss (map (eval3 p) f).
Proof.
  intros Hg Hf.
  destruct (net_f_run s (g_net_f g) cp Hf) as (s0 & E0 & _).
  exists (net_f_ops (g_net_f g) cp), s0. split; [exact E0|]. intros p.
  destruct (func_run g bc cp p s Hg) as (s' & E & _ & Tv & _).
  exists s'. split; [exact E|]. split; [exact Tv|]. apply taped_loss_value.
Qed.

(** X13. A pass of phase one hands the optimiser the gradient of the
    total loss at the current parameters, each entry paired with its
    parameter, and installs the parameters and the optimiser state that
    [apply_gradients] returns. *)
Theorem phase_one_step (g : train_step_captures)
    (bc : list (vec2 Qc * vec3 Qc)) (cp : list (vec2 Qc)) (s : PINNs) :
  train_step_graph s (List.length bc) (List.length cp) = Some g ->
  net_f_graph s (List.length cp) = Some (g_net_f g) ->
  exists f s0 s',
    net_f cp s = (Ok f, s0) /\
    epoch_body bc cp s = (Ok tt, s') /\
    let theta := trainable_variables s in
    let grads := map (fun d => eval theta (D d (taped_loss (g_boundary_model g) bc f)))
                     (map DPar (seq 0 (List.length theta))) in
    List.length (combine grads theta) = List.length theta /\
    trainable_variables s' = snd (apply_gradients (optimizer s) (combine grads theta)) /\
    optimizer s' = fst (apply_gradients (optimizer s) (combine grads theta)).
Proof.
  intros Hg Hf.
  destruct (net_f_run s (g_net_f g) cp Hf) as (s0 & E0 & _).
  destruct (epoch_body_run g bc cp s Hg) as (s' & E & _ & Tv & Op).
  exists (net_f_ops (g_net_f g) cp), s0, s'. split; [exact E0|]. split; [exact E|].
  cbv zeta. split; [|split; [exact Tv | exact Op]].
  rewrite length_combine, !length_map, length_seq. apply Nat.min_id.
Qed.

(** X14. With no epoch configured and a quasi-Newton optimiser that stops
    without invoking the closure, [fit] still refits the normaliser and
    still calls [minimize], once, and returns the history untouched; the
    epoch counter is as it was, nothing is printed and no gradient is
    applied. *)
Theorem fit_without_training (bc : list (vec2 Qc * vec3 Qc)) (cp : list (vec2 Qc))
    (s : PINNs) (o : SoptState) :
  epochs s = 0%nat ->
  minimize (sopt s) (trainable_variables s) = LDone o ->
  exists s',
    fit bc cp s = (Ok (hist s), s') /\
    hist s' = hist s /\ epoch s' = epoch s /\
    trace s' = trace s ++ [MinimizeCall; MinimizeReturn] /\
    xmin s' = Some (reduce_min2 (map fst bc)) /\
    xmax s' = Some (reduce_max2 (abs2 (map fst bc))) /\
    ymax s' = Some (reduce_max3 (abs3 (map snd bc))).
Proof.
  intros He Hm.
  destruct (fit_scale_run s (map snd bc))
    as (s1 & E1 & Y1 & Lo1 & Hi1 & Hh1 & Ep1 & Tr1 & Nu1 & Mo1 & Tv1 & Es1 & Op1 & So1 & _).
  destruct (fit_scalex_run s1 (map fst bc))
    as (s2 & E2 & Lo2 & Hi2 & Y2 & Hh2 & Ep2 & Tr2 & Nu2 & Mo2 & Tv2 & Es2 & Op2 & So2 & _).
  assert (F2 : fitted s2).
  { exists (reduce_min2 (map fst bc)), (reduce_max2 (abs2 (map fst bc))),
      (reduce_max3 (abs3 (map snd bc))). repeat split; congruence. }
  destruct (fitted_graphs s2 F2 0%nat (List.length cp)) as ((gx & Gx) & _).
  destruct (scalex_run s2 gx cp Gx) as (s3 & Ex & Ax).
  pose proof Ax as [(Mo & Tv & Op & Es & Hh & Ep & So & Nu & Ym & Xa & Xi & Tr) _].
  assert (Hm3 : minimize (sopt s3) (trainable_variables s3) = LDone o)
    by (rewrite So, So2, So1, Tv, Tv2, Tv1; exact Hm).
  assert (Es3 : epochs s3 = 0%nat) by congruence.
  exists (mkPINNs _ (model s3) (trainable_variables s3) (optimizer s3) (epochs s3)
            (hist s3) (epoch s3) o (nu s3) (ymax s3) (xmax s3) (xmin s3)
            ((trace s3 ++ [MinimizeCall]) ++ [MinimizeReturn]) (caches s3)).
  split.
  - unfold fit. rewrite (bind_ok _ _ _ _ _ E1), (bind_ok _ _ _ _ _ E2).
    rewrite (bind_ok _ _ _ _ _ Ex), read_run, Es3. cbn [for_range].
    rewrite (bind_ok (ret tt) _ s3 s3 tt eq_refl).
    unfold sopt_minimize.
    rewrite (bind_ok
      (emit MinimizeCall ;;;
       o0 <- read sopt ;; theta <- read trainable_variables ;;
       o' <- run_lbfgs (minimize o0 theta) (func _ _) ;;
       set_sopt o' ;;; emit MinimizeReturn) _ s3
      (mkPINNs _ (model s3) (trainable_variables s3) (optimizer s3) (epochs s3)
            (hist s3) (epoch s3) o (nu s3) (ymax s3) (xmax s3) (xmin s3)
            ((trace s3 ++ [MinimizeCall]) ++ [MinimizeReturn]) (caches s3)) tt).
    + unfold read. cbn [hist]. now rewrite Es3, Hh, Hh2, Hh1.
    + rewrite (bind_ok (emit MinimizeCall) _ s3 _ tt eq_refl), !read_run.
      cbn [emit snd sopt trainable_variables]. rewrite Hm3. reflexivity.
  - cbn [hist epoch trainable_variables trace sopt xmin xmax ymax].
    rewrite <- app_assoc. cbn [app].
    repeat split; congruence.
Qed.
End StepContracts.

(** ** A flow that has no residual *)

Section ResidualValues.
Context `{Services}.

Lemma shear_flow_residual (nu0 a k c : Qc) (lo hi : vec2 Qc) (ym : vec3 Qc)
    (theta : list Qc) (p : vec2 Qc) :
  residual_with nu0 lo hi ym (shear_flow a k c) theta p = (0, 0, 0).
Proof.
  unfold residual_with, shear_flow, prediction, d_dx, d_dy, minmax_row, row2, row3.
  cbn [fst snd apply_net mul sub div lit Elt_expr Elt_Qc D dvar_eqb leaf_eqb
       indicator eval].
  unfold Qcdiv. repeat f_equal; ring.
Qed.

(** X15. A parallel shear flow is free of residual: when the graph of
    [net_f] in effect holds the approximator U = a + k * (scaled y),
    V = 0, uv = c and a range of [scalex] that is not degenerate, every
    residual that [net_f] returns is zero, at every collocation point
    and for every value of nu. *)
Theorem shear_flow_residual_free (s : PINNs) (g : net_f_captures)
    (a k c : Qc) (cp : list (vec2 Qc)) (theta : list Qc) :
  net_f_graph s (List.length cp) = Some g ->
  fst (snd (g_scalex g)) <> fst (fst (g_scalex g)) ->
  snd (snd (g_scalex g)) <> snd (fst (g_scalex g)) ->
  g_model g = shear_flow a k c ->
  exists f s',
    net_f cp s = (Ok f, s') /\
    List.length f = List.length cp /\
    forall r, In r (map (eval3 theta) f) -> r = (0, 0, 0).
Proof.
  intros Hg _ _ Hm. destruct (net_f_run s g cp Hg) as (s' & E & _).
  exists (net_f_ops g cp), s'. split; [exact E|]. split; [apply net_f_ops_length|].
  intros r Hr. rewrite net_f_ops_values in Hr.
  apply in_map_iff in Hr as (p & <- & _).
  rewrite Hm. apply shear_flow_residual.
Qed.
End ResidualValues.

(** ** Graphs that outlive a refit *)

Section StaleGraphs.
Context `{Services}.

(** X17. [fit] traces [scalex] for the shape of its collocation batch,
    and a later [fit] does not trace it again: on an object built by
    [__init__] and fitted twice, the graph of [scalex] in effect for
    that shape holds the range of the first boundary data, while [xmin]
    and [xmax] are those of the second. *)
Theorem refit_keeps_scaling (m : vec3 net) (variables : list Qc) (o : OptState)
    (n : nat) (bc1 bc2 : list (vec2 Qc * vec3 Qc)) (cp1 cp2 : list (vec2 Qc)) :
  let r1 := (reduce_min2 (map fst bc1), reduce_max2 (abs2 (map fst bc1))) in
  let s1 := snd (fit bc1 cp1 (init m variables o n)) in
  let s2 := snd (fit bc2 cp2 s1) in
  scalex_graph s1 (List.length cp1) = Some r1 /\
  scalex_graph s2 (List.length cp1) = Some r1 /\
  xmin s2 = Some (reduce_min2 (map fst bc2)) /\
  xmax s2 = Some (reduce_max2 (abs2 (map fst bc2))).
Proof.
  intros r1 s1 s2.
  destruct (fit_run bc1 cp1 (init m variables o n))
    as (t1 & ? & ? & ? & ? & E1 & _ & _ & _ & _ & _ & _ & _ & _ & _ & _ & L1).
  destruct (fit_run bc2 cp2 t1)
    as (t2 & ? & ? & ? & ? & E2 & _ & _ & _ & _ & _ & (Lo & Hi & _) & _ & _ & _ & G2 & _).
  assert (Es1 : s1 = t1) by (subst s1; now rewrite E1).
  assert (Es2 : s2 = t2) by (subst s2; rewrite Es1; now rewrite E2).
  rewrite Es2, Es1. clear Es1 Es2 s1 s2.
  rewrite scalex_after_fit_scalex in L1 by reflexivity. fold r1 in L1.
  assert (G1 : scalex_graph t1 (List.length cp1) = Some r1).
  { unfold scalex_graph. now rewrite L1. }
  split; [exact G1|]. split; [|split; [exact Lo | exact Hi]].
  destruct G2 as (G2 & _). rewrite G2.
  destruct (fit_scale_run t1 (map snd bc2))
    as (u1 & F1 & _ & _ & _ & _ & _ & _ & _ & _ & _ & _ & _ & _ & C1).
  destruct (fit_scalex_run u1 (map fst bc2))
    as (u2 & F2 & _ & _ & _ & _ & _ & _ & _ & _ & _ & _ & _ & _ & C2).
  rewrite F1. cbn [snd]. rewrite F2. cbn [snd].
  unfold scalex_graph. now rewrite C2, C1, L1.
Qed.

(** X21. On an object built by [__init__] and fitted once, the graphs in
    effect hold what was fitted on the boundary data, for every shape:
    the four scaling methods the stored range and the stored magnitudes,
    [net_f] those, the approximator and nu = 1/450. *)
Theorem once_fitted_graphs (m : vec3 net) (variables : list Qc) (o : OptState)
    (n : nat) (bc : list (vec2 Qc * vec3 Qc)) (cp : list (vec2 Qc)) (k : nat) :
  let s := snd (fit bc cp (init m variables o n)) in
  let r := (reduce_min2 (map fst bc), reduce_max2 (abs2 (map fst bc))) in
  let ym := reduce_max3 (abs3 (map snd bc)) in
  scalex_graph s k = Some r /\ scalex_r_graph s k = Some r /\
  scale_graph s k = Some ym /\ scale_r_graph s k = Some ym /\
  net_f_graph s k = Some (mk_net_f_captures r r m ym (1 / of_nat 450)).
Proof.
  intros s r ym.
  destruct (fit_run bc cp (init m variables o n))
    as (t1 & ? & ? & ? & ? & E1 & _ & _ & _ & _ & _ & _ & _ & _ & _ & G & _).
  assert (Es : s = t1) by (subst s; now rewrite E1).
  rewrite Es. clear Es s.
  destruct G as (G1 & G2 & G3 & G4 & G5 & _).
  rewrite G1, G2, G3, G4, G5. repeat split.
Qed.

(** X20. Once [scalex] has returned for a batch, it returns the same for
    that batch whatever [fit_scalex] stores afterwards: the graph traced
    for the shape holds the range it was traced with. *)
Theorem scalex_outlives_refit (s s1 : PINNs) (y ys x : list (vec2 Qc)) :
  scalex y s = (Ok ys, s1) ->
  fst (scalex y (snd (fit_scalex x s1))) = Ok ys /\
  xmin (snd (fit_scalex x s1)) = Some (reduce_min2 x) /\
  xmax (snd (fit_scalex x s1)) = Some (reduce_max2 (abs2 x)).
Proof.
  intros E. destruct (scalex_traced _ _ _ _ E) as (g & L & ->).
  destruct (fit_scalex_run s1 x)
    as (s2 & F & Lo & Hi & _ & _ & _ & _ & _ & _ & _ & _ & _ & _ & C).
  rewrite F. cbn [snd]. split; [|split; [exact Lo | exact Hi]].
  assert (G : scalex_graph s2 (List.length y) = Some g).
  { unfold scalex_graph. now rewrite C, L. }
  destruct (scalex_run s2 g y G) as (s3 & E3 & _). now rewrite E3.
Qed.

Lemma same_graphs_nu_held (c : Qc) (s s' : PINNs) :
  same_graphs s s' -> nu s' = nu s -> nu_held c s -> nu_held c s'.
Proof.
  intros (_ & _ & _ & _ & G5 & G6 & _) Nu (N & Nf & Ts).
  split; [congruence|]. split.
  - intros k g Hg. apply (Nf k). now rewrite <- G5.
  - intros b k g Hg. apply (Ts b k). now rewrite <- G6.
Qed.

Lemma refit_nu_held (c : Qc) (s s' : PINNs) :
  caches s' = caches s -> nu s' = nu s -> nu_held c s -> nu_held c s'.
Proof.
  intros C Nu (N & Nf & Ts).
  assert (Nf' : forall k g, net_f_graph s' k = Some g -> g_nu g = c).
  { intros k g. unfold net_f_graph. rewrite C.
    destruct (lookup Nat.eqb k (net_f_cache (caches s))) as [g0|] eqn:L; cbn [or_else].
    - intros E. injection E as <-. apply (Nf k). unfold net_f_graph. now rewrite L.
    - destruct (scalex_r_graph s' k), (scalex_graph s' k), (scale_r_graph s' k);
        try discriminate.
      intros E. injection E as <-. cbn [g_nu]. congruence. }
  split; [congruence|]. split; [exact Nf'|].
  intros b k g. unfold train_step_graph. rewrite C.
  destruct (lookup shape_eqb (b, k) (train_step_cache (caches s))) as [g0|] eqn:L;
    cbn [or_else].
  - intros E. injection E as <-. apply (Ts b k). unfold train_step_graph. now rewrite L.
  - destruct (net_f_graph s' k) as [gf|] eqn:G; [|discriminate].
    intros E. injection E as <-. cbn [g_net_f]. now apply (Nf' k).
Qed.

(** X18. The viscosity of every graph is that of [__init__]: on the
    object as built, nu is 1/450 and so is the nu of every graph in
    effect; [fit] and [predict] keep it so, whatever they trace. *)
Theorem nu_in_graphs (m : vec3 net) (variables : list Qc) (o : OptState) (n : nat) :
  nu_held (1 / of_nat 450) (init m variables o n) /\
  (forall c bc cp s, nu_held c s -> nu_held c (snd (fit bc cp s))) /\
  (forall c cp s, nu_held c s -> nu_held c (snd (predict cp s))).
Proof.
  split; [|split].
  - split; [reflexivity|]. split.
    + intros k g E. discriminate E.
    + intros b k g E. discriminate E.
  - intros c bc cp s Hs.
    destruct (fit_run bc cp s)
      as (s' & ? & ? & ? & ? & E & _ & _ & _ & _ & _ & _ & _ & _ & Nu & G & _).
    destruct (fit_scale_run s (map snd bc))
      as (u1 & F1 & _ & _ & _ & _ & _ & _ & Nu1 & _ & _ & _ & _ & _ & C1).
    destruct (fit_scalex_run u1 (map fst bc))
      as (u2 & F2 & _ & _ & _ & _ & _ & _ & Nu2 & _ & _ & _ & _ & _ & C2).
    rewrite F1 in G. cbn [snd] in G. rewrite F2 in G. cbn [snd] in G.
    rewrite E. cbn [snd].
    apply (same_graphs_nu_held c u2 s' G); [congruence|].
    apply (refit_nu_held c u1 u2 C2 Nu2). now apply (refit_nu_held c s u1 C1 Nu1).
  - intros c cp s Hs. destruct (predict_run s cp) as [_ [A G]].
    apply (same_graphs_nu_held c s _ G); [apply A | exact Hs].
Qed.

(** X19. The graphs are nested: on the object as built, and after every
    [fit] and every [predict], a graph of [train_step] in a cache holds
    the graph of [net_f] that is in the cache of [net_f] for the shape
    of the collocation batch; so that the graph of [net_f] that the
    graph of [train_step] in effect holds is the one in effect. *)
Theorem caches_nested (m : vec3 net) (variables : list Qc) (o : OptState) (n : nat) :
  nested (caches (init m variables o n)) /\
  (forall bc cp s, nested (caches s) -> nested (caches (snd (fit bc cp s)))) /\
  (forall cp s, nested (caches s) -> nested (caches (snd (predict cp s)))) /\
  (forall s b k g,
      nested (caches s) -> train_step_graph s b k = Some g ->
      net_f_graph s k = Some (g_net_f g)).
Proof.
  split; [|split; [|split]].
  - intros b k g L. discriminate L.
  - intros bc cp s Hs.
    destruct (fit_run bc cp s)
      as (s' & ? & ? & ? & ? & E & _ & _ & _ & _ & _ & _ & _ & _ & _ & G & _).
    destruct (fit_scale_run s (map snd bc))
      as (u1 & F1 & _ & _ & _ & _ & _ & _ & _ & _ & _ & _ & _ & _ & C1).
    destruct (fit_scalex_run u1 (map fst bc))
      as (u2 & F2 & _ & _ & _ & _ & _ & _ & _ & _ & _ & _ & _ & _ & C2).
    rewrite F1 in G. cbn [snd] in G. rewrite F2 in G. cbn [snd] in G.
    rewrite E. cbn [snd].
    destruct G as (_ & _ & _ & _ & _ & _ & _ & N). apply N. now rewrite C2, C1.
  - intros cp s Hs. destruct (predict_run s cp) as [_ [_ G]].
    destruct G as (_ & _ & _ & _ & _ & _ & _ & N). now apply N.
  - intros s b k g N. unfold train_step_graph.
    destruct (lookup shape_eqb (b, k) (train_step_cache (caches s))) as [g0|] eqn:L;
      cbn [or_else].
    + intros E. injection E as <-. unfold net_f_graph. now rewrite (N b k g0 L).
    + destruct (net_f_graph s k) as [gf|]; [|discriminate].
      intros E. now injection E as <-.
Qed.
End StaleGraphs.

#[local] Existing Instance sample_services.

(** C2, at coordinates with a negative entry: [fit_scalex] stores the
    greatest absolute value (3, 2) where the componentwise maximum is
    (1, 2), and returns the rows scaled by it. *)
Theorem fit_scalex_signed_input :
  xmax (snd (fit_scalex signed_x (sample_init 0))) = Some (qz 3, qz 2) /\
  xmin (snd (fit_scalex signed_x (sample_init 0))) = Some (qz (-3), qz 0) /\
  reduce_max2 signed_x = (qz 1, qz 2) /\
  reduce_min2 signed_x = (qz (-3), qz 0) /\
  fst (fit_scalex signed_x (sample_init 0)) =
    Ok [(qz 0, qz 0); (qz 2 / qz 3, qz 1)] /\
  map (minmax_row (reduce_min2 signed_x) (reduce_max2 signed_x)) signed_x =
    [(qz 0, qz 0); (qz 1, qz 1)].
Proof.
  repeat split; qc_close.
Qed.

(** C3 as stated fails.  On one single point the maximum goes to a
    quotient by zero, not to 1 (NaN in binary32); at coordinates with a
    negative entry the maximum (1, 2) goes to (2/3, 1); and on a fitted
    object on which [scalex] was traced for one row, a second
    [fit_scalex], on data from (0, 0) to (4, 10), changes nothing to
    what [scalex] does with one row: the new maximum goes to (2, 9/4)
    and the new minimum to (0, -1/4). *)
Lemma scalex_maximum_not_one :
  fst (scalex (T:=Qc) [reduce_max2 single_x] (snd (fit_scalex single_x (sample_init 0))))
    <> Ok [(qz 1, qz 1)]%list /\
  scalex_ops (T:=float32) (reduce_min2 single_x, reduce_max2 (abs2 single_x))
      [(of_Qc32 (qz 2), of_Qc32 (qz 3))]%list
    = [(S754_nan, S754_nan)]%list /\
  fst (scalex (T:=Qc) [reduce_max2 signed_x] (snd (fit_scalex signed_x (sample_init 0))))
    = Ok [(qz 2 / qz 3, qz 1)]%list /\
  fst (scalex (T:=Qc) [reduce_max2 signed_x] (snd (fit_scalex signed_x (sample_init 0))))
    <> Ok [(qz 1, qz 1)]%list /\
  xmin sample_refitted = Some (reduce_min2 wide_x) /\
  xmax sample_refitted = Some (reduce_max2 wide_x) /\
  fst (scalex (T:=Qc) [reduce_max2 wide_x] sample_refitted)
    = Ok [(qz 2, qz 9 / qz 4)]%list /\
  fst (scalex (T:=Qc) [reduce_min2 wide_x] sample_refitted)
    = Ok [(qz 0, qz (-1) / qz 4)]%list.
Proof.
  split; [qc_ne|]. split; [vm_compute; reflexivity|]. split; [qc_close|].
  split; [qc_ne|]. repeat split; qc_close.
Qed.



Lemma net_f_residuals_witness :
  exists f s',
    net_f sample_cp sample_fitted = (Ok f, s') /\ alike sample_fitted s' /\
    List.length f = List.length sample_cp /\
    map (eval3 sample_theta) f =
    map (fun p => spec_residual sample_lo sample_hi sample_ym sample_model
                    sample_theta (unminmax_row sample_lo sample_hi p)) sample_cp.
Proof.
  apply (net_f_residuals sample_fitted sample_net_f_graph sample_cp sample_theta);
    [qc_close | reflexivity].
Defined.

Lemma train_step_losses_witness :
  exists f s0,
    net_f sample_cp sample_fitted = (Ok f, s0) /\
    hist (snd (epoch_body sample_bc sample_cp sample_fitted)) =
      hist sample_fitted ++
      [(spec_boundary_loss sample_model sample_theta sample_bc +
          spec_pde_loss (map (eval3 sample_theta) f),
        spec_boundary_loss sample_model sample_theta sample_bc,
        spec_pde_loss (map (eval3 sample_theta) f))].
Proof.
  destruct (train_step_losses sample_fitted sample_train_step_graph
              sample_bc sample_cp) as (f & s0 & Hf & _ & _ & He & _);
    [qc_close | qc_close |].
  exists f, s0. split; [exact Hf | exact He].
Defined.

Lemma scalex_fitted_bounds_witness :
  let x := map fst sample_bc in
  let s' := snd (fit_scalex x (sample_init 0)) in
  (exists s1,
      scalex (T:=Qc) [reduce_min2 x] s' = (Ok [(0, 0)]%list, s1) /\ alike s' s1) /\
  (exists s2,
      scalex (T:=Qc) [reduce_max2 x] s' = (Ok [(1, 1)]%list, s2) /\ alike s' s2).
Proof.
  intros x s'.
  destruct (scalex_fitted_bounds (sample_init 0) x) as [A B];
    [reflexivity | qc_ne | qc_ne |].
  split; [exact A|]. apply B.
  intros r Hr. vm_compute in Hr.
  destruct Hr as [<-|[<-|[<-|[]]]]; split; vm_compute; discriminate.
Defined.

(** The definitions at work on the instance. *)

(** The residuals of the two collocation points, as computed by hand from
    U = 4 (x/2 + ((y-1)/4)^2), V = 2 ((2 x/2)^2 - (y-1)/4) and
    uv = 2 * 3 (x/2) ((y-1)/4) at the points (2, 9) and (4, 17). *)
Example net_f_sample :
  match fst (net_f sample_cp sample_fitted) with
  | Ok f =>
      map (eval3 sample_theta) f =
      [(Q2Qc (51749 # 900), Q2Qc (36898 # 225), Q2Qc (3 # 2));
       (Q2Qc (305099 # 900), Q2Qc (259198 # 225), Q2Qc (3 # 2))]
  | Raise _ => False
  end.
Proof.
  qc_close.
Qed.

(** One epoch and the two invocations of the closure: three triples, and
    the epoch counter at 3. *)
Example fit_sample :
  match fit sample_bc sample_cp (sample_init 1) with
  | (Ok h, s) =>
      List.length h = 3%nat /\ epoch s = 3%nat /\
      closure_calls (trace s) = 2%nat /\ gradient_steps (trace s) = 1%nat
  | (Raise _, _) => False
  end.
Proof.
  vm_compute. repeat split.
Qed.

Example predict_sample_unfitted :
  fst (predict sample_cp (sample_init 1)) = Raise (AttributeError "xmin").
Proof.
  reflexivity.
Qed.

(** The further properties on the instance. *)

Lemma fit_scalex_in_unit_witness :
  exists xs,
    fst (fit_scalex signed_x (sample_init 0)) = Ok xs /\
    List.length xs = List.length signed_x /\
    forall r, In r xs -> in_unit (fst r) /\ in_unit (snd r).
Proof.
  apply (fit_scalex_in_unit (sample_init 0) signed_x); qc_ne.
Defined.

Lemma fit_scale_within_one_witness :
  exists ys,
    fst (fit_scale (map snd sample_bc) (sample_init 0)) = Ok ys /\
    List.length ys = List.length (map snd sample_bc) /\
    forall r, In r ys ->
      within_one (fst (fst r)) /\ within_one (snd (fst r)) /\ within_one (snd r).
Proof.
  apply (fit_scale_within_one (sample_init 0) (map snd sample_bc)); qc_ne.
Defined.

Lemma sample_coordinates_nonneg (r : vec2 Qc) :
  In r (map fst sample_bc) -> 0 <= fst r /\ 0 <= snd r.
Proof.
  intros Hr. vm_compute in Hr.
  destruct Hr as [<-|[<-|[<-|[]]]]; split; vm_compute; discriminate.
Defined.

Lemma fit_scalex_extremes_witness :
  exists lo hi,
    xmin (snd (fit_scalex (map fst sample_bc) (sample_init 0))) = Some lo /\
    xmax (snd (fit_scalex (map fst sample_bc) (sample_init 0))) = Some hi /\
    In (fst lo) (map fst (map fst sample_bc)) /\
    In (snd lo) (map snd (map fst sample_bc)) /\
    In (fst hi) (map fst (map fst sample_bc)) /\
    In (snd hi) (map snd (map fst sample_bc)) /\
    forall r, In r (map fst sample_bc) ->
      fst lo <= fst r /\ fst r <= fst hi /\ snd lo <= snd r /\ snd r <= snd hi.
Proof.
  apply (fit_scalex_extremes (sample_init 0) (map fst sample_bc));
    [qc_ne | exact sample_coordinates_nonneg].
Defined.


Lemma predict_is_prediction_witness :
  exists s',
    predict sample_cp sample_fitted =
      (Ok (map (fun p => eval3 (trainable_variables sample_fitted)
                           (prediction sample_lo sample_hi sample_ym (model sample_fitted)
                              (Inp (LX 0) (fst p)) (Inp (LY 0) (snd p)))) sample_cp),
       s') /\
    alike sample_fitted s'.
Proof.
  apply (predict_is_prediction sample_fitted sample_lo sample_hi sample_ym sample_cp);
    qc_close.
Defined.

Lemma net_f_unfitted_witness :
  net_f sample_cp (sample_init 0) = (Raise (AttributeError "xmax"), sample_init 0) /\
  train_step sample_bc sample_cp (sample_init 0) =
    (Raise (AttributeError "xmax"), sample_init 0).
Proof.
  apply (net_f_unfitted (sample_init 0) sample_bc sample_cp); reflexivity.
Defined.

Lemma predict_without_ymax_witness :
  exists s',
    predict sample_cp sample_half_fitted = (Raise (AttributeError "ymax"), s') /\
    alike sample_half_fitted s'.
Proof.
  apply (predict_without_ymax sample_half_fitted (sample_lo, sample_hi) sample_cp);
    [qc_close | reflexivity].
Defined.

Lemma fit_epochs_numbered_witness :
  exists tr new,
    trace (snd (fit sample_bc sample_cp (sample_init 1))) = trace (sample_init 1) ++ tr /\
    hist (snd (fit sample_bc sample_cp (sample_init 1))) = hist (sample_init 1) ++ new /\
    printed_epochs tr = seq (List.length (hist (sample_init 1))) (List.length new) /\
    epoch (snd (fit sample_bc sample_cp (sample_init 1))) =
      List.length (hist (snd (fit sample_bc sample_cp (sample_init 1)))).
Proof.
  apply (fit_epochs_numbered sample_bc sample_cp (sample_init 1)). reflexivity.
Defined.

Lemma closure_is_objective_witness :
  exists f s0,
    net_f sample_cp sample_fitted = (Ok f, s0) /\
    forall p, exists s',
      func sample_bc sample_cp p sample_fitted =
        (Ok (spec_boundary_loss sample_model p sample_bc +
               spec_pde_loss (map (eval3 p) f),
             map (fun d => eval p (D d (taped_loss sample_model sample_bc f)))
                 (map DPar (seq 0 (List.length p)))),
         s') /\
      trainable_variables s' = p /\
      eval p (taped_loss sample_model sample_bc f) =
        spec_boundary_loss sample_model p sample_bc +
        spec_pde_loss (map (eval3 p) f).
Proof.
  apply (closure_is_objective sample_train_step_graph sample_bc sample_cp
           sample_fitted); qc_close.
Defined.

Lemma phase_one_step_witness :
  exists f s0 s',
    net_f sample_cp sample_fitted = (Ok f, s0) /\
    epoch_body sample_bc sample_cp sample_fitted = (Ok tt, s') /\
    List.length (trainable_variables s') = 3%nat.
Proof.
  destruct (phase_one_step sample_train_step_graph sample_bc sample_cp
              sample_fitted) as (f & s0 & s' & Ef & Eb & _ & Ev & _);
    [qc_close | qc_close |].
  exists f, s0, s'. split; [exact Ef|]. split; [exact Eb|].
  rewrite Ev. cbn [apply_gradients sample_services sample_apply_gradients snd].
  rewrite length_map, length_combine, !length_map, length_seq. reflexivity.
Defined.

Lemma fit_without_training_witness :
  exists s',
    @fit idle_services sample_bc sample_cp
      (@init idle_services sample_model sample_theta tt 0) = (Ok [], s') /\
    @epoch idle_services s' = 0%nat /\
    @trace idle_services s' = [MinimizeCall; MinimizeReturn].
Proof.
  destruct (@fit_without_training idle_services sample_bc sample_cp
              (@init idle_services sample_model sample_theta tt 0) tt
              eq_refl eq_refl) as (s' & E & _ & Ee & Et & _).
  exists s'. split; [exact E|]. split; [exact Ee | exact Et].
Defined.

Lemma shear_flow_residual_free_witness :
  exists f s',
    net_f sample_cp shear_fitted = (Ok f, s') /\
    List.length f = List.length sample_cp /\
    forall r, In r (map (eval3 []) f) -> r = (0, 0, 0).
Proof.
  apply (shear_flow_residual_free shear_fitted
           (mk_net_f_captures (sample_lo, sample_hi) (sample_lo, sample_hi)
              (shear_flow (qz 1) (qz 2) (qz 3)) sample_ym (1 / of_nat 450))
           (qz 1) (qz 2) (qz 3) sample_cp []);
    [qc_close | qc_ne | qc_ne | reflexivity].
Defined.

Lemma scalex_outlives_refit_witness :
  fst (scalex (T:=Qc) [(qz 1, qz 2)] sample_refitted)
    = Ok [(qz 1 / qz 2, qz 1 / qz 4)]%list /\
  xmin sample_refitted = Some (reduce_min2 wide_x) /\
  xmax sample_refitted = Some (reduce_max2 (abs2 wide_x)).
Proof.
  apply (scalex_outlives_refit sample_fitted sample_traced
           [(qz 1, qz 2)]%list [(qz 1 / qz 2, qz 1 / qz 4)]%list wide_x).
  rewrite (surjective_pairing (scalex _ sample_fitted)).
  apply f_equal2; [qc_close | reflexivity].
Defined.

Lemma nu_in_graphs_witness :
  nu_held (1 / of_nat 450) (snd (fit sample_bc sample_cp (sample_init 1))).
Proof.
  destruct (@nu_in_graphs sample_services sample_model sample_theta tt 1) as (A & B & _).
  exact (B _ sample_bc sample_cp _ A).
Defined.

Lemma caches_nested_witness :
  nested (caches (snd (fit sample_bc sample_cp (sample_init 1)))).
Proof.
  destruct (@caches_nested sample_services sample_model sample_theta tt 1) as (A & B & _).
  exact (B sample_bc sample_cp _ A).
Defined.
